(** * kafka-clone: the segmented commit log (internal/logstore), the topic
      registry (internal/topics), the producer and the consumer, embedded in
      Rocq.

    The Go code is sequentialised (the mutexes only serialise the calls that
    are modelled here one after the other).  The operating system is an
    explicit [World]: the files of the data directory, the table of open
    descriptors with their cursors, and a schedule of injected I/O failures.
    Every Go function that touches a file is a function from a [World] to a
    result and the next [World]; a method that mutates its receiver returns
    the receiver as well, also when it fails. *)

From Stdlib Require Import ZArith Lia Strings.Byte.
From stdpp Require Import base option gmap strings list sorting pretty.

Local Open Scope Z_scope.
Set Warnings "-clear-no-such-hyp".

(* ===================================================================== *)
(** ** Fixed-width integers and big-endian encoding *)
(* ===================================================================== *)

(** A signed [bits]-bit integer is a [Z]; conversion wraps. *)
Definition wrap (bits : Z) (z : Z) : Z :=
  (z + 2 ^ (bits - 1)) mod 2 ^ bits - 2 ^ (bits - 1).

Definition int64 (z : Z) : Z := wrap 64 z.
Definition int32 (z : Z) : Z := wrap 32 z.
Definition uint32 (z : Z) : Z := z mod 2 ^ 32.

Definition byte_of_Z (z : Z) : byte :=
  default x00 (Byte.of_N (Z.to_N (z mod 256))).

Definition Z_of_byte (b : byte) : Z := Z.of_N (Byte.to_N b).

(** [binary.BigEndian]: the [n] low bytes of [z], most significant first
    (two's complement for a negative [z]). *)
Fixpoint be_bytes (n : nat) (z : Z) : list byte :=
  match n with
  | O => []
  | S k => byte_of_Z (z / 256 ^ Z.of_nat k) :: be_bytes k z
  end.

Definition be_uint (bs : list byte) : Z :=
  fold_left (λ acc b, acc * 256 + Z_of_byte b) bs 0.

Definition be_int64 (bs : list byte) : Z := int64 (be_uint bs).
Definition be_int32 (bs : list byte) : Z := int32 (be_uint bs).

(* ===================================================================== *)
(** ** hash/crc32: [ChecksumIEEE] *)
(* ===================================================================== *)

(** The reflected CRC-32 with polynomial 0xEDB88320, one bit at a time. *)
Definition crc_bit (c : Z) : Z :=
  if Z.testbit c 0 then Z.lxor (Z.shiftr c 1) 0xEDB88320 else Z.shiftr c 1.

Definition crc_byte (c : Z) (b : byte) : Z :=
  Nat.iter 8 crc_bit (Z.lxor c (Z_of_byte b)).

Definition ChecksumIEEE (p : list byte) : Z :=
  Z.lxor (fold_left crc_byte p 0xFFFFFFFF) 0xFFFFFFFF.

(* ===================================================================== *)
(** ** Errors and results *)
(* ===================================================================== *)

(** The Go code builds its own errors with [fmt.Errorf]; each message format
    is one constructor.  The others are the errors of [io] and [os]. *)
Inductive error : Type :=
  | EOF                                         (* io.EOF *)
  | ErrUnexpectedEOF                            (* io.ErrUnexpectedEOF *)
  | ErrClosed                                   (* os.ErrClosed *)
  | ErrIO                                       (* any other failure of the OS *)
  | ErrOutOfRange (offset base next : Z)        (* "offset %d out of range [%d, %d)" *)
  | ErrOffsetNotFound (offset : Z)              (* "offset %d not found" *)
  | ErrNotInPartition (offset : Z) (id : Z)     (* "offset %d not found in partition %d" *)
  | ErrTopicExists (name : string)              (* "topic %s already exists" *)
  | ErrTopicNotFound (name : string)            (* "topic %s not found" *)
  | ErrPartitionNotFound (id : Z) (topic : string)
                                  (* "partition %d not found in topic %s" *)
  | ErrFuel.       (* the bound of a modelled loop was reached (never happens) *)

(** A call returns a value, returns an error, or panics (a run-time panic of
    Go: [make] with a negative length, an index out of range). *)
Inductive result (A : Type) : Type :=
  | Ok (a : A)
  | Err (e : error)
  | Panic.
Arguments Ok {A} a.
Arguments Err {A} e.
Arguments Panic {A}.

(* ===================================================================== *)
(** ** The operating system *)
(* ===================================================================== *)

Inductive Ext : Type := LogExt | IndexExt.

#[global] Instance Ext_eq_dec : EqDecision Ext.
Proof. solve_decision. Defined.

#[global] Instance Ext_countable : Countable Ext.
Proof.
  refine (inj_countable' (λ e, match e with LogExt => true | IndexExt => false end)
                         (λ b : bool, if b then LogExt else IndexExt) _).
  by intros [].
Defined.

(** A file of a partition directory, [<dir>/<%020d of base>.<ext>], is named
    by the directory, the base offset and the extension. *)
Abbreviation FileName := (string * Z * Ext)%type.

(** An [os.File]: the descriptor and the name it was opened with. *)
Record File : Type := mkFile { fd : nat; fname : FileName }.

(** One entry of the failure schedule decides one system call: it goes
    through, or it fails after having transferred [n] bytes. *)
Inductive Fault : Type := NoFault | FailAfter (n : nat).

Record World : Type := mkWorld {
  fs      : gmap FileName (list byte);   (* file contents *)
  fds     : gmap nat nat;                (* open descriptors and their cursors *)
  nextFd  : nat;                         (* the next descriptor to hand out *)
  faults  : list Fault;                  (* failures still to come *)
}.

Definition set_fs (f : gmap FileName (list byte) → gmap FileName (list byte))
    (w : World) : World :=
  mkWorld (f (fs w)) (fds w) (nextFd w) (faults w).
Definition set_fds (f : gmap nat nat → gmap nat nat) (w : World) : World :=
  mkWorld (fs w) (f (fds w)) (nextFd w) (faults w).

(** Take the next entry of the schedule; an exhausted schedule never fails. *)
Definition next_fault (w : World) : Fault * World :=
  (hd NoFault (faults w), mkWorld (fs w) (fds w) (nextFd w) (tl (faults w))).

Definition content (w : World) (f : File) : list byte :=
  default [] (fs w !! fname f).

(** [os.MkdirAll]. *)
Definition os_MkdirAll (w : World) : result unit * World :=
  match next_fault w with
  | (NoFault, w1) => (Ok tt, w1)
  | (FailAfter _, w1) => (Err ErrIO, w1)
  end.

(** [os.OpenFile(path, O_CREATE|O_RDWR|O_APPEND, 0644)]. *)
Definition os_OpenFile (n : FileName) (w : World) : result File * World :=
  match next_fault w with
  | (NoFault, w1) =>
      let data := default [] (fs w1 !! n) in
      (Ok (mkFile (nextFd w1) n),
       mkWorld (<[n := data]> (fs w1)) (<[nextFd w1 := 0%nat]> (fds w1))
               (S (nextFd w1)) (faults w1))
  | (FailAfter _, w1) => (Err ErrIO, w1)
  end.

(** [os.ReadDir]: the names of the files of [dir] (none when the directory
    does not exist, which the caller treats the same). *)
Definition os_ReadDir (dir : string) (w : World) : result (list FileName) * World :=
  match next_fault w with
  | (NoFault, w1) =>
      (Ok (filter (λ n : FileName, n.1.1 = dir) (map_to_list (fs w1)).*1), w1)
  | (FailAfter _, w1) => (Err ErrIO, w1)
  end.

(** [f.Stat().Size()]. *)
Definition File_Stat (f : File) (w : World) : result Z * World :=
  match fds w !! fd f with
  | None => (Err ErrClosed, w)
  | Some _ =>
      match next_fault w with
      | (NoFault, w1) => (Ok (Z.of_nat (length (content w1 f))), w1)
      | (FailAfter _, w1) => (Err ErrIO, w1)
      end
  end.

(** [f.Seek(pos, io.SeekStart)], the error discarded as the callers do: a
    closed file or a negative position leaves the cursor where it was. *)
Definition File_SeekStart (f : File) (pos : Z) (w : World) : World :=
  match fds w !! fd f with
  | None => w
  | Some _ => if pos <? 0 then w else set_fds <[fd f := Z.to_nat pos]> w
  end.

(** [f.Seek(0, io.SeekEnd)]: the new cursor, 0 when the call fails. *)
Definition File_SeekEnd (f : File) (w : World) : Z * World :=
  match fds w !! fd f with
  | None => (0, w)
  | Some _ =>
      let n := length (content w f) in
      (Z.of_nat n, set_fds <[fd f := n]> w)
  end.

(** [f.Seek(0, io.SeekCurrent)]. *)
Definition cursor (w : World) (f : File) : nat := default 0%nat (fds w !! fd f).

Definition File_SeekCurrent (f : File) (w : World) : Z := Z.of_nat (cursor w f).

(** [io.ReadFull(f, buf)] with [len(buf) = n]: an empty buffer reads nothing;
    otherwise the bytes at the cursor, [io.EOF] when none is left and
    [io.ErrUnexpectedEOF] when fewer than [n] are. The cursor moves past the
    bytes that were read. *)
Definition io_ReadFull (f : File) (n : nat) (w : World) : result (list byte) * World :=
  match n with
  | O => (Ok [], w)
  | S _ =>
      match fds w !! fd f with
      | None => (Err ErrClosed, w)
      | Some cur =>
          match next_fault w with
          | (FailAfter _, w1) => (Err ErrIO, w1)
          | (NoFault, w1) =>
              let got := take n (drop cur (content w1 f)) in
              let w2 := set_fds <[fd f := (cur + length got)%nat]> w1 in
              if decide (length got = n) then (Ok got, w2)
              else match got with
                   | [] => (Err EOF, w2)
                   | _ => (Err ErrUnexpectedEOF, w2)
                   end
          end
      end
  end.

(** [f.Write(bs)] on a file opened with [O_APPEND]: the bytes go to the end
    of the file, and the cursor follows. A failing write may have written a
    prefix. *)
Definition File_Write (f : File) (bs : list byte) (w : World) : result unit * World :=
  match fds w !! fd f with
  | None => (Err ErrClosed, w)
  | Some _ =>
      let '(flt, w1) := next_fault w in
      let written := match flt with NoFault => bs | FailAfter k => take k bs end in
      let data := content w1 f ++ written in
      let w2 := mkWorld (<[fname f := data]> (fs w1))
                        (<[fd f := length data]> (fds w1))
                        (nextFd w1) (faults w1) in
      (match flt with NoFault => Ok tt | FailAfter _ => Err ErrIO end, w2)
  end.

(** [f.Truncate(size)], the error discarded as the caller does. *)
Definition File_Truncate (f : File) (size : Z) (w : World) : World :=
  match fds w !! fd f with
  | None => w
  | Some _ =>
      if size <? 0 then w
      else
        let data := content w f in
        let n := Z.to_nat size in
        set_fs <[fname f := take n data ++ replicate (n - length data)%nat x00]> w
  end.

(** [f.Sync(); f.Close()], the errors discarded as the caller does. *)
Definition File_Close (f : File) (w : World) : World :=
  set_fds (delete (fd f)) w.

(* ===================================================================== *)
(** ** A state and error monad *)
(* ===================================================================== *)

(** A Go function over a mutable state [St]: the outcome and the state it
    leaves behind. An error or a panic ends the function at once. *)
Definition M (St A : Type) : Type := St → result A * St.

Definition ret {St A} (a : A) : M St A := λ s, (Ok a, s).
Definition throw {St A} (e : error) : M St A := λ s, (Err e, s).
Definition panic {St A} : M St A := λ s, (Panic, s).

Definition bind {St A B} (m : M St A) (k : A → M St B) : M St B :=
  λ s, match m s with
       | (Ok a, s') => k a s'
       | (Err e, s') => (Err e, s')
       | (Panic, s') => (Panic, s')
       end.

Notation "'let*' x := m 'in' k" := (bind m (λ x, k))
  (at level 10, x name, m at level 100, k at level 200).
Notation "m ;; k" := (bind m (λ _, k))
  (at level 100, k at level 200, right associativity).

(** [if err := m; err != nil { ... }]: the error becomes a value. *)
Definition attempt {St A} (m : M St A) : M St (error + A) :=
  λ s, match m s with
       | (Ok a, s') => (Ok (inr a), s')
       | (Err e, s') => (Ok (inl e), s')
       | (Panic, s') => (Panic, s')
       end.

(** A method with receiver [S] runs on the receiver and the world. *)
Definition getS {S} : M (S * World) S := λ '(s, w), (Ok s, (s, w)).
Definition getW {S} : M (S * World) World := λ '(s, w), (Ok w, (s, w)).
Definition modS {S} (f : S → S) : M (S * World) unit := λ '(s, w), (Ok tt, (f s, w)).
Definition sys {S A} (m : M World A) : M (S * World) A :=
  λ '(s, w), let '(r, w') := m w in (r, (s, w')).
Definition sys_ {S} (f : World → World) : M (S * World) unit :=
  λ '(s, w), (Ok tt, (s, f w)).
Definition sysv {S A} (f : World → A * World) : M (S * World) A :=
  λ '(s, w), let '(a, w') := f w in (Ok a, (s, w')).

(** [for { body }] with a local variable [l]: the body continues with a new
    value of the variable ([inl]) or leaves the loop with a value ([inr]).
    [fuel] bounds the number of iterations. *)
Fixpoint for_loop {St L A} (fuel : nat) (body : L → M St (L + A)) (l : L) : M St A :=
  match fuel with
  | O => throw ErrFuel
  | S n => let* r := body l in
           match r with
           | inl l' => for_loop n body l'
           | inr a => ret a
           end
  end.

(* ===================================================================== *)
(** ** internal/logstore/segment.go *)
(* ===================================================================== *)

Definition SegmentMaxBytes : Z := 128 * 1024 * 1024.
Definition IndexInterval : Z := 4096.

Record LogEntry : Type := mkLogEntry { Offset : Z; Payload : list byte }.

Record IndexEntry : Type := mkIndexEntry { RelativeOffset : Z; Position : Z }.

Record Segment : Type := mkSegment {
  baseOffset   : Z;
  logFile      : File;
  indexFile    : File;
  size         : Z;
  nextOffset   : Z;
  indexEntries : list IndexEntry;
}.

Definition set_size (v : Z) (s : Segment) : Segment :=
  mkSegment (baseOffset s) (logFile s) (indexFile s) v (nextOffset s) (indexEntries s).
Definition set_nextOffset (v : Z) (s : Segment) : Segment :=
  mkSegment (baseOffset s) (logFile s) (indexFile s) (size s) v (indexEntries s).
Definition append_indexEntry (e : IndexEntry) (s : Segment) : Segment :=
  mkSegment (baseOffset s) (logFile s) (indexFile s) (size s) (nextOffset s)
            (indexEntries s ++ [e]).

Definition len (p : list byte) : Z := Z.of_nat (length p).

(** The body of the loop of [recover] that loads the index file. *)
Definition recover_index_body (_ : unit) : M (Segment * World) (unit + unit) :=
  let* s := getS in
  let* r := attempt (sys (io_ReadFull (indexFile s) 4)) in
  match r with
  | inl EOF => ret (inr tt)                                   (* break *)
  | inl e => throw e
  | inr rel =>
      let* pos := sys (io_ReadFull (indexFile s) 4) in
      modS (append_indexEntry (mkIndexEntry (be_int32 rel) (be_int32 pos))) ;;
      ret (inl tt)
  end.

(** The body of the loop of [recover] that scans the log file; the local
    variable is [position]. *)
Definition recover_log_body (position : Z) : M (Segment * World) (Z + unit) :=
  let* s := getS in
  let* r := attempt (sys (io_ReadFull (logFile s) 8)) in
  match r with
  | inl EOF => ret (inr tt)                                   (* break *)
  | inl e => throw e
  | inr off =>
      let* lenb := sys (io_ReadFull (logFile s) 4) in
      let* crcb := sys (io_ReadFull (logFile s) 4) in
      let offset := be_int64 off in
      let length := be_int32 lenb in
      let crc := be_uint crcb in
      if length <? 0 then panic                               (* make([]byte, length) *)
      else
        let* payload := sys (io_ReadFull (logFile s) (Z.to_nat length)) in
        let expectedCRC := ChecksumIEEE payload in
        if decide (crc ≠ expectedCRC) then
          sys_ (File_Truncate (logFile s) position) ;;
          ret (inr tt)                                        (* break *)
        else
          modS (set_nextOffset (int64 (offset + 1))) ;;
          let* w := getW in
          ret (inl (File_SeekCurrent (logFile s) w))
  end.

(** [func (s *Segment) recover() error]. Each pass of the first loop reads
    8 bytes and each pass of the second at least 16, so the length of the
    file bounds the passes. *)
Definition Segment_recover : M (Segment * World) unit :=
  let* s := getS in
  sys_ (File_SeekStart (indexFile s) 0) ;;
  let* w := getW in
  for_loop (S (length (content w (indexFile s)))) recover_index_body tt ;;
  sys_ (File_SeekStart (logFile s) 0) ;;
  let* w := getW in
  for_loop (S (length (content w (logFile s)))) recover_log_body 0.

(** [func (s *Segment) Close() error]. *)
Definition Segment_Close (s : Segment) (w : World) : World :=
  File_Close (indexFile s) (File_Close (logFile s) w).

(** [func NewSegment(dir string, baseOffset int64)]. *)
Definition NewSegment (dir : string) (baseOffset : Z) : M World Segment :=
  os_MkdirAll ;;
  let* logFile := os_OpenFile (dir, baseOffset, LogExt) in
  let* r := attempt (os_OpenFile (dir, baseOffset, IndexExt)) in
  match r with
  | inl e => λ w, (Err e, File_Close logFile w)
  | inr indexFile =>
      let* r := attempt (File_Stat logFile) in
      match r with
      | inl e => λ w, (Err e, File_Close indexFile (File_Close logFile w))
      | inr sz =>
          let segment := mkSegment baseOffset logFile indexFile sz baseOffset [] in
          λ w, match Segment_recover (segment, w) with
               | (Ok _, (s', w')) => (Ok s', w')
               | (Err e, (s', w')) => (Err e, Segment_Close s' w')
               | (Panic, (s', w')) => (Panic, w')
               end
      end
  end.

(** The record of [entry] as [Append] writes it:
    [[offset][length][crc][payload]]. *)
Definition frame (offset : Z) (payload : list byte) : list byte :=
  be_bytes 8 offset ++ be_bytes 4 (int32 (len payload))
  ++ be_bytes 4 (ChecksumIEEE payload) ++ payload.

(** [len(s.indexEntries) == 0 ||
     position-int64(s.indexEntries[len(s.indexEntries)-1].Position) >= IndexInterval]. *)
Definition index_due (s : Segment) (position : Z) : bool :=
  match last (indexEntries s) with
  | None => true
  | Some e => IndexInterval <=? int64 (position - Position e)
  end.

(** [func (s *Segment) Append(entry LogEntry) error]. The entry is a copy:
    the assignment to [entry.Offset] is local to this function. *)
Definition Segment_Append (entry : LogEntry) : M (Segment * World) unit :=
  let* s := getS in
  let entry := mkLogEntry (nextOffset s) (Payload entry) in
  let crc := ChecksumIEEE (Payload entry) in
  let* position := sysv (File_SeekEnd (logFile s)) in
  sys (File_Write (logFile s) (be_bytes 8 (Offset entry))) ;;
  sys (File_Write (logFile s) (be_bytes 4 (int32 (len (Payload entry))))) ;;
  sys (File_Write (logFile s) (be_bytes 4 crc)) ;;
  sys (File_Write (logFile s) (Payload entry)) ;;
  modS (set_size (int64 (position + 8 + 4 + 4 + len (Payload entry)))) ;;
  (if index_due s position then
     let indexEntry :=
       mkIndexEntry (int32 (int64 (Offset entry - baseOffset s))) (int32 position) in
     sys (File_Write (indexFile s) (be_bytes 4 (RelativeOffset indexEntry))) ;;
     sys (File_Write (indexFile s) (be_bytes 4 (Position indexEntry))) ;;
     modS (append_indexEntry indexEntry)
   else ret tt) ;;
  modS (λ s, set_nextOffset (int64 (nextOffset s + 1)) s).

(** [sort.Search(n, f)]: binary search for the smallest index in [[0, n]]
    at which [f] holds; the interval halves at each pass, so [n] passes are
    enough. *)
Fixpoint search_loop (fuel : nat) (i j : nat) (f : nat → bool) : nat :=
  match fuel with
  | O => i
  | S k =>
      if (i <? j)%nat then
        let h := ((i + j) / 2)%nat in
        if negb (f h) then search_loop k (h + 1)%nat j f
        else search_loop k i h f
      else i
  end.

Definition sort_Search (n : nat) (f : nat → bool) : nat := search_loop n 0 n f.

(** [func (s *Segment) findPosition(offset int64) int64]. *)
Definition findPosition (s : Segment) (offset : Z) : Z :=
  let relativeOffset := int32 (int64 (offset - baseOffset s)) in
  let idx := sort_Search (length (indexEntries s)) (λ i,
               match indexEntries s !! i with
               | Some e => relativeOffset <? RelativeOffset e
               | None => false
               end) in
  match idx with
  | O => 0
  | S i => match indexEntries s !! i with
           | Some e => Position e
           | None => 0
           end
  end.

(** The body of the loop of [Read]. *)
Definition read_body (offset : Z) (_ : unit) : M (Segment * World) (unit + LogEntry) :=
  let* s := getS in
  let* off := sys (io_ReadFull (logFile s) 8) in
  let* lenb := sys (io_ReadFull (logFile s) 4) in
  let* crcb := sys (io_ReadFull (logFile s) 4) in
  let entryOffset := be_int64 off in
  let length := be_int32 lenb in
  if length <? 0 then panic                                   (* make([]byte, length) *)
  else
    let* payload := sys (io_ReadFull (logFile s) (Z.to_nat length)) in
    if decide (entryOffset = offset) then ret (inr (mkLogEntry entryOffset payload))
    else if offset <? entryOffset then throw (ErrOffsetNotFound offset)
    else ret (inl tt).

(** [func (s *Segment) Read(offset int64)]. Each pass of
    the loop reads at least 16 bytes. *)
Definition Segment_Read (offset : Z) : M (Segment * World) LogEntry :=
  let* s := getS in
  if (offset <? baseOffset s) || (nextOffset s <=? offset) then
    throw (ErrOutOfRange offset (baseOffset s) (nextOffset s))
  else
    let position := findPosition s offset in
    sys_ (File_SeekStart (logFile s) position) ;;
    let* w := getW in
    for_loop (S (length (content w (logFile s)))) (read_body offset) tt.

(** [func LoadSegments(dir string)]: the loop that opens
    the segments in order. *)
Fixpoint open_segments (dir : string) (baseOffsets : list Z) (segments : list Segment)
    : M World (list Segment) :=
  match baseOffsets with
  | [] => ret segments
  | baseOffset :: rest =>
      let* r := attempt (NewSegment dir baseOffset) in
      match r with
      | inl e => λ w, (Err e, foldl (λ w s, Segment_Close s w) w segments)
      | inr segment => open_segments dir rest (segments ++ [segment])
      end
  end.

(** The base offset of a [*.log] file name, when [strconv.ParseInt] accepts
    it as a 64-bit integer. *)
Definition parse_log_name (n : FileName) : option Z :=
  match n.2 with
  | LogExt => if decide (- 2 ^ 63 ≤ n.1.2 < 2 ^ 63) then Some n.1.2 else None
  | IndexExt => None
  end.

Definition LoadSegments (dir : string) : M World (list Segment) :=
  let* files := os_ReadDir dir in
  let baseOffsets := merge_sort Z.le (omap parse_log_name files) in
  open_segments dir baseOffsets [].

(* ===================================================================== *)
(** ** internal/logstore/partition.go *)
(* ===================================================================== *)

Record Partition : Type := mkPartition {
  id       : Z;
  dir      : string;
  segments : list Segment;
}.

Definition set_segments (v : list Segment) (p : Partition) : Partition :=
  mkPartition (id p) (dir p) v.

(** [filepath.Join(dataDir, topic, fmt.Sprintf("partition%d", id))]. *)
Definition partition_dir (dataDir topic : string) (id : Z) : string :=
  dataDir +:+ "/" +:+ topic +:+ "/partition" +:+ pretty id.

(** [func NewPartition(dataDir string, topic string, id int32)]. *)
Definition NewPartition (dataDir topic : string) (id : Z) : M World Partition :=
  let dir := partition_dir dataDir topic id in
  let* segments := LoadSegments dir in
  match segments with
  | [] =>
      (* Create first segment if none exist *)
      let* segment := NewSegment dir 0 in
      ret (mkPartition id dir [segment])
  | _ => ret (mkPartition id dir segments)
  end.

(** A method call on [p.segments[len(p.segments)-1]], a pointer: what the
    method does to the segment stays in the partition. *)
Definition on_active {A} (m : M (Segment * World) A) : M (Partition * World) A :=
  λ '(p, w),
    match last (segments p) with
    | None => (Panic, (p, w))                         (* index out of range *)
    | Some s =>
        let '(r, (s', w')) := m (s, w) in
        (r, (set_segments (removelast (segments p) ++ [s']) p, w'))
    end.

(** [func (p *Partition) Append(payload []byte) (int64, error)]. *)
Definition Partition_Append (payload : list byte) : M (Partition * World) Z :=
  let* p := getS in
  match last (segments p) with
  | None => panic                                     (* index out of range *)
  | Some activeSegment =>
      (* Roll segment if it's too large *)
      (if SegmentMaxBytes <=? size activeSegment then
         let newBaseOffset := nextOffset activeSegment in
         let* newSegment := sys (NewSegment (dir p) newBaseOffset) in
         modS (λ p, set_segments (segments p ++ [newSegment]) p)
       else ret tt) ;;
      let entry := mkLogEntry 0 payload in            (* LogEntry{Payload: payload} *)
      on_active (Segment_Append entry) ;;
      ret (Offset entry)
  end.

(** The loop of [Read] over the segments. *)
Fixpoint read_segments (offset : Z) (id : Z) (segs : list Segment) : M World LogEntry :=
  match segs with
  | [] => throw (ErrNotInPartition offset id)
  | segment :: rest =>
      if (baseOffset segment <=? offset) && (offset <? nextOffset segment) then
        λ w, let '(r, (_, w')) := Segment_Read offset (segment, w) in (r, w')
      else read_segments offset id rest
  end.

(** [func (p *Partition) Read(offset int64)]. *)
Definition Partition_Read (p : Partition) (offset : Z) : M World LogEntry :=
  read_segments offset (id p) (segments p).

(** [func (p *Partition) NextOffset() int64]. *)
Definition Partition_NextOffset (p : Partition) : Z :=
  match last (segments p) with
  | None => 0
  | Some s => nextOffset s
  end.

(** [func (p *Partition) Close() error]. *)
Definition Partition_Close (p : Partition) (w : World) : World :=
  foldl (λ w s, Segment_Close s w) w (segments p).

(* ===================================================================== *)
(** ** internal/topics/registry.go *)
(* ===================================================================== *)

Record Topic : Type := mkTopic {
  Name       : string;
  Partitions : list Partition;
}.

Record Registry : Type := mkRegistry {
  dataDir : string;
  topics  : gmap string Topic;
}.

Definition NewRegistry (dataDir : string) : Registry := mkRegistry dataDir ∅.

(** The loop of [CreateTopic]: [n] partitions are still to be created, the
    next one is number [i], and [created] are [topic.Partitions[0..i)]. *)
Fixpoint create_partitions (n : nat) (dataDir name : string) (i : Z)
    (created : list Partition) : M World (list Partition) :=
  match n with
  | O => ret created
  | S n' =>
      let* r := attempt (NewPartition dataDir name i) in
      match r with
      | inl e =>
          (* Clean up created partitions on error *)
          λ w, (Err e, foldl (λ w p, Partition_Close p w) w created)
      | inr partition =>
          create_partitions n' dataDir name (i + 1) (created ++ [partition])
      end
  end.

(** [func (r *Registry) CreateTopic(name string, numPartitions int32) error]. *)
Definition Registry_CreateTopic (name : string) (numPartitions : Z)
    : M (Registry * World) unit :=
  let* r := getS in
  match topics r !! name with
  | Some _ => throw (ErrTopicExists name)
  | None =>
      if numPartitions <? 0 then panic        (* make([]*Partition, numPartitions) *)
      else
        let* partitions :=
          sys (create_partitions (Z.to_nat numPartitions) (dataDir r) name 0 []) in
        modS (λ r, mkRegistry (dataDir r) (<[name := mkTopic name partitions]> (topics r)))
  end.

(** [func (r *Registry) GetTopic(name string)]. *)
Definition Registry_GetTopic (r : Registry) (name : string) : result Topic :=
  match topics r !! name with
  | Some topic => Ok topic
  | None => Err (ErrTopicNotFound name)
  end.

(** [func (r *Registry) GetPartition(topic string, partitionID int32)]. *)
Definition Registry_GetPartition (r : Registry) (topic : string) (partitionID : Z)
    : result Partition :=
  match Registry_GetTopic r topic with
  | Ok t =>
      if (partitionID <? 0) || (int32 (Z.of_nat (length (Partitions t))) <=? partitionID)
      then Err (ErrPartitionNotFound partitionID topic)
      else match Partitions t !! Z.to_nat partitionID with
           | Some p => Ok p
           | None => Panic
           end
  | Err e => Err e
  | Panic => Panic
  end.

(* ===================================================================== *)
(** ** Runs *)
(* ===================================================================== *)

(** Successive calls of [Partition.Append], all of which succeed: the
    offsets they return, and the partition and the world at the end. *)
Fixpoint append_all (payloads : list (list byte)) (p : Partition) (w : World)
    : option (list Z * Partition * World) :=
  match payloads with
  | [] => Some ([], p, w)
  | payload :: rest =>
      match Partition_Append payload (p, w) with
      | (Ok o, (p1, w1)) =>
          match append_all rest p1 w1 with
          | Some (os, p2, w2) => Some (o :: os, p2, w2)
          | None => None
          end
      | _ => None
      end
  end.

(** Successive calls of [Segment.Append], all of which succeed. *)
Fixpoint segment_append_all (entries : list LogEntry) (s : Segment) (w : World)
    : option (Segment * World) :=
  match entries with
  | [] => Some (s, w)
  | e :: rest =>
      match Segment_Append e (s, w) with
      | (Ok _, (s1, w1)) => segment_append_all rest s1 w1
      | _ => None
      end
  end.

(** A world with no file and no open descriptor, and the failures [fl] to
    come. *)
Definition empty_world (fl : list Fault) : World := mkWorld ∅ ∅ 0 fl.

(* ===================================================================== *)
(** ** Predicates of the statements and of the proofs *)
(* ===================================================================== *)

(** A step of a method that neither panics nor touches [nextOffset]. *)
Definition keeps_next {A} (m : M (Segment * World) A) : Prop :=
  ∀ s w r s' w', m (s, w) = (r, (s', w')) → r ≠ Panic ∧ nextOffset s' = nextOffset s.

(** A method that steps [nextOffset] when it succeeds and leaves it alone
    when it returns an error. *)
Definition steps_next (m : M (Segment * World) unit) : Prop :=
  ∀ s w r s' w', m (s, w) = (r, (s', w')) →
    (r = Ok tt ∧ nextOffset s' = int64 (nextOffset s + 1))
    ∨ ((∃ e, r = Err e) ∧ nextOffset s' = nextOffset s).

(** [w'] has the files and the open descriptors of [w] (the cursors and the
    failure schedule may differ). *)
Definition same_files (w w' : World) : Prop :=
  fs w' = fs w ∧ dom (fds w') = dom (fds w).

(** [w'] is [w] with [bs] appended to the file of [f]. *)
Definition extends (f : File) (bs : list byte) (w w' : World) : Prop :=
  fs w' = <[fname f := content w f ++ bs]> (fs w) ∧ dom (fds w') = dom (fds w).

(** The log file that holds the payloads [ps] at the offsets [base],
    [base + 1], ... *)
Fixpoint frames (base : Z) (ps : list (list byte)) : list byte :=
  match ps with
  | [] => []
  | p :: ps' => frame base p ++ frames (base + 1) ps'
  end.

(** The two files of a segment are the files of its base offset in the
    directory [d]. *)
Definition named (d : string) (s : Segment) : Prop :=
  fname (logFile s) = (d, baseOffset s, LogExt) ∧
  fname (indexFile s) = (d, baseOffset s, IndexExt).

(** The number of records in the first [i] segments, when [pss] lists the
    payloads that each segment holds. *)
Definition records_before (i : nat) (pss : list (list (list byte))) : Z :=
  Z.of_nat (length (concat (take i pss))).

(** The counters of the [i]-th segment [s], which holds the payloads [ps]. *)
Definition seg_at (d : string) (pss : list (list (list byte))) (i : nat)
    (s : Segment) (ps : list (list byte)) : Prop :=
  named d s ∧
  baseOffset s = records_before i pss ∧
  nextOffset s = baseOffset s + Z.of_nat (length ps) ∧
  (size s ≠ 0 → ps ≠ []) ∧
  ((S i < length pss)%nat → ps ≠ []).

(** The counters of a partition whose segments hold the payloads [pss], and
    the files of its directory: no file but those of its segments. *)
Definition part_counts (w : World) (p : Partition) (pss : list (list (list byte))) : Prop :=
  length (segments p) = length pss ∧
  pss ≠ [] ∧
  (∀ i s ps, segments p !! i = Some s → pss !! i = Some ps →
             seg_at (dir p) pss i s ps) ∧
  (∀ b e, (∀ s, s ∈ segments p → baseOffset s ≠ b) → fs w !! (dir p, b, e) = None).

(** The index of a segment with base offset [base] that holds the payloads
    [ps]: every entry is the relative offset and the position of a record,
    the relative offsets increase, and two entries are at least
    [IndexInterval] bytes apart. *)
Definition index_ok (base : Z) (ps : list (list byte)) (entries : list IndexEntry) : Prop :=
  (∀ e, e ∈ entries →
        ∃ k, (k < length ps)%nat ∧ RelativeOffset e = Z.of_nat k ∧
             Position e = len (frames base (take k ps))) ∧
  (∀ i j ei ej, entries !! i = Some ei → entries !! j = Some ej → (i < j)%nat →
                RelativeOffset ei < RelativeOffset ej) ∧
  (∀ e, last entries = Some e →
        (Z.of_nat (length entries) - 1) * IndexInterval ≤ Position e).

(** The segment [s] holds the payloads [ps]: its log file, its cached size,
    its index. Every record starts below [SegmentMaxBytes]. *)
Definition seg_full (w : World) (s : Segment) (ps : list (list byte)) : Prop :=
  fs w !! fname (logFile s) = Some (frames (baseOffset s) ps) ∧
  size s = len (frames (baseOffset s) ps) ∧
  fd (logFile s) ∈ dom (fds w) ∧
  index_ok (baseOffset s) ps (indexEntries s) ∧
  (∀ k, (k < length ps)%nat →
        len (frames (baseOffset s) (take k ps)) < SegmentMaxBytes).

Definition part_full (w : World) (p : Partition) (pss : list (list (list byte))) : Prop :=
  ∀ i s ps, segments p !! i = Some s → pss !! i = Some ps → seg_full w s ps.

(** A payload whose length fits the 32-bit length field of a record. *)
Definition small (payload : list byte) : Prop := len payload < 2 ^ 31.

(** The world [w] is about to read the file of [f], whose content is
    [data], at the cursor [c], and no failure is scheduled. *)
Definition reading (f : File) (data : list byte) (c : nat) (w : World) : Prop :=
  faults w = [] ∧ fs w !! fname f = Some data ∧ fds w !! fd f = Some c.

(** [ceil(a / b)] for a positive [b]. *)
Definition ceil_div (a b : Z) : Z := (a + b - 1) / b.

(* ===================================================================== *)
(** ** Concrete runs *)
(* ===================================================================== *)

Definition bytes (s : string) : list byte := String.list_byte_of_string s.

(** A partition created in an empty world in which the system calls fail as
    [fl] says, and then [payloads] appended to it. *)
Definition run_fresh (fl : list Fault) : result Partition * World :=
  NewPartition "data" "events" 0 (empty_world fl).

Definition fresh_p (fl : list Fault) : Partition :=
  match (run_fresh fl).1 with
  | Ok p => p
  | _ => mkPartition 0 "" []
  end.

Definition fresh_w (fl : list Fault) : World := (run_fresh fl).2.

Definition run_appends (payloads : list (list byte)) : list Z * Partition * World :=
  match append_all payloads (fresh_p []) (fresh_w []) with
  | Some r => r
  | None => ([], fresh_p [], fresh_w [])
  end.

Definition abc : list (list byte) := [bytes "a"; bytes "bc"; bytes ""].

(** The segment of a fresh partition, in a world without failures. *)
Definition fresh_seg : Segment :=
  default (mkSegment 0 (mkFile 0 ("", 0, LogExt)) (mkFile 0 ("", 0, IndexExt)) 0 0 [])
          (head (segments (fresh_p []))).

(** The segment of the partition of [run_appends abc]. *)
Definition abc_seg : Segment :=
  default fresh_seg (head (segments (run_appends abc).1.2)).

(** The segment of a fresh partition, in a world in which the second write
    of the next append fails after two bytes. *)
Definition failing_schedule : list Fault :=
  replicate 8 NoFault ++ [FailAfter 2].

Definition failing_seg : Segment :=
  default (mkSegment 0 (mkFile 0 ("", 0, LogExt)) (mkFile 0 ("", 0, IndexExt)) 0 0 [])
          (head (segments (fresh_p failing_schedule))).

Definition failing_w : World := fresh_w failing_schedule.

(** A step of a method of [Segment] that opens and closes no descriptor and
    leaves the two files of the segment in place. *)
Definition keeps_files {A} (m : M (Segment * World) A) : Prop :=
  ∀ s w r s' w', m (s, w) = (r, (s', w')) →
    dom (fds w') = dom (fds w) ∧ logFile s' = logFile s ∧ indexFile s' = indexFile s.

(** The descriptors of a segment, of a list of segments, of a list of
    partitions. *)
Definition segment_fds (s : Segment) : gset nat :=
  {[fd (logFile s); fd (indexFile s)]}.

Definition segments_fds (segs : list Segment) : gset nat :=
  ⋃ (segment_fds <$> segs).

Definition partitions_fds (ps : list Partition) : gset nat :=
  ⋃ ((λ p, segments_fds (segments p)) <$> ps).

(** A registry with the topic ["t"] of one partition, in a world without
    failures. *)
Definition registry_t : Registry * World :=
  (Registry_CreateTopic "t" 1 (NewRegistry "data", empty_world [])).2.

Definition topic_t : Topic :=
  default (mkTopic "" []) (topics registry_t.1 !! "t").

(** A world in which the directory listing of the second partition to be
    opened fails. *)
Definition second_partition_fails : World :=
  empty_world (replicate 7 NoFault ++ [FailAfter 0]).

(** The partition of [run_appends abc], closed, with [tail] added at the end
    of its log file, and opened again. *)
Definition abc_log : FileName := ("data/events/partition0", 0, LogExt).

Definition reopen_with_tail (tail : list byte) : result Partition * World :=
  let '(_, p, w) := run_appends abc in
  let w1 := Partition_Close p w in
  let w2 := set_fs (λ m, <[abc_log := default [] (m !! abc_log) ++ tail]> m) w1 in
  NewPartition "data" "events" 0 w2.

(** What [Partition.NextOffset] is after [reopen_with_tail], when the
    partition opens. *)
Definition reopened_next (tail : list byte) : option Z :=
  match (reopen_with_tail tail).1 with
  | Ok p => Some (Partition_NextOffset p)
  | _ => None
  end.

Definition reopened_log_size (tail : list byte) : Z :=
  len (default [] (fs (reopen_with_tail tail).2 !! abc_log)).

(** A pass of a loop over the file [file s] that, when it asks for another
    pass, has moved the cursor forward within the file and has left the file
    as it was; and that never reports [ErrFuel] itself. *)
Definition advances {L A} (file : Segment → File) (body : L → M (Segment * World) (L + A))
    : Prop :=
  ∀ l s w r s' w', body l (s, w) = (r, (s', w')) →
    r ≠ Err ErrFuel ∧
    (∀ l', r = Ok (inl l') →
       file s' = file s ∧ content w' (file s) = content w (file s) ∧
       (cursor w (file s) < cursor w' (file s))%nat ∧
       (cursor w (file s) < length (content w (file s)))%nat).

(** [func (r *Registry) Close() error]. Go visits the topics of the map in
    an order that is not fixed; closing a descriptor commutes with closing
    another one, so the order does not show in the result. *)
Definition close_topics (ts : list Topic) (w : World) : World :=
  foldl (λ w t, foldl (λ w p, Partition_Close p w) w (Partitions t)) w ts.

Definition Registry_Close (r : Registry) (w : World) : World :=
  close_topics (map_to_list (topics r)).*2 w.

(** The descriptors of the partitions of the topics of a registry. *)
Definition registry_fds (r : Registry) : gset nat :=
  ⋃ ((λ t, partitions_fds (Partitions t)) <$> (map_to_list (topics r)).*2).

(* ===================================================================== *)
(** ** internal/producers/producer.go *)
(* ===================================================================== *)

(** The registry holds pointers to its topics and the topics to their
    partitions: what a method does to the partition that [GetPartition]
    returned is seen by every later [GetPartition]. *)
Definition set_partition (topic : string) (partitionID : Z) (p : Partition)
    (r : Registry) : Registry :=
  mkRegistry (dataDir r)
    (alter (λ t, mkTopic (Name t) (<[Z.to_nat partitionID := p]> (Partitions t)))
           topic (topics r)).

(** [func (p *Producer) Produce(topic string, partition int32, payload []byte)
     (int32, int64, error)]; the producer holds the registry. *)
Definition Producer_Produce (topic : string) (partition : Z) (payload : list byte)
    : M (Registry * World) (Z * Z) :=
  λ '(r, w),
    match Registry_GetPartition r topic partition with
    | Ok part =>
        let '(res, (part', w')) := Partition_Append payload (part, w) in
        (match res with
         | Ok offset => Ok (partition, offset)
         | Err e => Err e
         | Panic => Panic
         end, (set_partition topic partition part' r, w'))
    | Err e => (Err e, (r, w))
    | Panic => (Panic, (r, w))
    end.

(* ===================================================================== *)
(** ** internal/consumers/consumer.go *)
(* ===================================================================== *)

(** [string(rune(r))]: the UTF-8 encoding of the code point [r], and of
    U+FFFD when [r] is not a valid code point (negative, above U+10FFFF or a
    surrogate). *)
Definition encoderune (r : Z) : list Z :=
  if (0 <=? r) && (r <=? 0x7F) then [r]
  else if (0 <=? r) && (r <=? 0x7FF) then
    [Z.lor 0xC0 (Z.shiftr r 6); Z.lor 0x80 (Z.land r 0x3F)]
  else if (r <? 0) || (0x10FFFF <? r) || ((0xD800 <=? r) && (r <=? 0xDFFF)) then
    [0xEF; 0xBF; 0xBD]
  else if r <=? 0xFFFF then
    [Z.lor 0xE0 (Z.shiftr r 12); Z.lor 0x80 (Z.land (Z.shiftr r 6) 0x3F);
     Z.lor 0x80 (Z.land r 0x3F)]
  else
    [Z.lor 0xF0 (Z.shiftr r 18); Z.lor 0x80 (Z.land (Z.shiftr r 12) 0x3F);
     Z.lor 0x80 (Z.land (Z.shiftr r 6) 0x3F); Z.lor 0x80 (Z.land r 0x3F)].

Definition string_of_rune (r : Z) : string :=
  String.string_of_list_byte (byte_of_Z <$> encoderune r).

(** [func (c *Consumer) offsetKey(topic string, partition int32) string]. *)
Definition offsetKey (topic : string) (partition : Z) : string :=
  topic +:+ ":" +:+ string_of_rune partition.

(** [func (c *Consumer) Consume(topic string, partition int32, offset int64)];
    the state of the consumer is its map [offsets], and [r] is the registry
    that it holds. *)
Definition Consumer_Consume (r : Registry) (topic : string) (partition offset : Z)
    : M (gmap string Z * World) LogEntry :=
  λ '(offsets, w),
    match Registry_GetPartition r topic partition with
    | Ok part =>
        match Partition_Read part offset w with
        | (Ok entry, w') =>
            (* Update consumer offset *)
            (Ok entry, (<[offsetKey topic partition := int64 (offset + 1)]> offsets, w'))
        | (Err e, w') => (Err e, (offsets, w'))
        | (Panic, w') => (Panic, (offsets, w'))
        end
    | Err e => (Err e, (offsets, w))
    | Panic => (Panic, (offsets, w))
    end.

(** [func (c *Consumer) GetOffset(topic string, partition int32) int64]. *)
Definition Consumer_GetOffset (offsets : gmap string Z) (topic : string) (partition : Z) : Z :=
  default 0 (offsets !! offsetKey topic partition).

(** A valid code point of Unicode. *)
Definition valid_rune (r : Z) : Prop :=
  0 ≤ r ≤ 0x10FFFF ∧ ¬ (0xD800 ≤ r ≤ 0xDFFF).

(* ===================================================================== *)
(** ** Predicates of the further properties *)
(* ===================================================================== *)

(** A step of a method of [Segment] that leaves the segment, the files and
    the set of open descriptors as they were (it may move cursors and use up
    the failure schedule). *)
Definition read_only {A} (m : M (Segment * World) A) : Prop :=
  ∀ s w r s' w', m (s, w) = (r, (s', w')) → s' = s ∧ same_files w w'.

(** The world [w] with the descriptors of [X] closed. *)
Definition without (X : gset nat) (w : World) : World :=
  set_fds (filter (λ kv, kv.1 ∉ X)) w.

(** A step of a method of [Segment] that leaves the field [f] alone. *)
Definition preserves {A B} (f : Segment → B) (m : M (Segment * World) A) : Prop :=
  ∀ s w r s' w', m (s, w) = (r, (s', w')) → f s' = f s.

(** The index file that holds [entries]: for each one, the relative offset
    and the position as 32-bit big-endian integers. *)
Definition encode_index (entries : list IndexEntry) : list byte :=
  concat ((λ e, be_bytes 4 (RelativeOffset e) ++ be_bytes 4 (Position e)) <$> entries).

(** An index entry whose two fields are 32-bit integers. *)
Definition entry32 (e : IndexEntry) : Prop :=
  - 2 ^ 31 ≤ RelativeOffset e < 2 ^ 31 ∧ - 2 ^ 31 ≤ Position e < 2 ^ 31.

(** A record with the checksum field [crc], which may be wrong. *)
Definition raw_frame (offset crc : Z) (payload : list byte) : list byte :=
  be_bytes 8 offset ++ be_bytes 4 (int32 (len payload)) ++ be_bytes 4 crc ++ payload.

(** The index file of the segment [s] holds its index entries. *)
Definition seg_index (w : World) (s : Segment) : Prop :=
  fs w !! fname (indexFile s) = Some (encode_index (indexEntries s)).

Definition part_index (w : World) (p : Partition) : Prop :=
  ∀ s, s ∈ segments p → seg_index w s.

(** [s'] is the segment [s] opened again: the same fields and the same
    files, under other descriptors. *)
Definition same_segment (s s' : Segment) : Prop :=
  baseOffset s' = baseOffset s ∧ size s' = size s ∧ nextOffset s' = nextOffset s ∧
  indexEntries s' = indexEntries s ∧
  fname (logFile s') = fname (logFile s) ∧ fname (indexFile s') = fname (indexFile s).

(** The files of the segment [s] in the directory [d] hold the records of
    [ps] and the index of [s], and the counters of [s] agree with them. *)
Definition on_disk (d : string) (w : World) (s : Segment) (ps : list (list byte)) : Prop :=
  named d s ∧
  fs w !! (d, baseOffset s, LogExt) = Some (frames (baseOffset s) ps) ∧
  fs w !! (d, baseOffset s, IndexExt) = Some (encode_index (indexEntries s)) ∧
  size s = len (frames (baseOffset s) ps) ∧
  nextOffset s = baseOffset s + Z.of_nat (length ps) ∧
  - 2 ^ 63 ≤ baseOffset s ∧ baseOffset s + Z.of_nat (length ps) < 2 ^ 63 ∧
  Forall small ps ∧ Forall entry32 (indexEntries s).

(** Successive calls of [Producer.Produce] on one topic, all of which
    succeed: what they return, and the registry and the world at the end. *)
Fixpoint produce_all (topic : string) (msgs : list (Z * list byte)) (r : Registry)
    (w : World) : option (list (Z * Z) * Registry * World) :=
  match msgs with
  | [] => Some ([], r, w)
  | (partition, payload) :: rest =>
      match Producer_Produce topic partition payload (r, w) with
      | (Ok res, (r1, w1)) =>
          match produce_all topic rest r1 w1 with
          | Some (rs, r2, w2) => Some (res :: rs, r2, w2)
          | None => None
          end
      | _ => None
      end
  end.

(** The payloads of the messages sent to a partition, in order. *)
Definition sent_to (partition : Z) (msgs : list (Z * list byte)) : list (list byte) :=
  (filter (λ m : Z * list byte, m.1 = partition) msgs).*2.

(** The partitions [ps] of a topic hold the messages [msgs]: the partition
    of index [i] has the identifier [i], its own directory, and counters and
    files in step with the payloads sent to it. *)
Definition topic_inv (dataDir name : string) (w : World) (ps : list Partition)
    (msgs : list (Z * list byte)) : Prop :=
  ∀ i p, ps !! i = Some p →
    id p = Z.of_nat i ∧ dir p = partition_dir dataDir name (Z.of_nat i) ∧
    ∃ pss, part_counts w p pss ∧ part_full w p pss ∧
           concat pss = sent_to (Z.of_nat i) msgs.

(* ===================================================================== *)
(** ** Further concrete runs *)
(* ===================================================================== *)

(** The world after a restart of the process: the files are there, no
    descriptor is open, and no failure is scheduled. *)
Definition restarted (w : World) : World := mkWorld (fs w) ∅ 0 [].

(** The world of [run_appends abc] restarted, with [tail] added at the end
    of the log file. *)
Definition world_with_tail (tail : list byte) : World :=
  set_fs (λ m, <[abc_log := default [] (m !! abc_log) ++ tail]> m)
         (restarted (run_appends abc).2).

(** The segments that [LoadSegments] finds after [run_appends abc]. *)
Definition abc_loaded : list Segment :=
  match (LoadSegments "data/events/partition0" (restarted (run_appends abc).2)).1 with
  | Ok segs => segs
  | _ => []
  end.

(** A topic ["t"] of two partitions in a world without failures, and three
    messages produced to it. *)
Definition demo_msgs : list (Z * list byte) :=
  [(0, bytes "a"); (1, bytes "b"); (0, bytes "c")].

Definition demo_topic : Registry * World :=
  (Registry_CreateTopic "t" 2 (NewRegistry "data", empty_world [])).2.

Definition demo_run : list (Z * Z) * Registry * World :=
  default ([], demo_topic.1, demo_topic.2)
          (produce_all "t" demo_msgs demo_topic.1 demo_topic.2).

(** The partition of [run_appends abc], opened again after a restart. *)
Definition reopened_abc : result Partition * World :=
  NewPartition "data" "events" 0 (restarted (run_appends abc).2).

Definition reopened_p : Partition :=
  match reopened_abc.1 with
  | Ok p => p
  | _ => fresh_p []
  end.
(* ===================================================================== *)
(** ** internal/grpc/handler.go: the streaming [Consume] *)
(* ===================================================================== *)

(** [pb.ConsumeResponse]: a record, or the message of an error. *)
Record ConsumeResponse : Type := mkConsumeResponse {
  resp_Offset  : Z;
  resp_Payload : list byte;
  resp_Error   : option error;
}.

(** The stream of a call: the responses sent so far, and what the
    environment will do: whether the context is done at the next checks
    (an exhausted schedule says it is not), and whether the next sends fail
    (an exhausted schedule says they do not). *)
Record Stream : Type := mkStream {
  sent      : list ConsumeResponse;
  ctx_done  : list bool;
  send_fail : list bool;
}.

(** How a call of the handler ends: it returns [nil], the error of the
    context, or the error of a failed send; it panics; or it is still
    looping when the bound of the model is reached. *)
Inductive StreamEnd : Type := Returned | CtxErr | SendErr | Panicked | Looping.

(** [select { case <-stream.Context().Done(): ... default: ... }]. *)
Definition stream_done (st : Stream) : bool * Stream :=
  (hd false (ctx_done st), mkStream (sent st) (tl (ctx_done st)) (send_fail st)).

(** [stream.Send(resp)]. *)
Definition stream_Send (resp : ConsumeResponse) (st : Stream) : bool * Stream :=
  if hd false (send_fail st)
  then (false, mkStream (sent st) (ctx_done st) (tl (send_fail st)))
  else (true, mkStream (sent st ++ [resp]) (ctx_done st) (tl (send_fail st))).

(** [err.Error() == io.EOF.Error()]. *)
Definition is_EOF (e : error) : bool :=
  match e with
  | EOF => true
  | _ => false
  end.

(** [func (h *Handler) Consume(req *pb.ConsumeRequest,
     stream pb.Broker_ConsumeServer) error], with [currentOffset] as the
    variable of the loop; [r] is the registry of the handler, and the state
    is that of its consumer, the world and the stream. The loop of the Go
    code has no bound: [fuel] bounds the passes of the model. *)
Fixpoint Handler_Consume (fuel : nat) (r : Registry) (topic : string)
    (partition currentOffset : Z) (offsets : gmap string Z) (w : World) (st : Stream)
    : StreamEnd * (gmap string Z * World * Stream) :=
  match fuel with
  | O => (Looping, (offsets, w, st))
  | S fuel' =>
      let '(done, st1) := stream_done st in
      if done then (CtxErr, (offsets, w, st1))
      else
        match Consumer_Consume r topic partition currentOffset (offsets, w) with
        | (Err e, (offsets1, w1)) =>
            (* If no more messages, wait and retry *)
            if is_EOF e
            then Handler_Consume fuel' r topic partition currentOffset offsets1 w1 st1
            else
              let '(ok, st2) := stream_Send (mkConsumeResponse 0 [] (Some e)) st1 in
              (if ok then Returned else SendErr, (offsets1, w1, st2))
        | (Ok entry, (offsets1, w1)) =>
            let '(ok, st2) :=
              stream_Send (mkConsumeResponse (Offset entry) (Payload entry) None) st1 in
            if ok
            then Handler_Consume fuel' r topic partition (int64 (Offset entry + 1))
                                 offsets1 w1 st2
            else (SendErr, (offsets1, w1, st2))
        | (Panic, (offsets1, w1)) => (Panicked, (offsets1, w1, st1))
        end
  end.

(** The responses for the records [o], [o + 1], ... with the payloads [ps]. *)
Fixpoint record_responses (o : Z) (ps : list (list byte)) : list ConsumeResponse :=
  match ps with
  | [] => []
  | p :: ps' => mkConsumeResponse o p None :: record_responses (o + 1) ps'
  end.

(** A step of a method of [Segment] that schedules no failure: when none is
    to come before the step, none is to come after it. *)
Definition quiet {A} (m : M (Segment * World) A) : Prop :=
  ∀ s w r s' w', m (s, w) = (r, (s', w')) → faults w = [] → faults w' = [].


(** ** Runs with a failed append, and with a recovery that truncates *)

(** A payload of [n] zero bytes. *)
Definition big (n : Z) : list byte := replicate (Z.to_nat n) x00.

(** A fresh partition on which ["a"] is appended, then an append of 18
    bytes fails at the write of its payload (the header is on disk), then
    ["b"] is appended. *)
Definition interrupted_schedule : list Fault := replicate 16 NoFault ++ [FailAfter 0].

Definition interrupted_steps : list (result Z * (Partition * World)) :=
  let s0 := (fresh_p interrupted_schedule, fresh_w interrupted_schedule) in
  let r1 := Partition_Append (bytes "a") s0 in
  let r2 := Partition_Append (big 18) r1.2 in
  let r3 := Partition_Append (bytes "b") r2.2 in
  [r1; r2; r3].

Definition interrupted : Partition * World :=
  (default (Panic, (fresh_p [], fresh_w [])) (last interrupted_steps)).2.

(** A fresh partition with three records of 4096 bytes, each of which got
    an index entry. *)
Definition three_big : list Z * Partition * World :=
  run_appends [big 4096; big 4096; big 4096].

(** Its files after a restart, with the first byte of the payload of the
    first record changed on disk. *)
Definition flipped_world : World :=
  set_fs (λ m, <[abc_log := <[16%nat := x01]> (default [] (m !! abc_log))]> m)
         (restarted three_big.2).

(** The partition opened again on these files: the recovery cuts the log at
    the record whose checksum is wrong. *)
Definition recovered : result Partition * World :=
  NewPartition "data" "events" 0 flipped_world.

Definition recovered_p : Partition :=
  match recovered.1 with
  | Ok p => p
  | _ => fresh_p []
  end.

Definition after_recovery (payloads : list (list byte)) : list Z * Partition * World :=
  default ([], recovered_p, recovered.2) (append_all payloads recovered_p recovered.2).

Definition first_seg (p : Partition) : Segment := default fresh_seg (head (segments p)).

(** The partition of [run_appends abc], opened again, and ["d"] appended. *)
Definition reopened_d : list Z * Partition * World :=
  default ([], reopened_p, reopened_abc.2) (append_all [bytes "d"] reopened_p reopened_abc.2).

(* ===================================================================== *)
(** * Proofs *)
(* ===================================================================== *)

(** ** Integers and bytes *)

Lemma wrap_small bits z :
  0 < bits → - 2 ^ (bits - 1) ≤ z < 2 ^ (bits - 1) → wrap bits z = z.
Proof.
  intros Hb Hz. unfold wrap.
  assert (Hp : 2 ^ bits = 2 * 2 ^ (bits - 1)).
  { replace bits with (Z.succ (bits - 1)) at 1 by lia. rewrite Z.pow_succ_r; lia. }
  rewrite Z.mod_small; lia.
Qed.

Lemma int64_small z : - 2 ^ 63 ≤ z < 2 ^ 63 → int64 z = z.
Proof. intros. unfold int64. apply wrap_small; [lia | by simpl]. Qed.

Lemma int32_small z : - 2 ^ 31 ≤ z < 2 ^ 31 → int32 z = z.
Proof. intros. unfold int32. apply wrap_small; [lia | by simpl]. Qed.

Lemma wrap_mod bits z : 0 < bits → wrap bits (z mod 2 ^ bits) = wrap bits z.
Proof.
  intros Hb. unfold wrap. f_equal.
  rewrite Zplus_mod_idemp_l. reflexivity.
Qed.

Lemma Z_of_byte_range b : 0 ≤ Z_of_byte b < 256.
Proof.
  unfold Z_of_byte. pose proof (Byte.to_N_bounded b). lia.
Qed.

Lemma Z_of_byte_of_Z z : Z_of_byte (byte_of_Z z) = z mod 256.
Proof.
  unfold Z_of_byte, byte_of_Z.
  assert (Hr : 0 ≤ z mod 256 < 256) by (apply Z.mod_pos_bound; lia).
  destruct (Byte.of_N (Z.to_N (z mod 256))) as [b|] eqn:E.
  - apply Byte.to_of_N in E. simpl. rewrite E. lia.
  - apply Byte.of_N_None_iff in E. lia.
Qed.

Lemma length_be_bytes n z : length (be_bytes n z) = n.
Proof. induction n; simpl; congruence. Qed.

Lemma be_uint_app_acc bs acc :
  fold_left (λ a b, a * 256 + Z_of_byte b) bs acc
  = acc * 256 ^ Z.of_nat (length bs) + be_uint bs.
Proof.
  unfold be_uint. revert acc. induction bs as [|b bs IH]; intros acc.
  - simpl. lia.
  - cbn [fold_left length]. rewrite IH, (IH (0 * 256 + Z_of_byte b)).
    rewrite Nat2Z.inj_succ, Z.pow_succ_r by lia. lia.
Qed.

Lemma be_uint_be_bytes n z : be_uint (be_bytes n z) = z mod 256 ^ Z.of_nat n.
Proof.
  induction n as [|n IH].
  - simpl. by rewrite Z.mod_1_r.
  - unfold be_uint. cbn [be_bytes fold_left].
    rewrite be_uint_app_acc, length_be_bytes, IH, Z_of_byte_of_Z.
    rewrite Nat2Z.inj_succ, Z.pow_succ_r by lia.
    rewrite (Z.mul_comm 256), Z.rem_mul_r by lia. lia.
Qed.

Lemma be_int64_be_bytes z : - 2 ^ 63 ≤ z < 2 ^ 63 → be_int64 (be_bytes 8 z) = z.
Proof.
  intros Hz. unfold be_int64. rewrite be_uint_be_bytes.
  change (256 ^ Z.of_nat 8) with (2 ^ 64). unfold int64.
  rewrite wrap_mod by lia. by apply int64_small.
Qed.

Lemma be_int32_be_bytes z : - 2 ^ 31 ≤ z < 2 ^ 31 → be_int32 (be_bytes 4 z) = z.
Proof.
  intros Hz. unfold be_int32. rewrite be_uint_be_bytes.
  change (256 ^ Z.of_nat 4) with (2 ^ 32). unfold int32.
  rewrite wrap_mod by lia. by apply int32_small.
Qed.

Lemma be_uint32_be_bytes z : 0 ≤ z < 2 ^ 32 → be_uint (be_bytes 4 z) = z.
Proof.
  intros Hz. rewrite be_uint_be_bytes.
  change (256 ^ Z.of_nat 4) with (2 ^ 32). by apply Z.mod_small.
Qed.

(** ** The checksum is a 32-bit value *)

Lemma lxor_bound n a b :
  0 ≤ n → 0 ≤ a < 2 ^ n → 0 ≤ b < 2 ^ n → 0 ≤ Z.lxor a b < 2 ^ n.
Proof.
  intros Hn Ha Hb.
  assert (H0 : 0 ≤ Z.lxor a b) by (apply Z.lxor_nonneg; lia).
  split; [done|].
  destruct (decide (Z.lxor a b = 0)) as [->|Hne]; [lia|].
  apply Z.log2_lt_pow2; [lia|].
  pose proof (Z.log2_lxor a b ltac:(lia) ltac:(lia)) as Hl.
  assert (0 < n).
  { destruct (decide (n = 0)) as [->|]; [|lia].
    assert (a = 0) as -> by lia. assert (b = 0) as -> by lia. done. }
  assert (Z.log2 a < n).
  { destruct (decide (a = 0)) as [->|]; [simpl; lia|]. apply Z.log2_lt_pow2; lia. }
  assert (Z.log2 b < n).
  { destruct (decide (b = 0)) as [->|]; [simpl; lia|]. apply Z.log2_lt_pow2; lia. }
  lia.
Qed.

Lemma crc_bit_range c : 0 ≤ c < 2 ^ 32 → 0 ≤ crc_bit c < 2 ^ 32.
Proof.
  intros Hc. unfold crc_bit.
  assert (Hs : 0 ≤ Z.shiftr c 1 < 2 ^ 32).
  { rewrite Z.shiftr_div_pow2 by lia. change (2 ^ 1) with 2.
    split; [apply Z.div_pos; lia|]. apply Z.div_lt_upper_bound; lia. }
  destruct (Z.testbit c 0); [|done].
  apply lxor_bound; [lia | done | by simpl].
Qed.

Lemma crc_byte_range c b : 0 ≤ c < 2 ^ 32 → 0 ≤ crc_byte c b < 2 ^ 32.
Proof.
  intros Hc. unfold crc_byte.
  assert (Hx : 0 ≤ Z.lxor c (Z_of_byte b) < 2 ^ 32).
  { apply lxor_bound; [lia | done |]. pose proof (Z_of_byte_range b). lia. }
  generalize dependent (Z.lxor c (Z_of_byte b)). intros x Hx.
  do 8 (apply crc_bit_range in Hx). exact Hx.
Qed.

Lemma ChecksumIEEE_range p : 0 ≤ ChecksumIEEE p < 2 ^ 32.
Proof.
  unfold ChecksumIEEE.
  assert (H : ∀ c, 0 ≤ c < 2 ^ 32 → 0 ≤ fold_left crc_byte p c < 2 ^ 32).
  { induction p as [|b p IH]; intros c Hc; simpl; [done|].
    apply IH. by apply crc_byte_range. }
  apply lxor_bound; [lia | apply H; by simpl | by simpl].
Qed.

(** ** The monad *)

Lemma bind_inv {St A B} (m : M St A) (k : A → M St B) s r s' :
  bind m k s = (r, s') →
  (∃ a s1, m s = (Ok a, s1) ∧ k a s1 = (r, s'))
  ∨ (∃ e, m s = (Err e, s') ∧ r = Err e)
  ∨ (m s = (Panic, s') ∧ r = Panic).
Proof.
  unfold bind. destruct (m s) as [[a|e|] s1]; intros H.
  - left. eauto.
  - right. left. exists e. by inversion H.
  - right. right. by inversion H.
Qed.

Lemma bind_Ok {St A B} (m : M St A) (k : A → M St B) s b s' :
  bind m k s = (Ok b, s') → ∃ a s1, m s = (Ok a, s1) ∧ k a s1 = (Ok b, s').
Proof.
  intros H. apply bind_inv in H as [H|[(e & _ & ?)|[_ ?]]]; [done|done|done].
Qed.

Lemma bind_eq {St A B} (m : M St A) (k : A → M St B) s a s1 :
  m s = (Ok a, s1) → bind m k s = k a s1.
Proof. unfold bind. by intros ->. Qed.

Lemma attempt_inv {St A} (m : M St A) s r s' :
  attempt m s = (Ok r, s') →
  match r with inl e => m s = (Err e, s') | inr a => m s = (Ok a, s') end.
Proof.
  unfold attempt. destruct (m s) as [[a|e|] s1]; intros H; by inversion H.
Qed.

Lemma sys_inv {S A} (m : M World A) (s : S) w r s' w' :
  sys m (s, w) = (r, (s', w')) → s' = s ∧ m w = (r, w').
Proof. unfold sys. destruct (m w) as [r1 w1]. intros H. by inversion H. Qed.

Lemma sysv_inv {S A} (f : World → A * World) (s : S) w r s' w' :
  sysv f (s, w) = (r, (s', w')) → s' = s ∧ r = Ok (f w).1 ∧ w' = (f w).2.
Proof. unfold sysv. destruct (f w) as [a w1]. intros H. by inversion H. Qed.

Lemma sys__inv {S} (f : World → World) (s : S) w r s' w' :
  sys_ f (s, w) = (r, (s', w')) → s' = s ∧ r = Ok tt ∧ w' = f w.
Proof. unfold sys_. intros H. by inversion H. Qed.

Lemma modS_inv {S} (f : S → S) (s : S) w r s' w' :
  modS f (s, w) = (r, (s', w')) → s' = f s ∧ r = Ok tt ∧ w' = w.
Proof. unfold modS. intros H. by inversion H. Qed.

(** ** The system calls *)

Lemma File_Write_inv f bs w r w' :
  File_Write f bs w = (r, w') →
  (r = Err ErrClosed ∧ w' = w ∧ fds w !! fd f = None)
  ∨ (is_Some (fds w !! fd f) ∧
     ∃ written,
       (r = Ok tt ∧ written = bs ∨ r = Err ErrIO ∧ ∃ k, written = take k bs) ∧
       w' = mkWorld (<[fname f := content w f ++ written]> (fs w))
                    (<[fd f := length (content w f ++ written)]> (fds w))
                    (nextFd w) (tl (faults w))).
Proof.
  unfold File_Write, next_fault. destruct (fds w !! fd f) as [c|] eqn:E.
  - intros H. right. split; [by eexists|].
    destruct (hd NoFault (faults w)) as [|k]; inversion H; subst; eexists; split; eauto.
  - intros H. left. by inversion H.
Qed.

Lemma File_Write_Ok f bs w u w' :
  File_Write f bs w = (Ok u, w') →
  is_Some (fds w !! fd f) ∧
  w' = mkWorld (<[fname f := content w f ++ bs]> (fs w))
               (<[fd f := length (content w f ++ bs)]> (fds w))
               (nextFd w) (tl (faults w)).
Proof.
  destruct u. intros H.
  apply File_Write_inv in H as [(? & _)|(Ho & wr & [[_ ->]|[? _]] & ->)]; done.
Qed.

(** ** [Segment.Append]: the offset counter *)

Lemma keeps_next_bind {A B} (m : M (Segment * World) A) (k : A → M (Segment * World) B) :
  keeps_next m → (∀ a, keeps_next (k a)) → keeps_next (bind m k).
Proof.
  intros Hm Hk s w r s' w' H.
  apply bind_inv in H as [(a & [s1 w1] & H1 & H2)|[(e & H1 & ->)|[H1 ->]]].
  - apply Hm in H1 as [_ E1]. apply Hk in H2 as [? E2]. split; [done|congruence].
  - apply Hm in H1 as [_ E1]. done.
  - by apply Hm in H1 as [? _].
Qed.

Lemma steps_next_bind {A} (m : M (Segment * World) A) (k : A → M (Segment * World) unit) :
  keeps_next m → (∀ a, steps_next (k a)) → steps_next (bind m k).
Proof.
  intros Hm Hk s w r s' w' H.
  apply bind_inv in H as [(a & [s1 w1] & H1 & H2)|[(e & H1 & ->)|[H1 ->]]].
  - apply Hm in H1 as [_ E1]. apply Hk in H2. by rewrite E1 in H2.
  - apply Hm in H1 as [_ E1]. right. split; [by eexists|done].
  - by apply Hm in H1 as [? _].
Qed.

Lemma keeps_next_getS : keeps_next getS.
Proof. intros s w r s' w' H. by inversion H. Qed.

Lemma keeps_next_ret {A} (a : A) : keeps_next (ret a).
Proof. intros s w r s' w' H. by inversion H. Qed.

Lemma keeps_next_sysv {A} (f : World → A * World) : keeps_next (sysv f).
Proof. intros s w r s' w' H. by apply sysv_inv in H as (-> & -> & _). Qed.

Lemma keeps_next_write f bs : keeps_next (sys (File_Write f bs)).
Proof.
  intros s w r s' w' H. apply sys_inv in H as (-> & H). split; [|done].
  apply File_Write_inv in H as [(-> & _)|(_ & ? & [[-> _]|[-> _]] & _)]; done.
Qed.

Lemma keeps_next_modS f :
  (∀ s, nextOffset (f s) = nextOffset s) → keeps_next (modS f).
Proof. intros Hf s w r s' w' H. apply modS_inv in H as (-> & -> & _). eauto. Qed.

Lemma Segment_Append_steps entry : steps_next (Segment_Append entry).
Proof.
  unfold Segment_Append.
  apply steps_next_bind; [apply keeps_next_getS|intros s0].
  apply steps_next_bind; [apply keeps_next_sysv|intros position].
  do 4 (apply steps_next_bind; [apply keeps_next_write|intros _]).
  apply steps_next_bind; [by apply keeps_next_modS|intros _].
  apply steps_next_bind.
  { destruct (index_due s0 position); [|apply keeps_next_ret].
    do 2 (apply keeps_next_bind; [apply keeps_next_write|intros _]).
    by apply keeps_next_modS. }
  intros _ s w r s' w' H. apply modS_inv in H as (-> & -> & _). by left.
Qed.

(** ** Stepping through a successful run *)

Lemma getS_inv {S} (s : S) (w : World) a s' w' :
  getS (s, w) = (Ok a, (s', w')) → a = s ∧ s' = s ∧ w' = w.
Proof. intros H. by inversion H. Qed.

Lemma getW_inv {S} (s : S) (w : World) a s' w' :
  getW (s, w) = (Ok a, (s', w')) → a = w ∧ s' = s ∧ w' = w.
Proof. intros H. by inversion H. Qed.

Lemma ret_inv {St A} (x : A) (st : St) a st' :
  ret x st = (Ok a, st') → a = x ∧ st' = st.
Proof. intros H. by inversion H. Qed.

Ltac inv_prim H :=
  lazymatch type of H with
  | getS _ = _ => apply getS_inv in H as (-> & -> & ->)
  | getW _ = _ => apply getW_inv in H as (-> & -> & ->)
  | ret _ _ = _ => apply ret_inv in H as (-> & [= -> ->])
  | sys _ _ = _ => apply sys_inv in H as [-> H]
  | sysv _ _ = _ => apply sysv_inv in H as (-> & [= ->] & ->)
  | sys_ _ _ = _ => apply sys__inv in H as (-> & _ & ->)
  | modS _ _ = _ => apply modS_inv in H as (-> & _ & ->)
  | _ => idtac
  end.

Ltac mstep H :=
  let a := fresh "a" in
  let s1 := fresh "s" in
  let w1 := fresh "w" in
  let Hm := fresh "Hm" in
  apply bind_Ok in H as (a & [s1 w1] & Hm & H); inv_prim Hm.

Ltac wstep H :=
  let a := fresh "a" in
  let w1 := fresh "w" in
  let Hm := fresh "Hm" in
  apply bind_Ok in H as (a & w1 & Hm & H).

(** ** Effects of the system calls on the files *)

Lemma same_files_refl w : same_files w w.
Proof. by split. Qed.

Lemma same_files_trans w1 w2 w3 :
  same_files w1 w2 → same_files w2 w3 → same_files w1 w3.
Proof. intros [? ?] [? ?]. split; congruence. Qed.

Lemma same_files_content w w' f : same_files w w' → content w' f = content w f.
Proof. intros [E _]. unfold content. by rewrite E. Qed.

Lemma extends_content f bs w w' : extends f bs w w' → content w' f = content w f ++ bs.
Proof. intros [E _]. unfold content at 1. by rewrite E, lookup_insert_eq. Qed.

Lemma extends_content_ne f g bs w w' :
  extends f bs w w' → fname g ≠ fname f → content w' g = content w g.
Proof. intros [E _] Hne. unfold content. by rewrite E, lookup_insert_ne. Qed.

Lemma same_files_extends f bs w1 w2 w3 :
  same_files w1 w2 → extends f bs w2 w3 → extends f bs w1 w3.
Proof.
  intros Hs [E D]. destruct Hs as [E1 D1]. split; [|congruence].
  unfold content in *. by rewrite E, E1.
Qed.

Lemma extends_same_files f bs w1 w2 w3 :
  extends f bs w1 w2 → same_files w2 w3 → extends f bs w1 w3.
Proof. intros [E D] [E1 D1]. split; congruence. Qed.

Lemma extends_app f bs1 bs2 w1 w2 w3 :
  extends f bs1 w1 w2 → extends f bs2 w2 w3 → extends f (bs1 ++ bs2) w1 w3.
Proof.
  intros H1 [E2 D2]. rewrite (extends_content _ _ _ _ H1) in E2.
  destruct H1 as [E1 D1]. split; [|congruence].
  by rewrite E2, E1, insert_insert_eq, app_assoc.
Qed.

Lemma dom_insert_open (m : gmap nat nat) k v : k ∈ dom m → dom (<[k := v]> m) = dom m.
Proof.
  intros Hk. rewrite dom_insert_L.
  apply subseteq_union_1_L. by apply singleton_subseteq_l.
Qed.

Lemma File_Write_extends f bs w u w' :
  File_Write f bs w = (Ok u, w') → fd f ∈ dom (fds w) ∧ extends f bs w w'.
Proof.
  intros H. apply File_Write_Ok in H as [Ho ->].
  apply elem_of_dom in Ho. split; [done|]. split; [done|].
  by apply dom_insert_open.
Qed.

Lemma File_SeekEnd_open f w :
  fd f ∈ dom (fds w) →
  (File_SeekEnd f w).1 = len (content w f) ∧ same_files w (File_SeekEnd f w).2.
Proof.
  intros Ho. unfold File_SeekEnd.
  destruct (fds w !! fd f) eqn:E.
  - split; [done|]. split; [done|]. by apply dom_insert_open.
  - apply not_elem_of_dom in E. done.
Qed.

Lemma File_SeekEnd_same f w : same_files w (File_SeekEnd f w).2.
Proof.
  unfold File_SeekEnd. destruct (fds w !! fd f) eqn:E.
  - split; [done|]. apply dom_insert_open. apply elem_of_dom. by eexists.
  - apply same_files_refl.
Qed.

(** ** [Segment.Append]: a successful call *)

Lemma Segment_Append_Ok entry s w u s' w' :
  Segment_Append entry (s, w) = (Ok u, (s', w')) →
  let position := len (content w (logFile s)) in
  let ie := mkIndexEntry (int32 (int64 (nextOffset s - baseOffset s))) (int32 position) in
  fd (logFile s) ∈ dom (fds w) ∧
  s' = mkSegment (baseOffset s) (logFile s) (indexFile s)
         (int64 (position + 8 + 4 + 4 + len (Payload entry)))
         (int64 (nextOffset s + 1))
         (if index_due s position then indexEntries s ++ [ie] else indexEntries s) ∧
  ∃ w1, extends (logFile s) (frame (nextOffset s) (Payload entry)) w w1 ∧
        if index_due s position
        then extends (indexFile s)
               (be_bytes 4 (RelativeOffset ie) ++ be_bytes 4 (Position ie)) w1 w'
        else w' = w1.
Proof.
  unfold Segment_Append. intros H.
  mstep H. mstep H.
  mstep H. apply File_Write_extends in Hm as [Ho E1].
  mstep H. apply File_Write_extends in Hm as [_ E2].
  mstep H. apply File_Write_extends in Hm as [_ E3].
  mstep H. apply File_Write_extends in Hm as [_ E4].
  pose proof (File_SeekEnd_same (logFile s) w) as [Ef Ed].
  rewrite Ed in Ho.
  destruct (File_SeekEnd_open _ _ Ho) as [Ep Es].
  rewrite Ep in *. clear Ep.
  pose proof (extends_app _ _ _ _ _ _ (extends_app _ _ _ _ _ _
               (extends_app _ _ _ _ _ _ E1 E2) E3) E4) as E.
  apply (same_files_extends _ _ _ _ _ Es) in E.
  rewrite <- !app_assoc in E. cbn [Offset Payload] in *.
  mstep H. mstep H. apply modS_inv in H as (-> & _ & ->).
  split; [done|].
  destruct (index_due s (len (content w (logFile s)))) eqn:Edue.
  - mstep Hm. apply File_Write_extends in Hm0 as [_ E5].
    mstep Hm. apply File_Write_extends in Hm0 as [_ E6].
    apply modS_inv in Hm as (-> & _ & ->).
    split; [done|]. eexists. split; [exact E|].
    eapply extends_app; eauto.
  - apply ret_inv in Hm as (_ & [= -> ->]). split; [done|]. eexists. by split.
Qed.

Lemma os_MkdirAll_Ok w u w' :
  os_MkdirAll w = (Ok u, w') → fs w' = fs w ∧ fds w' = fds w ∧ nextFd w' = nextFd w.
Proof.
  unfold os_MkdirAll, next_fault. destruct (hd NoFault (faults w)); intros H; by inversion H.
Qed.

Lemma os_OpenFile_Ok n w f w' :
  os_OpenFile n w = (Ok f, w') →
  f = mkFile (nextFd w) n ∧
  fs w' = <[n := default [] (fs w !! n)]> (fs w) ∧
  fds w' = <[nextFd w := 0%nat]> (fds w) ∧
  nextFd w' = S (nextFd w).
Proof.
  unfold os_OpenFile, next_fault. destruct (hd NoFault (faults w)); intros H; by inversion H.
Qed.

Lemma File_Stat_Ok f w sz w' :
  File_Stat f w = (Ok sz, w') →
  sz = len (content w f) ∧ fs w' = fs w ∧ fds w' = fds w ∧ nextFd w' = nextFd w.
Proof.
  unfold File_Stat, next_fault. destruct (fds w !! fd f); [|by intros H; inversion H].
  destruct (hd NoFault (faults w)); intros H; by inversion H.
Qed.

Lemma io_ReadFull_same f n w r w' : io_ReadFull f n w = (r, w') → same_files w w'.
Proof.
  unfold io_ReadFull, next_fault. destruct n as [|n].
  { intros H. inversion H. apply same_files_refl. }
  destruct (fds w !! fd f) as [c|] eqn:E.
  2: { intros H. inversion H. apply same_files_refl. }
  assert (Ho : fd f ∈ dom (fds w)) by (apply elem_of_dom; by eexists).
  destruct (hd NoFault (faults w)).
  2: { intros H. inversion H. by split. }
  cbv zeta. case_decide as Hd.
  - intros H. inversion H. split; [done|]. by apply dom_insert_open.
  - destruct (take _ _); intros H; inversion H; (split; [done|]; by apply dom_insert_open).
Qed.

Lemma io_ReadFull_Ok_length f n w bs w' :
  io_ReadFull f n w = (Ok bs, w') →
  length bs = n ∧ (n ≠ 0%nat → (n ≤ length (content w f))%nat).
Proof.
  unfold io_ReadFull, next_fault. destruct n as [|n].
  { intros H. by inversion H. }
  destruct (fds w !! fd f) as [c|] eqn:E; [|by intros H; inversion H].
  destruct (hd NoFault (faults w)); [|by intros H; inversion H].
  cbv zeta. case_decide as Hl.
  - intros H. inversion H; subst. split; [done|]. intros _.
    unfold content in *. simpl in *.
    rewrite length_take, length_drop in Hl. lia.
  - destruct (take _ _); intros H; inversion H.
Qed.

Lemma for_loop_S {St L A} n (body : L → M St (L + A)) l :
  for_loop (S n) body l
  = bind (body l) (λ r, match r with inl l' => for_loop n body l' | inr a => ret a end).
Proof. reflexivity. Qed.

Lemma File_SeekStart_same f pos w : same_files w (File_SeekStart f pos w).
Proof.
  unfold File_SeekStart. destruct (fds w !! fd f) eqn:E; [|apply same_files_refl].
  destruct (pos <? 0); [apply same_files_refl|].
  split; [done|]. apply dom_insert_open. apply elem_of_dom. by eexists.
Qed.

Lemma io_ReadFull_empty f n w bs w' :
  content w f = [] → n ≠ 0%nat → io_ReadFull f n w ≠ (Ok bs, w').
Proof.
  intros Hc Hn H. apply io_ReadFull_Ok_length in H as [_ H].
  specialize (H Hn). rewrite Hc in H. simpl in H. lia.
Qed.

Lemma recover_index_body_empty s w r s' w' :
  content w (indexFile s) = [] →
  recover_index_body () (s, w) = (Ok r, (s', w')) →
  r = inr () ∧ s' = s ∧ same_files w w'.
Proof.
  intros Ei H. unfold recover_index_body in H.
  mstep H. mstep H. apply attempt_inv in Hm.
  destruct a as [e|bs].
  - apply sys_inv in Hm as [-> Hm]. apply io_ReadFull_same in Hm.
    destruct e; by inversion H; subst.
  - apply sys_inv in Hm as [-> Hm]. by apply io_ReadFull_empty in Hm.
Qed.

Lemma recover_log_body_empty position s w r s' w' :
  content w (logFile s) = [] →
  recover_log_body position (s, w) = (Ok r, (s', w')) →
  r = inr () ∧ s' = s ∧ same_files w w'.
Proof.
  intros Ei H. unfold recover_log_body in H.
  mstep H. mstep H. apply attempt_inv in Hm.
  destruct a as [e|bs].
  - apply sys_inv in Hm as [-> Hm]. apply io_ReadFull_same in Hm.
    destruct e; by inversion H; subst.
  - apply sys_inv in Hm as [-> Hm]. by apply io_ReadFull_empty in Hm.
Qed.

(** Recovery of a segment whose two files are empty finds nothing. *)
Lemma Segment_recover_empty s w u s' w' :
  content w (indexFile s) = [] → content w (logFile s) = [] →
  Segment_recover (s, w) = (Ok u, (s', w')) →
  s' = s ∧ same_files w w'.
Proof.
  intros Ei El H. unfold Segment_recover in H.
  mstep H. mstep H. mstep H.
  pose proof (File_SeekStart_same (indexFile s) 0 w) as Hs1.
  set (w1 := File_SeekStart (indexFile s) 0 w) in *.
  mstep H. rewrite for_loop_S in Hm. mstep Hm.
  apply recover_index_body_empty in Hm0 as (-> & -> & Hs2);
    [|by rewrite (same_files_content _ _ _ Hs1)].
  apply ret_inv in Hm as (-> & [= -> ->]).
  mstep H. mstep H.
  pose proof (File_SeekStart_same (logFile s) 0 w2) as Hs3.
  set (w3 := File_SeekStart (logFile s) 0 w2) in *.
  assert (Hs : same_files w w3) by eauto using same_files_trans.
  rewrite for_loop_S in H. mstep H.
  apply recover_log_body_empty in Hm as (-> & -> & Hs4);
    [|by rewrite (same_files_content _ _ _ Hs)].
  apply ret_inv in H as (-> & [= -> ->]).
  split; [done|]. eauto using same_files_trans.
Qed.

(** ** [NewSegment] on a base offset that has no file yet *)

Lemma NewSegment_fresh d b w s w' :
  fs w !! (d, b, LogExt) = None → fs w !! (d, b, IndexExt) = None →
  NewSegment d b w = (Ok s, w') →
  s = mkSegment b (mkFile (nextFd w) (d, b, LogExt))
                (mkFile (S (nextFd w)) (d, b, IndexExt)) 0 b [] ∧
  fs w' = <[(d, b, IndexExt) := []]> (<[(d, b, LogExt) := []]> (fs w)) ∧
  dom (fds w') = {[nextFd w; S (nextFd w)]} ∪ dom (fds w).
Proof.
  intros Hl Hi H. unfold NewSegment in H.
  wstep H. apply os_MkdirAll_Ok in Hm as (Ef1 & Ed1 & En1).
  wstep H. apply os_OpenFile_Ok in Hm as (-> & Ef2 & Ed2 & En2).
  wstep H. apply attempt_inv in Hm. destruct a0 as [e|indexFile]; [by inversion H|].
  apply os_OpenFile_Ok in Hm as (-> & Ef3 & Ed3 & En3).
  wstep H. apply attempt_inv in Hm. destruct a0 as [e|sz]; [by inversion H|].
  apply File_Stat_Ok in Hm as (-> & Ef4 & Ed4 & En4).
  destruct (Segment_recover _) as [[u|e|] [s1 w5]] eqn:Hr; inversion H; subst; clear H.
  assert (Efs : fs w3 = <[(d, b, IndexExt) := []]> (<[(d, b, LogExt) := []]> (fs w))).
  { rewrite Ef4, Ef3, Ef2, Ef1. rewrite lookup_insert_ne by done.
    by rewrite Hl, Hi. }
  apply Segment_recover_empty in Hr as [-> [Ef5 Ed5]].
  - split.
    + rewrite En2, En1. f_equal. unfold content. simpl.
      rewrite Ef3, lookup_insert_ne by done.
      by rewrite Ef2, lookup_insert_eq, Ef1, Hl.
    + split; [by rewrite Ef5|].
      rewrite Ed5, Ed4, Ed3, Ed2, Ed1, !dom_insert_L, En2, En1.
      by rewrite (assoc_L (∪)), (comm_L (∪) {[S (nextFd w)]}).
  - unfold content. simpl. by rewrite Efs, lookup_insert_eq.
  - unfold content. simpl. rewrite Efs, lookup_insert_ne by done. by rewrite lookup_insert_eq.
Qed.

(** ** [Partition.Append]: a successful call *)

Lemma on_active_Ok {A} (m : M (Segment * World) A) segs a p w r p' w' :
  segments p = segs ++ [a] →
  on_active m (p, w) = (r, (p', w')) →
  ∃ a', m (a, w) = (r, (a', w')) ∧ p' = set_segments (segs ++ [a']) p.
Proof.
  intros Hs H. unfold on_active in H. rewrite Hs, last_snoc in H.
  destruct (m (a, w)) as [r1 [a' w1]]. inversion H; subst.
  exists a'. split; [done|]. by rewrite removelast_last.
Qed.

Lemma Partition_Append_Ok payload p w o p' w' :
  Partition_Append payload (p, w) = (Ok o, (p', w')) →
  o = 0 ∧
  ∃ segs a, segments p = segs ++ [a] ∧
    ((size a < SegmentMaxBytes ∧
      ∃ a', Segment_Append (mkLogEntry 0 payload) (a, w) = (Ok (), (a', w')) ∧
            p' = set_segments (segs ++ [a']) p)
     ∨ (SegmentMaxBytes ≤ size a ∧
        ∃ new w1 new',
          NewSegment (dir p) (nextOffset a) w = (Ok new, w1) ∧
          Segment_Append (mkLogEntry 0 payload) (new, w1) = (Ok (), (new', w')) ∧
          p' = set_segments (segs ++ [a; new']) p)).
Proof.
  unfold Partition_Append. intros H. mstep H.
  destruct (last (segments p)) as [a|] eqn:El; [|done].
  apply last_Some in El as [segs Hs].
  mstep H. mstep H. apply ret_inv in H as (-> & [= -> ->]).
  split; [done|]. exists segs, a. split; [done|].
  destruct (SegmentMaxBytes <=? size a) eqn:Hsz.
  - apply Z.leb_le in Hsz. right. split; [done|].
    mstep Hm. apply modS_inv in Hm as (-> & _ & ->).
    eapply (on_active_Ok _ (segs ++ [a]) a2) in Hm0 as (new' & Hm0 & ->).
    2: { simpl. by rewrite Hs. }
    destruct a1. exists a2, w2, new'. split; [done|]. split; [done|].
    by rewrite <- app_assoc.
  - apply Z.leb_gt in Hsz. left. split; [done|].
    apply ret_inv in Hm as (_ & [= -> ->]).
    eapply on_active_Ok in Hm0 as (a' & Hm0 & ->); [|done].
    destruct a1. eauto.
Qed.

(** ** The counters of a partition *)

Lemma Segment_Append_Ok_other entry s w u s' w' n :
  Segment_Append entry (s, w) = (Ok u, (s', w')) →
  n ≠ fname (logFile s) → n ≠ fname (indexFile s) → fs w' !! n = fs w !! n.
Proof.
  intros H Hl Hi. apply Segment_Append_Ok in H as (_ & _ & w1 & [E1 _] & H).
  destruct (index_due _ _).
  - destruct H as [E2 _]. rewrite E2, lookup_insert_ne by done.
    by rewrite E1, lookup_insert_ne.
  - subst w'. by rewrite E1, lookup_insert_ne.
Qed.

Lemma records_before_app_l i (qss rss : list (list (list byte))) :
  (i ≤ length qss)%nat → records_before i (qss ++ rss) = records_before i qss.
Proof. intros Hi. unfold records_before. by rewrite take_app_le. Qed.

Lemma records_before_all (pss : list (list (list byte))) :
  records_before (length pss) pss = Z.of_nat (length (concat pss)).
Proof. unfold records_before. by rewrite firstn_all. Qed.

Lemma records_before_snoc (qss : list (list (list byte))) ps :
  Z.of_nat (length (concat (qss ++ [ps])))
  = records_before (length qss) (qss ++ [ps]) + Z.of_nat (length ps).
Proof.
  rewrite records_before_app_l, records_before_all by done.
  rewrite concat_app, length_app. simpl. rewrite app_nil_r. lia.
Qed.

Lemma records_before_mono i j (pss : list (list (list byte))) :
  (i ≤ j)%nat → records_before i pss ≤ records_before j pss.
Proof.
  intros Hij. unfold records_before.
  replace j with (i + (j - i))%nat by lia.
  rewrite <- take_take_drop, concat_app, length_app. lia.
Qed.
Lemma lookup_snoc_inv {A} (l : list A) x i y :
  (l ++ [x]) !! i = Some y →
  ((i < length l)%nat ∧ l !! i = Some y) ∨ (i = length l ∧ y = x).
Proof.
  intros H. destruct (decide (i < length l)%nat) as [Hi|Hi].
  - left. split; [done|]. by rewrite lookup_app_l in H.
  - right. rewrite lookup_app_r in H by lia.
    destruct (i - length l)%nat as [|k] eqn:E; simpl in H; [|done].
    simpl in H. inversion H; subst. split; [lia|done].
Qed.

Lemma seg_at_snoc_l d qss ps ps' i s ps0 :
  (i < length qss)%nat →
  seg_at d (qss ++ [ps]) i s ps0 → seg_at d (qss ++ [ps']) i s ps0.
Proof.
  intros Hi (Hn & Hb & Hx & Hz & Hs).
  split; [done|]. split; [|split; [done|split; [done|]]].
  - rewrite Hb, !records_before_app_l by lia. done.
  - intros Hlt. apply Hs. rewrite length_app in *. simpl in *. lia.
Qed.

Lemma part_counts_active w p segs a qss ps :
  part_counts w p (qss ++ [ps]) → segments p = segs ++ [a] →
  length segs = length qss ∧ seg_at (dir p) (qss ++ [ps]) (length segs) a ps.
Proof.
  intros (Hlen & _ & Hat & _) Hs.
  assert (Hl : length segs = length qss).
  { rewrite Hs, !length_app in Hlen. simpl in Hlen. lia. }
  split; [done|]. apply Hat.
  - rewrite Hs. by apply list_lookup_middle.
  - by apply list_lookup_middle.
Qed.

Lemma part_counts_append w p segs a qss ps entry a' w' :
  part_counts w p (qss ++ [ps]) → segments p = segs ++ [a] →
  Segment_Append entry (a, w) = (Ok (), (a', w')) →
  Z.of_nat (length (concat (qss ++ [ps]))) + 1 < 2 ^ 63 →
  part_counts w' (set_segments (segs ++ [a']) p) (qss ++ [ps ++ [Payload entry]]).
Proof.
  intros Hinv Hs Happ Hbound.
  destruct (part_counts_active _ _ _ _ _ _ Hinv Hs) as [Hl (Hn & Hb & Hx & Hz & _)].
  destruct Hinv as (Hlen & _ & Hat & Hfresh).
  pose proof (Segment_Append_Ok _ _ _ _ _ _ Happ) as (_ & Ha' & _).
  cbv zeta in Ha'.
  assert (Hbase : baseOffset a' = baseOffset a) by (by rewrite Ha').
  split; [|split; [|split]].
  - simpl. rewrite !length_app. simpl. lia.
  - by destruct qss.
  - simpl. intros i s ps0 Hi Hp.
    apply lookup_snoc_inv in Hi as [[Hi Hsi]|[-> ->]].
    + rewrite lookup_app_l in Hp by lia.
      apply (seg_at_snoc_l _ _ ps); [lia|]. apply Hat.
      * rewrite Hs. by rewrite lookup_app_l.
      * rewrite lookup_app_l by lia. done.
    + rewrite Hl in Hp. rewrite list_lookup_middle in Hp by done.
      inversion Hp; subst ps0; clear Hp.
      pose proof (records_before_snoc qss ps) as Ht.
      assert (0 ≤ records_before (length qss) (qss ++ [ps])) by (unfold records_before; lia).
      rewrite Hl in Hb.
      split; [|split; [|split; [|split]]].
      * rewrite Ha'. apply Hn.
      * rewrite Hbase, Hb, Hl, !records_before_app_l by lia. done.
      * rewrite Hbase, Ha'. simpl. rewrite int64_small, Hx, length_app; simpl; lia.
      * intros _. by destruct ps.
      * intros _. by destruct ps.
  - simpl. intros b e Hb'.
    rewrite (Segment_Append_Ok_other _ _ _ _ _ _ _ Happ).
    + apply Hfresh. intros s Hin.
      rewrite Hs in Hin. apply elem_of_app in Hin as [Hin|Hin].
      * apply Hb'. apply elem_of_app. by left.
      * apply list_elem_of_singleton in Hin as ->. rewrite <- Hbase.
        apply Hb'. apply elem_of_app. right. by apply list_elem_of_singleton.
    + destruct Hn as [-> _]. intros [= E1 E2]. apply (Hb' a'); [|by rewrite Hbase].
      apply elem_of_app. right. by apply list_elem_of_singleton.
    + destruct Hn as [_ ->]. intros [= E1 E2]. apply (Hb' a'); [|by rewrite Hbase].
      apply elem_of_app. right. by apply list_elem_of_singleton.
Qed.
Lemma seg_at_app d pss x i s ps0 :
  (i < length pss)%nat → ps0 ≠ [] →
  seg_at d pss i s ps0 → seg_at d (pss ++ [x]) i s ps0.
Proof.
  intros Hi Hne (Hn & Hb & Hx & Hz & Hs).
  split; [done|]. split; [|split; [done|split; [done|done]]].
  rewrite Hb, !records_before_app_l by lia. done.
Qed.

Lemma part_counts_bases w p pss s :
  part_counts w p pss → s ∈ segments p →
  ∃ i ps, segments p !! i = Some s ∧ pss !! i = Some ps ∧ seg_at (dir p) pss i s ps.
Proof.
  intros (Hlen & _ & Hat & _) Hin.
  apply list_elem_of_lookup in Hin as [i Hi].
  destruct (pss !! i) as [ps|] eqn:Hp.
  - exists i, ps. eauto.
  - apply lookup_ge_None in Hp. apply lookup_lt_Some in Hi. lia.
Qed.

Lemma part_counts_roll w p segs a qss ps new w1 entry new' w' :
  part_counts w p (qss ++ [ps]) → segments p = segs ++ [a] →
  SegmentMaxBytes ≤ size a →
  NewSegment (dir p) (nextOffset a) w = (Ok new, w1) →
  Segment_Append entry (new, w1) = (Ok (), (new', w')) →
  Z.of_nat (length (concat (qss ++ [ps]))) + 1 < 2 ^ 63 →
  part_counts w' (set_segments (segs ++ [a; new']) p)
              ((qss ++ [ps]) ++ [[Payload entry]])
  ∧ fs w !! (dir p, nextOffset a, LogExt) = None
  ∧ fs w !! (dir p, nextOffset a, IndexExt) = None.
Proof.
  intros Hinv Hs Hsz Hnew Happ Hbound.
  destruct (part_counts_active _ _ _ _ _ _ Hinv Hs) as [Hl (Hn & Hb & Hx & Hz & _)].
  assert (Hps : ps ≠ []) by (apply Hz; unfold SegmentMaxBytes in Hsz; lia).
  assert (Hlt : baseOffset a < nextOffset a) by (destruct ps; [done|simpl in Hx; lia]).
  assert (Hbases : ∀ s, s ∈ segments p → baseOffset s ≠ nextOffset a).
  { intros s Hin.
    destruct (part_counts_bases _ _ _ _ Hinv Hin) as (i & ps0 & Hi & _ & _ & Hbi & _).
    apply lookup_lt_Some in Hi. rewrite Hs, length_app in Hi. simpl in Hi.
    pose proof (records_before_mono i (length segs) (qss ++ [ps]) ltac:(lia)). lia. }
  destruct Hinv as (Hlen & _ & Hat & Hfresh).
  pose proof (Hfresh _ LogExt Hbases) as Hfl.
  pose proof (Hfresh _ IndexExt Hbases) as Hfi.
  split; [|done].
  pose proof (NewSegment_fresh _ _ _ _ _ Hfl Hfi Hnew) as (Hnew' & Hfs1 & _).
  pose proof (Segment_Append_Ok _ _ _ _ _ _ Happ) as (_ & Ha' & _).
  cbv zeta in Ha'. rewrite Hnew' in Ha'. cbn [baseOffset logFile indexFile nextOffset] in Ha'.
  pose proof (records_before_snoc qss ps) as Ht.
  assert (0 ≤ records_before (length qss) (qss ++ [ps])) by (unfold records_before; lia).
  rewrite Hl in Hb.
  split; [|split; [|split]].
  - simpl. rewrite !length_app. simpl. rewrite Hl. lia.
  - by destruct qss.
  - simpl. intros i s ps0 Hi Hp.
    replace (segs ++ [a; new']) with ((segs ++ [a]) ++ [new']) in Hi
      by (by rewrite <- app_assoc).
    apply lookup_snoc_inv in Hi as [[Hi Hsi]|[-> ->]].
    + assert (Hi' : (i < length (qss ++ [ps]))%nat).
      { rewrite length_app in *. simpl in *. lia. }
      rewrite lookup_app_l in Hp by done.
      rewrite <- Hs in Hsi.
      pose proof (Hat _ _ _ Hsi Hp) as Hold.
      apply seg_at_app; [done| |done].
      destruct Hold as (_ & _ & _ & _ & Hsealed).
      destruct (decide (S i < length (qss ++ [ps]))%nat) as [Hc|Hc]; [by apply Hsealed|].
      assert (i = length qss) as -> by (rewrite length_app in *; simpl in *; lia).
      rewrite list_lookup_middle in Hp by done. by inversion Hp; subst.
    + rewrite lookup_app_r in Hp by (rewrite !length_app; simpl; lia).
      replace (length (segs ++ [a]) - length (qss ++ [ps]))%nat with 0%nat in Hp
        by (rewrite !length_app; simpl; lia).
      simpl in Hp. inversion Hp; subst ps0; clear Hp.
      split; [|split; [|split; [|split]]].
      * rewrite Ha'. by split.
      * rewrite Ha'. cbn [baseOffset].
        replace (length (segs ++ [a])) with (length (qss ++ [ps]))
          by (rewrite !length_app; simpl; lia).
        rewrite (records_before_app_l _ (qss ++ [ps])) by done.
        rewrite (records_before_all (qss ++ [ps])). lia.
      * rewrite Ha'. cbn [baseOffset nextOffset]. simpl. rewrite int64_small; lia.
      * done.
      * done.
  - simpl. intros b e Hb'.
    assert (Hbn : b ≠ nextOffset a).
    { intros ->. apply (Hb' new'); [|by rewrite Ha'].
      apply elem_of_app. right. apply list_elem_of_In. simpl. auto. }
    rewrite (Segment_Append_Ok_other _ _ _ _ _ _ _ Happ).
    + rewrite Hfs1, !lookup_insert_ne by congruence.
      apply Hfresh. intros s Hin. apply Hb'.
      rewrite Hs in Hin. apply elem_of_app in Hin as [Hin|Hin]; apply elem_of_app.
      * by left.
      * right. apply list_elem_of_singleton in Hin as ->. apply list_elem_of_In. simpl. auto.
    + rewrite Hnew'. simpl. congruence.
    + rewrite Hnew'. simpl. congruence.
Qed.

(** ** A partition created in a directory that has no file *)

Lemma os_ReadDir_Ok d w files w' :
  os_ReadDir d w = (Ok files, w') →
  files = filter (λ n : FileName, n.1.1 = d) (map_to_list (fs w)).*1 ∧
  fs w' = fs w ∧ fds w' = fds w ∧ nextFd w' = nextFd w.
Proof.
  unfold os_ReadDir, next_fault. destruct (hd NoFault (faults w)); intros H; by inversion H.
Qed.

Lemma LoadSegments_fresh d w segs w' :
  (∀ b e, fs w !! (d, b, e) = None) →
  LoadSegments d w = (Ok segs, w') →
  segs = [] ∧ fs w' = fs w ∧ fds w' = fds w ∧ nextFd w' = nextFd w.
Proof.
  intros Hf H. unfold LoadSegments in H.
  wstep H. apply os_ReadDir_Ok in Hm as (-> & Hm).
  destruct (filter _ _) as [|n l] eqn:E.
  - simpl in H. by inversion H; subst.
  - exfalso. assert (Hin : n ∈ n :: l) by apply list_elem_of_here.
    rewrite <- E in Hin. apply list_elem_of_filter in Hin as [Hd Hin].
    apply list_elem_of_fmap in Hin as ([n' x] & -> & Hin).
    apply elem_of_map_to_list in Hin. simpl in *.
    destruct n' as [[d' b] e]. simpl in Hd. subst d'. by rewrite Hf in Hin.
Qed.

Lemma NewPartition_fresh dataDir topic i w p w' :
  (∀ b e, fs w !! (partition_dir dataDir topic i, b, e) = None) →
  NewPartition dataDir topic i w = (Ok p, w') →
  let d := partition_dir dataDir topic i in
  p = mkPartition i d [mkSegment 0 (mkFile (nextFd w) (d, 0, LogExt))
                                   (mkFile (S (nextFd w)) (d, 0, IndexExt)) 0 0 []] ∧
  fs w' = <[(d, 0, IndexExt) := []]> (<[(d, 0, LogExt) := []]> (fs w)) ∧
  dom (fds w') = {[nextFd w; S (nextFd w)]} ∪ dom (fds w).
Proof.
  intros Hf H d. unfold NewPartition in H. fold d in H.
  wstep H. apply LoadSegments_fresh in Hm as (-> & Ef & Ed & En); [|done].
  wstep H. apply NewSegment_fresh in Hm as (-> & Ef1 & Ed1).
  - apply ret_inv in H as [-> ->]. by rewrite Ef1, Ed1, Ef, Ed, En.
  - rewrite Ef. apply Hf.
  - rewrite Ef. apply Hf.
Qed.

Lemma part_counts_fresh dataDir topic i w p w' :
  (∀ b e, fs w !! (partition_dir dataDir topic i, b, e) = None) →
  NewPartition dataDir topic i w = (Ok p, w') →
  part_counts w' p [[]].
Proof.
  intros Hf H. apply NewPartition_fresh in H as (-> & Ef & _); [|done].
  split; [done|]. split; [done|]. split.
  - intros [|k] s ps Hs Hp; [|done]. simpl in *. inversion Hs; inversion Hp; subst.
    split; [by split|]. split; [done|]. split; [done|]. split; [done|].
    simpl. lia.
  - simpl. intros b e Hb.
    assert (b ≠ 0).
    { intros ->. eapply Hb; [apply list_elem_of_here|done]. }
    rewrite Ef, !lookup_insert_ne by congruence. apply Hf.
Qed.

(** ** Records in a log file *)

Lemma length_frame offset payload :
  length (frame offset payload) = (16 + length payload)%nat.
Proof. unfold frame. rewrite !length_app, !length_be_bytes. lia. Qed.

Lemma frames_app base ps qs :
  frames base (ps ++ qs) = frames base ps ++ frames (base + Z.of_nat (length ps)) qs.
Proof.
  revert base. induction ps as [|p ps IH]; intros base.
  - simpl. by rewrite Z.add_0_r.
  - cbn [app frames length]. rewrite IH, <- app_assoc. do 3 f_equal. lia.
Qed.

Lemma frames_snoc base ps p :
  frames base (ps ++ [p]) = frames base ps ++ frame (base + Z.of_nat (length ps)) p.
Proof. rewrite frames_app. simpl. by rewrite app_nil_r. Qed.

Lemma frames_length_ge base ps : (16 * length ps ≤ length (frames base ps))%nat.
Proof.
  revert base. induction ps as [|p ps IH]; intros base; cbn [frames length]; [lia|].
  rewrite length_app, length_frame. specialize (IH (base + 1)). lia.
Qed.

Lemma frames_take_le base ps k :
  (length (frames base (take k ps)) ≤ length (frames base ps))%nat.
Proof.
  rewrite <- (take_drop k ps) at 2. rewrite frames_app, length_app. lia.
Qed.

(** ** The contents of a segment *)

Lemma index_due_true s position :
  index_due s position = true →
  indexEntries s = [] ∨
  ∃ e, last (indexEntries s) = Some e ∧ IndexInterval ≤ int64 (position - Position e).
Proof.
  unfold index_due. destruct (last (indexEntries s)) as [e|] eqn:E.
  - intros H. right. exists e. split; [done|]. by apply Z.leb_le.
  - intros _. left. by apply last_None.
Qed.

Lemma seg_full_append d w a ps entry a' w' :
  named d a → seg_full w a ps →
  nextOffset a = baseOffset a + Z.of_nat (length ps) →
  - 2 ^ 63 ≤ nextOffset a → nextOffset a + 1 < 2 ^ 63 →
  size a < SegmentMaxBytes → small (Payload entry) →
  Segment_Append entry (a, w) = (Ok (), (a', w')) →
  seg_full w' a' (ps ++ [Payload entry]).
Proof.
  intros [Hnl Hni] (Hlog & Hsize & Hopen & (Hent & Hinc & Hgap) & Hpos) Hnext Hlo Hhi Hsz Hsmall H.
  apply Segment_Append_Ok in H as (_ & -> & w1 & E1 & H). cbv zeta in H.
  assert (Hc : content w (logFile a) = frames (baseOffset a) ps).
  { unfold content. by rewrite Hlog. }
  rewrite Hc in *. rewrite <- Hsize in *.
  assert (Hne : fname (indexFile a) ≠ fname (logFile a)) by (rewrite Hnl, Hni; congruence).
  assert (Hlog' : fs w' !! fname (logFile a)
                  = Some (frames (baseOffset a) (ps ++ [Payload entry]))
                  ∧ dom (fds w') = dom (fds w)).
  { rewrite frames_snoc, <- Hnext.
    assert (fs w1 !! fname (logFile a)
            = Some (frames (baseOffset a) ps ++ frame (nextOffset a) (Payload entry))).
    { destruct E1 as [-> _]. by rewrite lookup_insert_eq, Hc. }
    destruct (index_due _ _).
    - destruct H as [-> ->]. rewrite lookup_insert_ne by done. split; [done|]. apply E1.
    - subst w'. split; [done|]. apply E1. }
  destruct Hlog' as [Hlog' Hd].
  assert (Hk : 16 * Z.of_nat (length ps) ≤ size a).
  { rewrite Hsize. pose proof (frames_length_ge (baseOffset a) ps). unfold len. lia. }
  assert (0 ≤ size a) by (rewrite Hsize; unfold len; lia).
  unfold SegmentMaxBytes in Hsz. unfold small in Hsmall.
  assert (0 ≤ len (Payload entry)) by (unfold len; lia).
  split; [done|]. split; [|split; [by rewrite Hd|split]].
  - cbn [size baseOffset]. rewrite frames_snoc. unfold len at 2.
    rewrite length_app, length_frame. rewrite int64_small; unfold len in *; lia.
  - cbn [baseOffset indexEntries].
    assert (Hold : ∀ e, e ∈ indexEntries a →
              ∃ k, (k < length (ps ++ [Payload entry]))%nat ∧
                   RelativeOffset e = Z.of_nat k ∧
                   Position e = len (frames (baseOffset a) (take k (ps ++ [Payload entry])))).
    { intros e He. destruct (Hent e He) as (k & Hk1 & Hk2 & Hk3).
      exists k. rewrite length_app, take_app_le by lia. simpl. split; [lia|done]. }
    destruct (index_due a (size a)) eqn:Hdue; [|by split; [|split]].
    assert (Hrel : int32 (int64 (nextOffset a - baseOffset a)) = Z.of_nat (length ps)).
    { rewrite Hnext. replace (_ + _ - _) with (Z.of_nat (length ps)) by lia.
      rewrite int64_small, int32_small; lia. }
    assert (Hp32 : int32 (size a) = size a) by (apply int32_small; lia).
    rewrite Hrel, Hp32.
    split; [|split].
    + intros e He. apply elem_of_app in He as [He|He]; [by apply Hold|].
      apply list_elem_of_singleton in He as ->. exists (length ps).
      rewrite length_app, take_app_length. simpl. split; [lia|]. split; [done|].
      by rewrite Hsize.
    + intros i j ei ej Hi Hj Hij.
      apply lookup_snoc_inv in Hj as [[Hj1 Hj2]|[-> ->]].
      * rewrite lookup_app_l in Hi by lia. eauto.
      * rewrite lookup_app_l in Hi by lia.
        destruct (Hent ei) as (k & Hk1 & Hk2 & _); [by eapply list_elem_of_lookup_2|].
        simpl. lia.
    + intros e. rewrite last_snoc. intros [= <-]. simpl.
      rewrite length_app. simpl.
      apply index_due_true in Hdue as [->|(e & He & Hge)]; [simpl; lia|].
      specialize (Hgap e He).
      destruct (Hent e) as (k & Hk1 & _ & Hk3).
      { apply last_Some in He as [l' ->]. apply elem_of_app. right. apply list_elem_of_here. }
      assert (0 ≤ Position e ≤ size a).
      { rewrite Hk3, Hsize. pose proof (frames_take_le (baseOffset a) ps k). unfold len. lia. }
      rewrite int64_small in Hge by lia. unfold IndexInterval in *. lia.
  - cbn [baseOffset]. intros k Hk'. rewrite length_app in Hk'. simpl in Hk'.
    destruct (decide (k < length ps)%nat) as [Hlt|Hge].
    + rewrite take_app_le by lia. by apply Hpos.
    + assert (k = length ps) as -> by lia. rewrite take_app_length.
      rewrite <- Hsize. unfold SegmentMaxBytes. lia.
Qed.

(** ** The contents of a partition *)

Lemma Segment_Append_Ok_dom entry s w u s' w' :
  Segment_Append entry (s, w) = (Ok u, (s', w')) → dom (fds w') = dom (fds w).
Proof.
  intros H. apply Segment_Append_Ok in H as (_ & _ & w1 & [_ E1] & H).
  destruct (index_due _ _).
  - destruct H as [_ E2]. congruence.
  - by subst w'.
Qed.

Lemma seg_full_other w w' s ps :
  seg_full w s ps →
  fs w' !! fname (logFile s) = fs w !! fname (logFile s) →
  dom (fds w) ⊆ dom (fds w') →
  seg_full w' s ps.
Proof.
  intros (Hlog & Hsize & Hopen & Hidx & Hpos) Hf Hd.
  split; [congruence|]. split; [done|]. split; [by apply Hd|]. by split.
Qed.

Lemma records_before_S i (pss : list (list (list byte))) ps :
  pss !! i = Some ps →
  records_before (S i) pss = records_before i pss + Z.of_nat (length ps).
Proof.
  intros Hp. unfold records_before. rewrite (take_S_r _ _ _ Hp), concat_app, length_app.
  simpl. rewrite app_nil_r. lia.
Qed.

(** The base offsets of the segments increase. *)
Lemma part_counts_bases_lt w p pss i j s s' :
  part_counts w p pss → (i < j)%nat →
  segments p !! i = Some s → segments p !! j = Some s' →
  baseOffset s < baseOffset s'.
Proof.
  intros (Hlen & _ & Hat & _) Hij Hi Hj.
  assert (Hjl : (j < length pss)%nat) by (rewrite <- Hlen; by eapply lookup_lt_Some).
  destruct (lookup_lt_is_Some_2 pss i ltac:(lia)) as [ps Hp].
  destruct (lookup_lt_is_Some_2 pss j ltac:(lia)) as [ps' Hp'].
  destruct (Hat _ _ _ Hi Hp) as (_ & Hb & _ & _ & Hne).
  destruct (Hat _ _ _ Hj Hp') as (_ & Hb' & _).
  rewrite Hb, Hb'.
  pose proof (records_before_mono (S i) j pss ltac:(lia)).
  rewrite (records_before_S _ _ _ Hp) in *.
  assert (ps ≠ []) by (apply Hne; lia). destruct ps; [done|]. simpl in *. lia.
Qed.

Lemma part_full_append w p segs a qss ps entry a' w' :
  part_counts w p (qss ++ [ps]) → part_full w p (qss ++ [ps]) →
  segments p = segs ++ [a] →
  size a < SegmentMaxBytes → small (Payload entry) →
  Segment_Append entry (a, w) = (Ok (), (a', w')) →
  Z.of_nat (length (concat (qss ++ [ps]))) + 1 < 2 ^ 63 →
  part_full w' (set_segments (segs ++ [a']) p) (qss ++ [ps ++ [Payload entry]]).
Proof.
  intros Hinv Hfull Hs Hsz Hsmall Happ Hbound.
  destruct (part_counts_active _ _ _ _ _ _ Hinv Hs) as [Hl (Hn & Hb & Hx & Hz & _)].
  pose proof (records_before_snoc qss ps) as Ht.
  assert (0 ≤ records_before (length segs) (qss ++ [ps])) by (unfold records_before; lia).
  rewrite Hl in *.
  assert (Hia : segments p !! length qss = Some a).
  { rewrite Hs. by apply list_lookup_middle. }
  intros i s ps0 Hi Hp. simpl in Hi.
  apply lookup_snoc_inv in Hi as [[Hi Hsi]|[-> ->]].
  - rewrite lookup_app_l in Hp by lia.
    assert (Hsi' : segments p !! i = Some s) by (rewrite Hs; by rewrite lookup_app_l).
    assert (Hold : seg_full w s ps0).
    { apply (Hfull i); [done|]. by rewrite lookup_app_l by lia. }
    assert (Hlt : baseOffset s < baseOffset a).
    { eapply (part_counts_bases_lt _ _ _ i (length qss)); eauto. lia. }
    assert (Hns : named (dir p) s).
    { destruct (Hinv) as (_ & _ & Hat & _). eapply (Hat i s ps0); [done|].
      by rewrite lookup_app_l by lia. }
    apply (seg_full_other w); [done| |].
    + eapply Segment_Append_Ok_other; [done| |].
      * destruct Hns as [-> _], Hn as [-> _]. intros E. inversion E. lia.
      * destruct Hns as [-> _], Hn as [_ ->]. intros E. inversion E.
    + by rewrite (Segment_Append_Ok_dom _ _ _ _ _ _ Happ).
  - rewrite Hl, list_lookup_middle in Hp by done. inversion Hp; subst ps0; clear Hp.
    eapply seg_full_append; eauto; try lia.
    apply (Hfull (length qss)); [done|]. by apply list_lookup_middle.
Qed.
Lemma seg_full_fresh w d b n m :
  fs w !! (d, b, LogExt) = Some [] → n ∈ dom (fds w) →
  seg_full w (mkSegment b (mkFile n (d, b, LogExt)) (mkFile m (d, b, IndexExt)) 0 b []) [].
Proof.
  intros Hf Hd. split; [done|]. split; [done|]. split; [done|]. split.
  - split; [|split]; simpl.
    + intros e He. by apply elem_of_nil in He.
    + intros i j ei ej Hi. by rewrite lookup_nil in Hi.
    + intros e He. done.
  - intros k Hk. simpl in Hk. lia.
Qed.

Lemma part_full_roll w p segs a qss ps new w1 entry new' w' :
  part_counts w p (qss ++ [ps]) → part_full w p (qss ++ [ps]) →
  segments p = segs ++ [a] →
  SegmentMaxBytes ≤ size a → small (Payload entry) →
  NewSegment (dir p) (nextOffset a) w = (Ok new, w1) →
  Segment_Append entry (new, w1) = (Ok (), (new', w')) →
  Z.of_nat (length (concat (qss ++ [ps]))) + 1 < 2 ^ 63 →
  part_full w' (set_segments (segs ++ [a; new']) p)
            ((qss ++ [ps]) ++ [[Payload entry]]).
Proof.
  intros Hinv Hfull Hs Hsz Hsmall Hnew Happ Hbound.
  destruct (part_counts_roll _ _ _ _ _ _ _ _ _ _ _ Hinv Hs Hsz Hnew Happ Hbound)
    as (_ & Hfl & Hfi).
  destruct (part_counts_active _ _ _ _ _ _ Hinv Hs) as [Hl (Hn & Hb & Hx & Hz & _)].
  pose proof (records_before_snoc qss ps) as Ht.
  assert (0 ≤ records_before (length segs) (qss ++ [ps])) by (unfold records_before; lia).
  rewrite Hl in *.
  pose proof (NewSegment_fresh _ _ _ _ _ Hfl Hfi Hnew) as (Hnew' & Hfs1 & Hd1).
  intros i s ps0 Hi Hp. simpl in Hi.
  replace (segs ++ [a; new']) with ((segs ++ [a]) ++ [new']) in Hi
    by (by rewrite <- app_assoc).
  apply lookup_snoc_inv in Hi as [[Hi Hsi]|[-> ->]].
  - assert (Hi' : (i < length (qss ++ [ps]))%nat).
    { rewrite length_app in *. simpl in *. lia. }
    rewrite lookup_app_l in Hp by done. rewrite <- Hs in Hsi.
    pose proof (Hfull _ _ _ Hsi Hp) as Hold.
    assert (Hns : named (dir p) s).
    { destruct Hinv as (_ & _ & Hat & _). by eapply (Hat i s ps0). }
    assert (Hne1 : fname (logFile s) ≠ (dir p, nextOffset a, LogExt)).
    { intros E. destruct Hold as [Hlog _]. rewrite E in Hlog. congruence. }
    assert (Hne2 : fname (logFile s) ≠ (dir p, nextOffset a, IndexExt)).
    { destruct Hns as [-> _]. congruence. }
    apply (seg_full_other w1).
    + apply (seg_full_other w); [done| |].
      * rewrite Hfs1, !lookup_insert_ne by done. done.
      * rewrite Hd1. apply union_subseteq_r.
    + eapply Segment_Append_Ok_other; [done| |]; by rewrite Hnew'.
    + by rewrite (Segment_Append_Ok_dom _ _ _ _ _ _ Happ).
  - rewrite lookup_app_r in Hp by (rewrite !length_app; simpl; lia).
    replace (length (segs ++ [a]) - length (qss ++ [ps]))%nat with 0%nat in Hp
      by (rewrite !length_app; simpl; lia).
    simpl in Hp. inversion Hp; subst ps0; clear Hp.
    apply (seg_full_append (dir p) w1 new [] entry); try done.
    + by rewrite Hnew'.
    + rewrite Hnew'. apply seg_full_fresh.
      * rewrite Hfs1, lookup_insert_ne by done. by rewrite lookup_insert_eq.
      * rewrite Hd1. apply elem_of_union_l, elem_of_union_l. by apply elem_of_singleton.
    + rewrite Hnew'. simpl. lia.
    + rewrite Hnew'. simpl. lia.
    + rewrite Hnew'. simpl. lia.
    + rewrite Hnew'. simpl. unfold SegmentMaxBytes. lia.
Qed.
(** ** One call of [Partition.Append], and a run of them *)

Lemma list_snoc_inv {A} (l : list A) : l ≠ [] → ∃ l' x, l = l' ++ [x].
Proof.
  intros Hl. destruct (last l) as [x|] eqn:E.
  - apply last_Some in E as [l' ->]. eauto.
  - by apply last_None in E.
Qed.

Lemma Partition_Append_fields payload p w r p' w' :
  Partition_Append payload (p, w) = (r, (p', w')) → dir p' = dir p ∧ id p' = id p.
Proof.
  unfold Partition_Append, bind, getS, on_active.
  destruct (last (segments p)) as [a|] eqn:El; [|by intros [= _ <- _]].
  destruct (SegmentMaxBytes <=? size a).
  - unfold sys, modS, bind. destruct (NewSegment _ _ _) as [[new|e|] w1];
      [|by intros [= _ <- _]..].
    cbn [segments set_segments]. rewrite last_snoc.
    destruct (Segment_Append _ _) as [[u|e|] [s1 w2]]; by intros [= _ <- _].
  - unfold ret. rewrite El.
    destruct (Segment_Append _ _) as [[u|e|] [s1 w2]]; by intros [= _ <- _].
Qed.

Lemma Partition_Append_inv w p pss payload o p' w' :
  part_counts w p pss →
  Partition_Append payload (p, w) = (Ok o, (p', w')) →
  Z.of_nat (length (concat pss)) + 1 < 2 ^ 63 →
  o = 0 ∧
  (∃ segs a, segments p = segs ++ [a] ∧
     ((size a < SegmentMaxBytes ∧ ∃ a', segments p' = segs ++ [a'])
      ∨ (SegmentMaxBytes ≤ size a ∧
         ∃ new', segments p' = segs ++ [a; new'] ∧ baseOffset new' = nextOffset a))) ∧
  ∃ pss', part_counts w' p' pss' ∧ concat pss' = concat pss ++ [payload] ∧
          (part_full w p pss → small payload → part_full w' p' pss').
Proof.
  intros Hinv H Hbound.
  apply Partition_Append_Ok in H as (-> & segs & a & Hs & H).
  split; [done|].
  destruct (list_snoc_inv pss) as (qss & ps & ->); [apply Hinv|].
  destruct H as [(Hsz & a' & Happ & ->)|(Hsz & new & w1 & new' & Hnew & Happ & ->)].
  - split.
    { exists segs, a. split; [done|]. left. split; [done|]. by exists a'. }
    exists (qss ++ [ps ++ [payload]]). split; [|split].
    + by apply (part_counts_append _ _ _ _ _ _ (mkLogEntry 0 payload) _ _ Hinv Hs Happ).
    + rewrite !concat_app. simpl. by rewrite !app_nil_r, <- app_assoc.
    + intros Hfull Hsmall.
      by apply (part_full_append _ _ _ _ _ _ (mkLogEntry 0 payload) _ _ Hinv Hfull Hs).
  - destruct (part_counts_roll _ _ _ _ _ _ _ _ (mkLogEntry 0 payload) _ _
                Hinv Hs Hsz Hnew Happ Hbound) as (Hinv' & Hfl & Hfi).
    split.
    { exists segs, a. split; [done|]. right. split; [done|]. exists new'. split; [done|].
      apply NewSegment_fresh in Hnew as (-> & _); [|done..].
      by apply Segment_Append_Ok in Happ as (_ & -> & _). }
    exists ((qss ++ [ps]) ++ [[payload]]). split; [|split].
    + done.
    + rewrite (concat_app (qss ++ [ps])). done.
    + intros Hfull Hsmall.
      by apply (part_full_roll _ _ _ _ _ _ _ _ (mkLogEntry 0 payload) _ _ Hinv Hfull Hs Hsz
                  Hsmall Hnew Happ).
Qed.

Lemma append_all_inv payloads : ∀ p w pss os p' w',
  part_counts w p pss →
  append_all payloads p w = Some (os, p', w') →
  Z.of_nat (length (concat pss)) + Z.of_nat (length payloads) < 2 ^ 63 →
  os = replicate (length payloads) 0 ∧ dir p' = dir p ∧ id p' = id p ∧
  ∃ pss', part_counts w' p' pss' ∧ concat pss' = concat pss ++ payloads ∧
          (part_full w p pss → Forall small payloads → part_full w' p' pss').
Proof.
  induction payloads as [|payload rest IH]; intros p w pss os p' w' Hinv H Hbound.
  - simpl in H. inversion H; subst. split; [done|]. split; [done|]. split; [done|].
    exists pss. rewrite app_nil_r. by split.
  - cbn [append_all] in H.
    destruct (Partition_Append payload (p, w)) as [[o|e|] [p1 w1]] eqn:H1; [|done..].
    destruct (append_all rest p1 w1) as [[[os2 p2] w2]|] eqn:H2; [|done].
    inversion H; subst; clear H.
    destruct (Partition_Append_fields _ _ _ _ _ _ H1) as [Hd1 Hi1].
    cbn [length] in Hbound.
    apply (Partition_Append_inv _ _ pss) in H1 as (-> & _ & pss1 & Hinv1 & Hc1 & Hf1);
      [|done|lia].
    apply (IH _ _ pss1) in H2 as (-> & Hd2 & Hi2 & pss2 & Hinv2 & Hc2 & Hf2); [|done|].
    2: { rewrite Hc1, length_app. simpl. lia. }
    split; [done|]. split; [congruence|]. split; [congruence|].
    exists pss2. split; [done|]. split.
    + rewrite Hc2, Hc1, <- app_assoc. done.
    + intros Hfull Hsmall. apply Forall_cons in Hsmall as [Hs1 Hs2]. auto.
Qed.

(** ** Reading a log file *)

Lemma io_ReadFull_at f w c data pre bs rest :
  reading f data c w → data = pre ++ bs ++ rest → length pre = c →
  ∃ w', io_ReadFull f (length bs) w = (Ok bs, w') ∧ reading f data (c + length bs) w'.
Proof.
  intros (Hfl & Hfs & Hfd) -> Hc. unfold io_ReadFull.
  destruct (length bs) as [|n] eqn:En.
  { apply length_zero_iff_nil in En as ->. exists w. split; [done|].
    split; [done|]. split; [done|]. by rewrite Hfd, Nat.add_0_r. }
  rewrite Hfd. unfold next_fault. rewrite Hfl. cbn [hd tl]. cbv zeta.
  assert (Hgot : take (S n) (drop c (content (mkWorld (fs w) (fds w) (nextFd w) []) f))
                 = bs).
  { unfold content. simpl. rewrite Hfs. simpl. rewrite <- Hc.
    rewrite drop_app_length, <- En. by rewrite take_app_length. }
  rewrite Hgot. rewrite decide_True by done.
  eexists. split; [done|]. split; [done|]. split; [done|].
  simpl. rewrite lookup_insert_eq. by rewrite En.
Qed.

Lemma read_body_frame target s w c data pre offset payload rest :
  reading (logFile s) data c w →
  data = pre ++ frame offset payload ++ rest → length pre = c →
  - 2 ^ 63 ≤ offset < 2 ^ 63 → small payload →
  ∃ w', reading (logFile s) data (c + length (frame offset payload)) w' ∧
        read_body target () (s, w)
        = (if decide (offset = target) then Ok (inr (mkLogEntry offset payload))
           else if target <? offset then Err (ErrOffsetNotFound target)
           else Ok (inl ()), (s, w')).
Proof.
  intros Hr -> Hc Hoff Hsmall. unfold frame in *. rewrite <- !app_assoc in *.
  unfold small in Hsmall. assert (0 ≤ len payload) by (unfold len; lia).
  destruct (io_ReadFull_at _ _ _ _ pre (be_bytes 8 offset) _ Hr eq_refl Hc) as (w1 & E1 & Hr1).
  destruct (io_ReadFull_at _ _ _ _ (pre ++ be_bytes 8 offset)
              (be_bytes 4 (int32 (len payload)))
              (be_bytes 4 (ChecksumIEEE payload) ++ payload ++ rest) Hr1) as (w2 & E2 & Hr2).
  { by rewrite <- !app_assoc. }
  { rewrite length_app. lia. }
  destruct (io_ReadFull_at _ _ _ _ ((pre ++ be_bytes 8 offset) ++ be_bytes 4 (int32 (len payload)))
              (be_bytes 4 (ChecksumIEEE payload)) (payload ++ rest) Hr2) as (w3 & E3 & Hr3).
  { by rewrite <- !app_assoc. }
  { rewrite !length_app. lia. }
  destruct (io_ReadFull_at _ _ _ _
              (((pre ++ be_bytes 8 offset) ++ be_bytes 4 (int32 (len payload)))
               ++ be_bytes 4 (ChecksumIEEE payload))
              payload rest Hr3) as (w4 & E4 & Hr4).
  { by rewrite <- !app_assoc. }
  { rewrite !length_app. lia. }
  rewrite !length_be_bytes in *.
  exists w4. split.
  { replace (c + length (be_bytes 8 offset ++ be_bytes 4 (int32 (len payload))
                         ++ be_bytes 4 (ChecksumIEEE payload) ++ payload))%nat
      with (c + length (be_bytes 8 offset) + length (be_bytes 4 (int32 (len payload)))
            + length (be_bytes 4 (ChecksumIEEE payload)) + length payload)%nat; [done|].
    rewrite !length_app. lia. }
  unfold read_body.
  rewrite (bind_eq getS _ (s, w) s (s, w)) by done.
  rewrite (bind_eq _ _ (s, w) (be_bytes 8 offset) (s, w1)) by (unfold sys; by rewrite E1).
  rewrite (bind_eq _ _ (s, w1) (be_bytes 4 (int32 (len payload))) (s, w2))
    by (unfold sys; by rewrite E2).
  rewrite (bind_eq _ _ (s, w2) (be_bytes 4 (ChecksumIEEE payload)) (s, w3))
    by (unfold sys; by rewrite E3).
  rewrite be_int64_be_bytes by done.
  rewrite int32_small by lia. rewrite be_int32_be_bytes by lia.
  replace (len payload <? 0) with false by (symmetry; apply Z.ltb_ge; lia).
  replace (Z.to_nat (len payload)) with (length payload) by (unfold len; lia).
  rewrite (bind_eq _ _ (s, w3) payload (s, w4)) by (unfold sys; by rewrite E4).
  destruct (decide (offset = target)); [done|].
  destruct (target <? offset); done.
Qed.
Lemma frames_split base ps k p :
  ps !! k = Some p →
  frames base ps
  = frames base (take k ps) ++ frame (base + Z.of_nat k) p
    ++ frames (base + Z.of_nat (S k)) (drop (S k) ps).
Proof.
  intros Hk. rewrite <- (take_drop_middle ps k p Hk) at 1.
  assert (Hlen : length (take k ps) = k).
  { apply length_take_le. apply lookup_lt_Some in Hk. lia. }
  rewrite frames_app, Hlen. cbn [frames]. do 3 f_equal. lia.
Qed.

(** The loop of [Read], started at the record [k], finds the record [r]. *)
Lemma read_loop_finds s data base ps n : ∀ k r p w fuel,
  r = (k + n)%nat → ps !! r = Some p →
  data = frames base ps →
  reading (logFile s) data (length (frames base (take k ps))) w →
  - 2 ^ 63 ≤ base → base + Z.of_nat (length ps) < 2 ^ 63 → Forall small ps →
  (n < fuel)%nat →
  ∃ w', for_loop fuel (read_body (base + Z.of_nat r)) () (s, w)
        = (Ok (mkLogEntry (base + Z.of_nat r) p), (s, w')).
Proof.
  induction n as [|n IH]; intros k r p w fuel -> Hp -> Hr Hlo Hhi Hsmall Hfuel.
  - rewrite Nat.add_0_r in *. destruct fuel as [|fuel]; [lia|].
    pose proof (lookup_lt_Some _ _ _ Hp).
    destruct (read_body_frame (base + Z.of_nat k) s w _ _ _ (base + Z.of_nat k) p _
                Hr (frames_split base ps k p Hp) eq_refl) as (w' & _ & E).
    { lia. }
    { by apply (Forall_lookup_1 _ _ _ _ Hsmall Hp). }
    rewrite decide_True in E by done.
    exists w'. rewrite for_loop_S. by rewrite (bind_eq _ _ _ _ _ E).
  - destruct fuel as [|fuel]; [lia|].
    assert (Hk : (k < length ps)%nat) by (apply lookup_lt_Some in Hp; lia).
    destruct (lookup_lt_is_Some_2 ps k Hk) as [q Hq].
    pose proof (lookup_lt_Some _ _ _ Hp).
    destruct (read_body_frame (base + Z.of_nat (k + S n)) s w _ _ _ (base + Z.of_nat k) q _
                Hr (frames_split base ps k q Hq) eq_refl) as (w1 & Hr1 & E).
    { lia. }
    { by apply (Forall_lookup_1 _ _ _ _ Hsmall Hq). }
    rewrite decide_False in E by lia.
    replace (base + Z.of_nat (k + S n) <? base + Z.of_nat k) with false in E
      by (symmetry; apply Z.ltb_ge; lia).
    rewrite for_loop_S. rewrite (bind_eq _ _ _ _ _ E).
    apply (IH (S k)); try done; [lia| |lia].
    rewrite (take_S_r _ _ _ Hq), frames_snoc.
    rewrite length_take_le by lia. by rewrite length_app.
Qed.

(** [sort.Search] returns an index just after an entry at which the
    predicate is false, or 0. *)
Lemma search_loop_spec f n fuel : ∀ i j,
  (i ≤ j)%nat → (j ≤ n)%nat →
  (i = 0%nat ∨ f (i - 1)%nat = false) →
  let r := search_loop fuel i j f in
  (r ≤ n)%nat ∧ (r = 0%nat ∨ f (r - 1)%nat = false).
Proof.
  induction fuel as [|fuel IH]; intros i j Hij Hjn Hi; cbn [search_loop].
  - split; [lia|done].
  - destruct (i <? j)%nat eqn:Hlt; [|split; [lia|done]].
    apply Nat.ltb_lt in Hlt.
    assert (Hh : (i ≤ (i + j) / 2 < j)%nat).
    { split; [apply Nat.div_le_lower_bound; lia|apply Nat.Div0.div_lt_upper_bound; lia]. }
    destruct (f ((i + j) / 2)%nat) eqn:Hf; cbn [negb].
    + apply IH; [lia|lia|done].
    + apply IH; [lia|lia|]. right. by replace ((i + j) / 2 + 1 - 1)%nat with ((i + j) / 2)%nat by lia.
Qed.

Lemma findPosition_spec s ps r :
  index_ok (baseOffset s) ps (indexEntries s) →
  (r < length ps)%nat → Z.of_nat r < 2 ^ 31 →
  ∃ k, (k ≤ r)%nat ∧
       findPosition s (baseOffset s + Z.of_nat r)
       = len (frames (baseOffset s) (take k ps)).
Proof.
  intros (Hent & _ & _) Hr Hr31. unfold findPosition.
  replace (baseOffset s + Z.of_nat r - baseOffset s) with (Z.of_nat r) by lia.
  rewrite int64_small, int32_small by lia.
  set (f := λ i : nat, match indexEntries s !! i with
                       | Some e => Z.of_nat r <? RelativeOffset e
                       | None => false
                       end).
  destruct (search_loop_spec f (length (indexEntries s)) (length (indexEntries s)) 0
              (length (indexEntries s)) ltac:(lia) ltac:(lia) ltac:(by left)) as [Hn Hf].
  fold (sort_Search (length (indexEntries s)) f) in Hn, Hf.
  destruct (sort_Search (length (indexEntries s)) f) as [|i].
  - exists 0%nat. split; [lia|done].
  - destruct Hf as [?|Hf]; [done|].
    replace (S i - 1)%nat with i in Hf by lia. unfold f in Hf.
    destruct (indexEntries s !! i) as [e|] eqn:He.
    + apply Z.ltb_ge in Hf.
      destruct (Hent e) as (k & Hk1 & Hk2 & Hk3); [by eapply list_elem_of_lookup_2|].
      exists k. split; [lia|done].
    + apply lookup_ge_None in He. lia.
Qed.
Lemma File_SeekStart_reading f data pos w :
  faults w = [] → fs w !! fname f = Some data → fd f ∈ dom (fds w) → 0 ≤ pos →
  reading f data (Z.to_nat pos) (File_SeekStart f pos w).
Proof.
  intros Hfl Hfs Hd Hpos. unfold File_SeekStart.
  apply elem_of_dom in Hd as [c Hc]. rewrite Hc.
  replace (pos <? 0) with false by (symmetry; apply Z.ltb_ge; lia).
  split; [done|]. split; [done|]. simpl. by rewrite lookup_insert_eq.
Qed.

(** [Segment.Read] of an offset of the segment returns its record. *)
Lemma Segment_Read_ok d w s ps r p :
  named d s → seg_full w s ps →
  nextOffset s = baseOffset s + Z.of_nat (length ps) →
  - 2 ^ 63 ≤ baseOffset s → nextOffset s < 2 ^ 63 →
  Forall small ps → faults w = [] →
  ps !! r = Some p →
  ∃ w', Segment_Read (baseOffset s + Z.of_nat r) (s, w)
        = (Ok (mkLogEntry (baseOffset s + Z.of_nat r) p), (s, w')).
Proof.
  intros Hn (Hlog & Hsize & Hopen & Hidx & Hpos) Hnext Hlo Hhi Hsmall Hfl Hp.
  pose proof (lookup_lt_Some _ _ _ Hp) as Hr.
  assert (Hr31 : Z.of_nat r < 2 ^ 31).
  { pose proof (Hpos r Hr). pose proof (frames_length_ge (baseOffset s) (take r ps)).
    rewrite length_take_le in * by lia. unfold SegmentMaxBytes, len in *. lia. }
  destruct (findPosition_spec s ps r Hidx Hr Hr31) as (k & Hk & Hfind).
  unfold Segment_Read.
  rewrite (bind_eq getS _ (s, w) s (s, w)) by done.
  replace (baseOffset s + Z.of_nat r <? baseOffset s) with false
    by (symmetry; apply Z.ltb_ge; lia).
  replace (nextOffset s <=? baseOffset s + Z.of_nat r) with false
    by (symmetry; apply Z.leb_gt; lia).
  cbn [orb]. rewrite Hfind.
  set (w1 := File_SeekStart (logFile s) (len (frames (baseOffset s) (take k ps))) w).
  assert (Hr1 : reading (logFile s) (frames (baseOffset s) ps)
                  (length (frames (baseOffset s) (take k ps))) w1).
  { replace (length (frames (baseOffset s) (take k ps)))
      with (Z.to_nat (len (frames (baseOffset s) (take k ps)))) by (unfold len; lia).
    apply File_SeekStart_reading; try done. unfold len. lia. }
  rewrite (bind_eq _ _ (s, w) () (s, w1)) by done.
  rewrite (bind_eq getW _ (s, w1) w1 (s, w1)) by done.
  apply (read_loop_finds s (frames (baseOffset s) ps) (baseOffset s) ps (r - k) k r p w1);
    try done; [lia|lia|].
  unfold content. destruct Hr1 as (_ & -> & _). simpl.
  pose proof (frames_length_ge (baseOffset s) ps). lia.
Qed.

(** ** [Partition.Read] *)

Lemma concat_locate {A} (pss : list (list A)) : ∀ o x,
  concat pss !! o = Some x →
  ∃ i ps k, pss !! i = Some ps ∧ ps !! k = Some x ∧
            o = (length (concat (take i pss)) + k)%nat.
Proof.
  induction pss as [|ps pss IH]; intros o x Ho; [done|].
  simpl in Ho. destruct (decide (o < length ps)%nat) as [Hlt|Hge].
  - rewrite lookup_app_l in Ho by done. exists 0%nat, ps, o. by split.
  - rewrite lookup_app_r in Ho by lia.
    destruct (IH _ _ Ho) as (i & qs & k & Hi & Hk & Hsum).
    exists (S i), qs, k. split; [done|]. split; [done|].
    simpl. rewrite length_app. lia.
Qed.

Lemma read_segments_none o i segs w :
  (∀ s, s ∈ segs → ¬ (baseOffset s ≤ o < nextOffset s)) →
  read_segments o i segs w = (Err (ErrNotInPartition o i), w).
Proof.
  induction segs as [|s segs IH]; intros Hout; [done|].
  cbn [read_segments].
  destruct ((baseOffset s <=? o) && (o <? nextOffset s)) eqn:E.
  - apply andb_true_iff in E as [E1 E2]. apply Z.leb_le in E1. apply Z.ltb_lt in E2.
    exfalso. apply (Hout s); [apply list_elem_of_here|lia].
  - apply IH. intros s' Hs'. apply Hout. by apply list_elem_of_further.
Qed.

Lemma read_segments_at o i segs : ∀ n s w,
  segs !! n = Some s → baseOffset s ≤ o < nextOffset s →
  (∀ j s', (j < n)%nat → segs !! j = Some s' → ¬ (baseOffset s' ≤ o < nextOffset s')) →
  read_segments o i segs w = (let '(r, (_, w')) := Segment_Read o (s, w) in (r, w')).
Proof.
  induction segs as [|s0 segs IH]; intros n s w Hn Hin Hbefore; [done|].
  cbn [read_segments]. destruct n as [|n].
  - inversion Hn; subst s0.
    replace ((baseOffset s <=? o) && (o <? nextOffset s)) with true; [done|].
    symmetry. apply andb_true_iff. split; [apply Z.leb_le|apply Z.ltb_lt]; lia.
  - destruct ((baseOffset s0 <=? o) && (o <? nextOffset s0)) eqn:E.
    + apply andb_true_iff in E as [E1 E2]. apply Z.leb_le in E1. apply Z.ltb_lt in E2.
      exfalso. apply (Hbefore 0%nat s0); [lia|done|lia].
    + apply (IH n); [done|done|]. intros j s' Hj Hs'. apply (Hbefore (S j)); [lia|done].
Qed.

(** The offsets of the [i]-th segment. *)
Lemma part_counts_range w p pss i s ps :
  part_counts w p pss → segments p !! i = Some s → pss !! i = Some ps →
  baseOffset s = records_before i pss ∧
  nextOffset s = records_before (S i) pss ∧
  0 ≤ baseOffset s ∧ nextOffset s ≤ Z.of_nat (length (concat pss)).
Proof.
  intros (Hlen & _ & Hat & _) Hi Hp.
  destruct (Hat _ _ _ Hi Hp) as (_ & Hb & Hx & _).
  rewrite (records_before_S _ _ _ Hp), <- Hb.
  split; [done|]. split; [done|]. split; [rewrite Hb; unfold records_before; lia|].
  rewrite Hx, Hb, <- (records_before_S _ _ _ Hp), <- records_before_all.
  apply records_before_mono. apply lookup_lt_Some in Hp. lia.
Qed.

Lemma Partition_Read_outside w p pss o :
  part_counts w p pss →
  ¬ (0 ≤ o < Z.of_nat (length (concat pss))) →
  Partition_Read p o w = (Err (ErrNotInPartition o (id p)), w).
Proof.
  intros Hinv Ho. unfold Partition_Read. apply read_segments_none.
  intros s Hs Hin.
  destruct (part_counts_bases _ _ _ _ Hinv Hs) as (i & ps & Hi & Hp & _).
  destruct (part_counts_range _ _ _ _ _ _ Hinv Hi Hp) as (_ & _ & H0 & Ht). lia.
Qed.

Lemma Partition_Read_ok w p pss o x :
  part_counts w p pss → part_full w p pss →
  Forall small (concat pss) → faults w = [] →
  Z.of_nat (length (concat pss)) < 2 ^ 63 →
  concat pss !! o = Some x →
  ∃ w', Partition_Read p (Z.of_nat o) w = (Ok (mkLogEntry (Z.of_nat o) x), w').
Proof.
  intros Hinv Hfull Hsmall Hfl Hbound Ho.
  destruct (concat_locate _ _ _ Ho) as (i & ps & k & Hp & Hk & ->).
  assert (His : is_Some (segments p !! i)).
  { apply lookup_lt_is_Some. destruct Hinv as (-> & _). by eapply lookup_lt_Some. }
  destruct His as [s Hi].
  destruct (part_counts_range _ _ _ _ _ _ Hinv Hi Hp) as (Hb & Hx & H0 & Ht).
  pose proof (lookup_lt_Some _ _ _ Hk) as Hkl.
  assert (Hxx : nextOffset s = baseOffset s + Z.of_nat (length ps)).
  { rewrite Hx, Hb. by apply records_before_S. }
  assert (Hoff : Z.of_nat (length (concat (take i pss)) + k) = baseOffset s + Z.of_nat k).
  { rewrite Hb. unfold records_before. lia. }
  rewrite Hoff.
  assert (Hnamed : named (dir p) s).
  { destruct Hinv as (_ & _ & Hat & _). by eapply (Hat i s ps). }
  destruct (Segment_Read_ok (dir p) w s ps k x Hnamed (Hfull _ _ _ Hi Hp) Hxx) as (w' & E);
    [lia|lia| |done|done|].
  { apply Forall_forall. intros q Hq. rewrite Forall_forall in Hsmall. apply Hsmall.
    apply list_elem_of_In, in_concat. exists ps.
    split; apply list_elem_of_In; [by eapply list_elem_of_lookup_2|done]. }
  exists w'. unfold Partition_Read.
  rewrite (read_segments_at _ _ _ i s w Hi); [by rewrite E|lia|].
  intros j s' Hj Hs' Hin.
  assert (Hjl : (j < length pss)%nat) by (apply lookup_lt_Some in Hp; lia).
  destruct (lookup_lt_is_Some_2 pss j Hjl) as [qs Hq].
  destruct (part_counts_range _ _ _ _ _ _ Hinv Hs' Hq) as (_ & Hx' & _).
  pose proof (records_before_mono (S j) i pss ltac:(lia)). lia.
Qed.

(** ** A partition created fresh, after a run of successful appends *)

Lemma part_full_fresh dataDir topic i w p w' :
  (∀ b e, fs w !! (partition_dir dataDir topic i, b, e) = None) →
  NewPartition dataDir topic i w = (Ok p, w') →
  part_full w' p [[]].
Proof.
  intros Hf H. apply NewPartition_fresh in H as (-> & Ef & Ed); [|done].
  intros [|k] s ps Hs Hp; [|done]. simpl in *. inversion Hs; inversion Hp; subst.
  apply seg_full_fresh.
  - rewrite Ef, lookup_insert_ne by done. by rewrite lookup_insert_eq.
  - rewrite Ed. apply elem_of_union_l, elem_of_union_l. by apply elem_of_singleton.
Qed.

Lemma fresh_run_inv dataDir topic i w0 p0 w1 payloads os p w :
  (∀ b e, fs w0 !! (partition_dir dataDir topic i, b, e) = None) →
  NewPartition dataDir topic i w0 = (Ok p0, w1) →
  append_all payloads p0 w1 = Some (os, p, w) →
  Z.of_nat (length payloads) < 2 ^ 63 →
  os = replicate (length payloads) 0 ∧ id p = i ∧
  ∃ pss, part_counts w p pss ∧ concat pss = payloads ∧
         (Forall small payloads → part_full w p pss).
Proof.
  intros Hf Hnew Hrun Hbound.
  pose proof (part_counts_fresh _ _ _ _ _ _ Hf Hnew) as Hc.
  pose proof (part_full_fresh _ _ _ _ _ _ Hf Hnew) as Hfull.
  apply NewPartition_fresh in Hnew as (Hp0 & _); [|done].
  apply (append_all_inv _ _ _ [[]]) in Hrun as (-> & _ & Hid & pss & Hc' & Hcat & Hfull');
    [|done|simpl; lia].
  split; [done|]. split; [by rewrite Hid, Hp0|].
  exists pss. split; [done|]. split; [done|]. auto.
Qed.

Lemma part_counts_NextOffset w p pss :
  part_counts w p pss → Partition_NextOffset p = Z.of_nat (length (concat pss)).
Proof.
  intros Hinv. unfold Partition_NextOffset.
  destruct (list_snoc_inv pss) as (qss & ps & ->); [apply Hinv|].
  destruct (list_snoc_inv (segments p)) as (segs & a & Hs).
  { destruct Hinv as (Hlen & _). intros E. rewrite E, length_app in Hlen. simpl in Hlen. lia. }
  destruct (part_counts_active _ _ _ _ _ _ Hinv Hs) as [Hl (_ & Hb & Hx & _)].
  rewrite Hs, last_snoc, Hx, Hb, Hl. symmetry. apply records_before_snoc.
Qed.

(** ** Descriptors: what a failing call leaves open *)

Lemma keeps_files_bind {A B} (m : M (Segment * World) A) (k : A → M (Segment * World) B) :
  keeps_files m → (∀ a, keeps_files (k a)) → keeps_files (bind m k).
Proof.
  intros Hm Hk s w r s' w' H.
  apply bind_inv in H as [(a & [s1 w1] & H1 & H2)|[(e & H1 & ->)|[H1 ->]]].
  - apply Hm in H1 as (E1 & E2 & E3). apply Hk in H2 as (F1 & F2 & F3).
    split; [congruence|]. split; congruence.
  - by apply Hm in H1.
  - by apply Hm in H1.
Qed.

Lemma keeps_files_attempt {A} (m : M (Segment * World) A) :
  keeps_files m → keeps_files (attempt m).
Proof.
  intros Hm s w r s' w' H. unfold attempt in H.
  destruct (m (s, w)) as [[a|e|] [s1 w1]] eqn:E; inversion H; subst; by apply Hm in E.
Qed.

Lemma keeps_files_for_loop {L A} fuel (body : L → M (Segment * World) (L + A)) :
  (∀ l, keeps_files (body l)) → ∀ l, keeps_files (for_loop fuel body l).
Proof.
  intros Hb. induction fuel as [|fuel IH]; intros l.
  - intros s w r s' w' H. by inversion H.
  - rewrite for_loop_S. apply keeps_files_bind; [done|].
    intros [l'|a]; [apply IH|]. intros s w r s' w' H. by inversion H.
Qed.

Lemma keeps_files_pure {A} (r0 : result A) : keeps_files (λ st, (r0, st)).
Proof. intros s w r s' w' H. by inversion H. Qed.

Lemma keeps_files_getS : keeps_files getS.
Proof. intros s w r s' w' H. by inversion H. Qed.

Lemma keeps_files_getW : keeps_files getW.
Proof. intros s w r s' w' H. by inversion H. Qed.

Lemma keeps_files_read f n : keeps_files (sys (io_ReadFull f n)).
Proof.
  intros s w r s' w' H. apply sys_inv in H as [-> H].
  apply io_ReadFull_same in H as [_ E]. done.
Qed.

Lemma keeps_files_sys_ f :
  (∀ w, dom (fds (f w)) = dom (fds w)) → keeps_files (sys_ f).
Proof.
  intros Hf s w r s' w' H. destruct (sys__inv _ _ _ _ _ _ H) as (E1 & _ & E2).
  subst s' w'. split; [apply Hf|done].
Qed.

Lemma keeps_files_modS f :
  (∀ s, logFile (f s) = logFile s ∧ indexFile (f s) = indexFile s) → keeps_files (modS f).
Proof.
  intros Hf s w r s' w' H. destruct (modS_inv _ _ _ _ _ _ H) as (E1 & _ & E2).
  subst s' w'. split; [done|]. apply Hf.
Qed.

Lemma File_Truncate_dom f n w : dom (fds (File_Truncate f n w)) = dom (fds w).
Proof.
  unfold File_Truncate. destruct (fds w !! fd f); [|done]. by destruct (n <? 0).
Qed.

Lemma Segment_recover_keeps_files : keeps_files Segment_recover.
Proof.
  unfold Segment_recover.
  apply keeps_files_bind; [apply keeps_files_getS|intros s0].
  apply keeps_files_bind.
  { apply keeps_files_sys_. intros w. apply File_SeekStart_same. }
  intros _. apply keeps_files_bind; [apply keeps_files_getW|intros w1].
  apply keeps_files_bind.
  { apply keeps_files_for_loop. intros u. unfold recover_index_body.
    apply keeps_files_bind; [apply keeps_files_getS|intros s1].
    apply keeps_files_bind; [apply keeps_files_attempt, keeps_files_read|].
    intros [e|rel].
    - destruct e; apply keeps_files_pure.
    - apply keeps_files_bind; [apply keeps_files_read|intros pos].
      apply keeps_files_bind; [by apply keeps_files_modS|intros _].
      apply keeps_files_pure. }
  intros _. apply keeps_files_bind.
  { apply keeps_files_sys_. intros w. apply File_SeekStart_same. }
  intros _. apply keeps_files_bind; [apply keeps_files_getW|intros w2].
  apply keeps_files_for_loop. intros position. unfold recover_log_body.
  apply keeps_files_bind; [apply keeps_files_getS|intros s1].
  apply keeps_files_bind; [apply keeps_files_attempt, keeps_files_read|].
  intros [e|off].
  - destruct e; apply keeps_files_pure.
  - apply keeps_files_bind; [apply keeps_files_read|intros lenb].
    apply keeps_files_bind; [apply keeps_files_read|intros crcb].
    cbv zeta. destruct (_ <? 0); [apply keeps_files_pure|].
    apply keeps_files_bind; [apply keeps_files_read|intros payload].
    destruct (decide _).
    + apply keeps_files_bind; [|intros _; apply keeps_files_pure].
      apply keeps_files_sys_. intros w. apply File_Truncate_dom.
    + apply keeps_files_bind; [by apply keeps_files_modS|intros _].
      apply keeps_files_bind; [apply keeps_files_getW|intros w3].
      apply keeps_files_pure.
Qed.
Lemma os_MkdirAll_inv w r w' :
  os_MkdirAll w = (r, w') → r ≠ Panic ∧ fds w' = fds w.
Proof.
  unfold os_MkdirAll, next_fault. destruct (hd NoFault (faults w)); intros H; by inversion H.
Qed.

Lemma os_OpenFile_inv n w r w' :
  os_OpenFile n w = (r, w') →
  match r with
  | Ok f => f = mkFile (nextFd w) n ∧ fds w' = <[nextFd w := 0%nat]> (fds w)
  | Err _ => fds w' = fds w
  | Panic => False
  end.
Proof.
  unfold os_OpenFile, next_fault. destruct (hd NoFault (faults w)); intros H; by inversion H.
Qed.

Lemma File_Stat_inv f w r w' :
  File_Stat f w = (r, w') → r ≠ Panic ∧ fds w' = fds w.
Proof.
  unfold File_Stat, next_fault. destruct (fds w !! fd f); [|by intros H; inversion H].
  destruct (hd NoFault (faults w)); intros H; by inversion H.
Qed.

Lemma os_ReadDir_inv d w r w' :
  os_ReadDir d w = (r, w') → r ≠ Panic ∧ fds w' = fds w.
Proof.
  unfold os_ReadDir, next_fault. destruct (hd NoFault (faults w)); intros H; by inversion H.
Qed.

Lemma File_Close_dom f w : dom (fds (File_Close f w)) = dom (fds w) ∖ {[fd f]}.
Proof. unfold File_Close. simpl. apply dom_delete_L. Qed.

Lemma Segment_Close_dom s w :
  dom (fds (Segment_Close s w)) = dom (fds w) ∖ segment_fds s.
Proof.
  unfold Segment_Close, segment_fds. rewrite !File_Close_dom. set_solver.
Qed.

Lemma segments_fds_snoc segs s :
  segments_fds (segs ++ [s]) = segments_fds segs ∪ segment_fds s.
Proof.
  unfold segments_fds. rewrite fmap_app, union_list_app_L. simpl.
  by rewrite (right_id_L ∅ (∪)).
Qed.

Lemma close_segments_dom segs : ∀ w,
  dom (fds (foldl (λ w s, Segment_Close s w) w segs)) = dom (fds w) ∖ segments_fds segs.
Proof.
  induction segs as [|s segs IH]; intros w; simpl.
  - unfold segments_fds. simpl. set_solver.
  - rewrite IH, Segment_Close_dom. unfold segments_fds. simpl. set_solver.
Qed.

(** [NewSegment] keeps open at most the two descriptors of the segment that
    it returns, and none when it returns an error. *)
Lemma NewSegment_fds d b w r w' :
  NewSegment d b w = (r, w') →
  match r with
  | Ok s => dom (fds w') ⊆ segment_fds s ∪ dom (fds w)
  | Err _ => dom (fds w') ⊆ dom (fds w)
  | Panic => True
  end.
Proof.
  unfold NewSegment. intros H.
  apply bind_inv in H as [(u & w1 & H1 & H)|[(e & H1 & ->)|[H1 ->]]]; [| |done].
  2: { apply os_MkdirAll_inv in H1 as [_ ->]. done. }
  apply os_MkdirAll_inv in H1 as [_ E1].
  apply bind_inv in H as [(lf & w2 & H2 & H)|[(e & H2 & ->)|[H2 ->]]]; [| |done].
  2: { apply os_OpenFile_inv in H2. simpl in H2. by rewrite H2, E1. }
  apply os_OpenFile_inv in H2 as [-> E2].
  apply bind_inv in H as [(ri & w3 & H3 & H)|[(e & H3 & ->)|[H3 ->]]]; [| |done].
  2: { unfold attempt in H3. destruct (os_OpenFile _ _) as [[?|?|] ?]; done. }
  unfold attempt in H3.
  destruct (os_OpenFile (d, b, IndexExt) w2) as [ro w3'] eqn:H3'.
  apply os_OpenFile_inv in H3'.
  destruct ro as [idx|e|]; [| |done]; inversion H3; subst; clear H3.
  2: { inversion H; subst. rewrite File_Close_dom. simpl. rewrite H3', E2, E1, dom_insert_L.
       set_solver. }
  destruct H3' as [-> E3].
  apply bind_inv in H as [(rs & w4 & H4 & H)|[(e & H4 & ->)|[H4 ->]]]; [| |done].
  2: { unfold attempt in H4. destruct (File_Stat _ _) as [[?|?|] ?]; done. }
  unfold attempt in H4.
  destruct (File_Stat _ w3) as [rs' w4'] eqn:H4'.
  apply File_Stat_inv in H4' as [Hnp E4].
  destruct rs' as [sz|e|]; [| |done]; inversion H4; subst; clear H4.
  2: { inversion H; subst. rewrite !File_Close_dom. simpl.
       rewrite E4, E3, E2, E1, !dom_insert_L. set_solver. }
  destruct (Segment_recover _) as [rr [s1 w5]] eqn:Hr.
  apply Segment_recover_keeps_files in Hr as (E5 & El & Ei). simpl in El, Ei.
  destruct rr as [u'|e|]; inversion H; subst; clear H; [| |done].
  - unfold segment_fds. rewrite El, Ei. simpl.
    rewrite E5, E4, E3, E2, E1, !dom_insert_L. set_solver.
  - rewrite Segment_Close_dom. unfold segment_fds. rewrite El, Ei. simpl.
    rewrite E5, E4, E3, E2, E1, !dom_insert_L. set_solver.
Qed.

Lemma open_segments_fds d bases : ∀ segs w r w',
  open_segments d bases segs w = (r, w') →
  match r with
  | Ok segs' => dom (fds w') ⊆ segments_fds segs' ∪ dom (fds w) ∧
                segments_fds segs ⊆ segments_fds segs'
  | Err _ => dom (fds w') ⊆ dom (fds w) ∖ segments_fds segs
  | Panic => True
  end.
Proof.
  induction bases as [|b bases IH]; intros segs w r w' H.
  - inversion H; subst. split; set_solver.
  - cbn [open_segments] in H. unfold bind, attempt in H.
    destruct (NewSegment d b w) as [rn w1] eqn:Hn. apply NewSegment_fds in Hn.
    destruct rn as [s|e|]; [| |by inversion H].
    + apply IH in H. destruct r as [segs'|e|]; [| |done].
      * destruct H as [H1 H2]. rewrite segments_fds_snoc in H2. split; set_solver.
      * rewrite segments_fds_snoc in H. set_solver.
    + inversion H; subst. rewrite close_segments_dom. set_solver.
Qed.

Lemma NewPartition_fds dataDir topic i w r w' :
  NewPartition dataDir topic i w = (r, w') →
  match r with
  | Ok p => dom (fds w') ⊆ segments_fds (segments p) ∪ dom (fds w)
  | Err _ => dom (fds w') ⊆ dom (fds w)
  | Panic => True
  end.
Proof.
  unfold NewPartition, LoadSegments. intros H.
  apply bind_inv in H as [(segs & w1 & H1 & H)|[(e & H1 & ->)|[H1 ->]]]; [| |done].
  - apply bind_inv in H1 as [(files & w0 & H0 & H1)|[(e & H0 & ?)|[H0 ?]]]; [|done|done].
    apply os_ReadDir_inv in H0 as [_ E0].
    apply open_segments_fds in H1 as [H1 _]. rewrite E0 in H1.
    destruct segs as [|s segs].
    + apply bind_inv in H as [(s & w2 & H2 & H)|[(e & H2 & ->)|[H2 ->]]]; [| |done].
      * apply NewSegment_fds in H2. inversion H; subst. simpl.
        unfold segments_fds in *. simpl in *. set_solver.
      * apply NewSegment_fds in H2. unfold segments_fds in *. simpl in *. set_solver.
    + inversion H; subst. done.
  - apply bind_inv in H1 as [(files & w0 & H0 & H1)|[(e' & H0 & [= <-])|[H0 ?]]]; [| |done].
    + apply os_ReadDir_inv in H0 as [_ E0].
      apply open_segments_fds in H1. rewrite E0 in H1. set_solver.
    + apply os_ReadDir_inv in H0 as [_ E0]. by rewrite E0.
Qed.

Lemma partitions_fds_snoc ps p :
  partitions_fds (ps ++ [p]) = partitions_fds ps ∪ segments_fds (segments p).
Proof.
  unfold partitions_fds. rewrite fmap_app, union_list_app_L. simpl.
  by rewrite (right_id_L ∅ (∪)).
Qed.

Lemma close_partitions_dom ps : ∀ w,
  dom (fds (foldl (λ w p, Partition_Close p w) w ps)) = dom (fds w) ∖ partitions_fds ps.
Proof.
  induction ps as [|p ps IH]; intros w; simpl.
  - unfold partitions_fds. simpl. set_solver.
  - rewrite IH. unfold Partition_Close. rewrite close_segments_dom.
    unfold partitions_fds. simpl. set_solver.
Qed.

(** When the loop of [CreateTopic] returns an error, the partitions created
    so far are closed, and so is every descriptor opened on the way. *)
Lemma create_partitions_fds n dataDir name : ∀ i created w e w',
  create_partitions n dataDir name i created w = (Err e, w') →
  dom (fds w') ⊆ dom (fds w) ∖ partitions_fds created.
Proof.
  induction n as [|n IH]; intros i created w e w' H; [done|].
  cbn [create_partitions] in H. unfold bind, attempt in H.
  destruct (NewPartition dataDir name i w) as [rn w1] eqn:Hn. apply NewPartition_fds in Hn.
  destruct rn as [p|e1|]; [| |done].
  - apply IH in H. rewrite partitions_fds_snoc in H. set_solver.
  - inversion H; subst. rewrite close_partitions_dom. set_solver.
Qed.

(* ===================================================================== *)
(** * The loops of the model end before their fuel *)
(* ===================================================================== *)

Lemma for_loop_fuel {L A} (file : Segment → File)
    (body : L → M (Segment * World) (L + A)) :
  advances file body →
  ∀ fuel l s w,
    (length (content w (file s)) - cursor w (file s) < fuel)%nat →
    (for_loop fuel body l (s, w)).1 ≠ Err ErrFuel.
Proof.
  intros Hadv. induction fuel as [|fuel IH]; intros l s w Hm; [lia|].
  rewrite for_loop_S. unfold bind.
  destruct (body l (s, w)) as [r [s1 w1]] eqn:Hb.
  destruct (Hadv _ _ _ _ _ _ Hb) as [Hnf Hnext].
  destruct r as [[l'|a]|e|]; simpl.
  - destruct (Hnext l' eq_refl) as (Hf & Hc & Hlt & Hlen).
    apply IH. rewrite Hf, Hc. lia.
  - done.
  - intros E. apply Hnf. by inversion E.
  - done.
Qed.

Lemma io_ReadFull_inv f n w r w' :
  io_ReadFull f n w = (r, w') →
  r ≠ Err ErrFuel ∧ r ≠ Panic ∧
  content w' f = content w f ∧ (cursor w f ≤ cursor w' f)%nat ∧
  (∀ bs, r = Ok bs → n ≠ 0%nat →
         cursor w' f = (cursor w f + n)%nat ∧ (cursor w f + n ≤ length (content w f))%nat).
Proof.
  unfold io_ReadFull, next_fault, cursor. destruct n as [|n].
  { intros H. inversion H; subst. do 4 (split; [done|]). done. }
  destruct (fds w !! fd f) as [c|] eqn:E.
  2: { intros H. inversion H; subst. rewrite E. do 4 (split; [done|]). done. }
  destruct (hd NoFault (faults w)).
  2: { intros H. inversion H; subst. simpl. rewrite E. do 4 (split; [done|]). done. }
  cbv zeta. unfold content. simpl.
  set (got := take (S n) (drop c (default [] (fs w !! fname f)))).
  assert (Hgot : (length got ≤ S n)%nat) by (unfold got; rewrite length_take; lia).
  case_decide as Hl.
  - intros H. inversion H; subst. simpl. rewrite lookup_insert_eq. simpl.
    do 3 (split; [done|]). split; [lia|]. intros bs _ _. split; [lia|].
    unfold got in Hl. rewrite length_take, length_drop in Hl. lia.
  - destruct got eqn:Eg; intros H; inversion H; subst; simpl; rewrite lookup_insert_eq;
      simpl; (do 3 (split; [done|])); (split; [lia|done]).
Qed.

Lemma attempt_cases {St A} (m : M St A) st r st' :
  attempt m st = (r, st') →
  (∃ a, r = Ok (inr a) ∧ m st = (Ok a, st'))
  ∨ (∃ e, r = Ok (inl e) ∧ m st = (Err e, st'))
  ∨ (r = Panic ∧ m st = (Panic, st')).
Proof.
  unfold attempt. destruct (m st) as [[a|e|] st1]; intros H; inversion H; subst; eauto.
Qed.

Lemma read_cases {S} f n (s : S) w r s' w' :
  sys (io_ReadFull f n) (s, w) = (r, (s', w')) →
  s' = s ∧ r ≠ Err ErrFuel ∧ r ≠ Panic ∧
  content w' f = content w f ∧ (cursor w f ≤ cursor w' f)%nat ∧
  (∀ bs, r = Ok bs → n ≠ 0%nat →
         cursor w' f = (cursor w f + n)%nat ∧ (cursor w f + n ≤ length (content w f))%nat).
Proof. intros H. apply sys_inv in H as [-> H]. split; [done|]. by apply io_ReadFull_inv in H. Qed.

Lemma recover_index_body_advances : advances indexFile recover_index_body.
Proof.
  intros l s w r s' w' H. unfold recover_index_body in H.
  apply bind_inv in H as [(s0 & [s1 w1] & H0 & H)|[(e & H0 & _)|[H0 _]]]; [|done|done].
  apply getS_inv in H0 as (-> & -> & ->).
  apply bind_inv in H as [(a & [s1 w1] & H1 & H)|[(e & H1 & ->)|[H1 ->]]].
  - apply attempt_cases in H1 as [(rel & [= ->] & H1)|[(e & [= ->] & H1)|[? _]]]; [| |done].
    + apply read_cases in H1 as (-> & _ & _ & Hc1 & _ & Hok1).
      destruct (Hok1 rel eq_refl ltac:(done)) as [Hcur1 Hlen1].
      apply bind_inv in H as [(pos & [s2 w2] & H2 & H)|[(e & H2 & ->)|[H2 ->]]].
      * apply read_cases in H2 as (-> & _ & _ & Hc2 & Hm2 & _).
        apply bind_inv in H as [(u & [s3 w3] & H3 & H)|[(e & H3 & _)|[H3 _]]]; [|done|done].
        apply modS_inv in H3 as (-> & _ & ->).
        inversion H; subst. split; [done|]. intros l' _.
        split; [done|]. split; [congruence|]. lia.
      * apply read_cases in H2 as (_ & Hnf & _). split; [|done].
        intros E. apply Hnf. by inversion E.
      * apply read_cases in H2 as (_ & _ & Hnp & _). done.
    + apply read_cases in H1 as (-> & Hnf & _).
      destruct e; inversion H; subst; split; try done.
  - apply attempt_cases in H1 as [(? & ? & _)|[(? & ? & _)|[? _]]]; done.
  - apply attempt_cases in H1 as [(? & ? & _)|[(? & ? & _)|[_ H1]]]; [done|done|].
    apply read_cases in H1 as (_ & _ & Hnp & _). done.
Qed.
Lemma recover_log_body_advances : advances logFile recover_log_body.
Proof.
  intros l s w r s' w' H. unfold recover_log_body in H.
  apply bind_inv in H as [(s0 & [s1 w1] & H0 & H)|[(e & H0 & _)|[H0 _]]]; [|done|done].
  apply getS_inv in H0 as (-> & -> & ->).
  apply bind_inv in H as [(a & [s1 w1] & H1 & H)|[(e & H1 & ->)|[H1 ->]]].
  - apply attempt_cases in H1 as [(off & [= ->] & H1)|[(e & [= ->] & H1)|[? _]]]; [| |done].
    + apply read_cases in H1 as (-> & _ & _ & Hc1 & _ & Hok1).
      destruct (Hok1 off eq_refl ltac:(done)) as [Hcur1 Hlen1].
      apply bind_inv in H as [(lenb & [s2 w2] & H2 & H)|[(e & H2 & ->)|[H2 ->]]].
      2: { apply read_cases in H2 as (_ & Hnf & _). split; [|done].
           intros E. apply Hnf. by inversion E. }
      2: { apply read_cases in H2 as (_ & _ & Hnp & _). done. }
      apply read_cases in H2 as (-> & _ & _ & Hc2 & Hm2 & _).
      apply bind_inv in H as [(crcb & [s3 w3] & H3 & H)|[(e & H3 & ->)|[H3 ->]]].
      2: { apply read_cases in H3 as (_ & Hnf & _). split; [|done].
           intros E. apply Hnf. by inversion E. }
      2: { apply read_cases in H3 as (_ & _ & Hnp & _). done. }
      apply read_cases in H3 as (-> & _ & _ & Hc3 & Hm3 & _).
      cbv zeta in H. destruct (be_int32 lenb <? 0).
      { inversion H; subst. split; done. }
      apply bind_inv in H as [(payload & [s4 w4] & H4 & H)|[(e & H4 & ->)|[H4 ->]]].
      2: { apply read_cases in H4 as (_ & Hnf & _). split; [|done].
           intros E. apply Hnf. by inversion E. }
      2: { apply read_cases in H4 as (_ & _ & Hnp & _). done. }
      apply read_cases in H4 as (-> & _ & _ & Hc4 & Hm4 & _).
      destruct (decide _).
      * apply bind_inv in H as [(u & [s5 w5] & H5 & H)|[(e & H5 & _)|[H5 _]]]; [|done|done].
        inversion H; subst. split; done.
      * apply bind_inv in H as [(u & [s5 w5] & H5 & H)|[(e & H5 & _)|[H5 _]]]; [|done|done].
        apply modS_inv in H5 as (-> & _ & ->).
        apply bind_inv in H as [(w6 & [s6 w7] & H6 & H)|[(e & H6 & _)|[H6 _]]]; [|done|done].
        apply getW_inv in H6 as (-> & -> & ->).
        inversion H; subst. split; [done|]. intros l' _.
        split; [done|]. split; [congruence|]. lia.
    + apply read_cases in H1 as (-> & Hnf & _).
      destruct e; inversion H; subst; split; try done.
  - apply attempt_cases in H1 as [(? & ? & _)|[(? & ? & _)|[? _]]]; done.
  - apply attempt_cases in H1 as [(? & ? & _)|[(? & ? & _)|[_ H1]]]; [done|done|].
    apply read_cases in H1 as (_ & _ & Hnp & _). done.
Qed.

Lemma read_body_advances offset : advances logFile (read_body offset).
Proof.
  intros l s w r s' w' H. unfold read_body in H.
  apply bind_inv in H as [(s0 & [s1 w1] & H0 & H)|[(e & H0 & _)|[H0 _]]]; [|done|done].
  apply getS_inv in H0 as (-> & -> & ->).
  apply bind_inv in H as [(off & [s1 w1] & H1 & H)|[(e & H1 & ->)|[H1 ->]]].
  2: { apply read_cases in H1 as (_ & Hnf & _). split; [|done].
       intros E. apply Hnf. by inversion E. }
  2: { apply read_cases in H1 as (_ & _ & Hnp & _). done. }
  apply read_cases in H1 as (-> & _ & _ & Hc1 & _ & Hok1).
  destruct (Hok1 off eq_refl ltac:(done)) as [Hcur1 Hlen1].
  apply bind_inv in H as [(lenb & [s2 w2] & H2 & H)|[(e & H2 & ->)|[H2 ->]]].
  2: { apply read_cases in H2 as (_ & Hnf & _). split; [|done].
       intros E. apply Hnf. by inversion E. }
  2: { apply read_cases in H2 as (_ & _ & Hnp & _). done. }
  apply read_cases in H2 as (-> & _ & _ & Hc2 & Hm2 & _).
  apply bind_inv in H as [(crcb & [s3 w3] & H3 & H)|[(e & H3 & ->)|[H3 ->]]].
  2: { apply read_cases in H3 as (_ & Hnf & _). split; [|done].
       intros E. apply Hnf. by inversion E. }
  2: { apply read_cases in H3 as (_ & _ & Hnp & _). done. }
  apply read_cases in H3 as (-> & _ & _ & Hc3 & Hm3 & _).
  cbv zeta in H. destruct (be_int32 lenb <? 0).
  { inversion H; subst. split; done. }
  apply bind_inv in H as [(payload & [s4 w4] & H4 & H)|[(e & H4 & ->)|[H4 ->]]].
  2: { apply read_cases in H4 as (_ & Hnf & _). split; [|done].
       intros E. apply Hnf. by inversion E. }
  2: { apply read_cases in H4 as (_ & _ & Hnp & _). done. }
  apply read_cases in H4 as (-> & _ & _ & Hc4 & Hm4 & _).
  destruct (decide _); [inversion H; subst; split; done|].
  destruct (offset <? be_int64 off); inversion H; subst; [split; done|].
  split; [done|]. intros l' _. split; [done|]. split; [congruence|]. lia.
Qed.

Lemma recover_index_body_keeps_files u : keeps_files (recover_index_body u).
Proof.
  unfold recover_index_body.
  apply keeps_files_bind; [apply keeps_files_getS|intros s1].
  apply keeps_files_bind; [apply keeps_files_attempt, keeps_files_read|].
  intros [e|rel].
  - destruct e; apply keeps_files_pure.
  - apply keeps_files_bind; [apply keeps_files_read|intros pos].
    apply keeps_files_bind; [by apply keeps_files_modS|intros _].
    apply keeps_files_pure.
Qed.

(** [recover] never reaches the bound of its loops. *)
Lemma Segment_recover_fuel s w : (Segment_recover (s, w)).1 ≠ Err ErrFuel.
Proof.
  unfold Segment_recover, bind at 1. cbn [getS].
  unfold bind at 1. cbn [sys_].
  unfold bind at 1. cbn [getW].
  set (w1 := File_SeekStart (indexFile s) 0 w).
  unfold bind at 1.
  destruct (for_loop _ recover_index_body () (s, w1)) as [r1 [s2 w2]] eqn:E1.
  pose proof (for_loop_fuel indexFile _ recover_index_body_advances
                (S (length (content w1 (indexFile s)))) () s w1 ltac:(lia)) as Hf1.
  rewrite E1 in Hf1. simpl in Hf1.
  apply (keeps_files_for_loop _ _ recover_index_body_keeps_files) in E1 as (_ & El & _).
  destruct r1 as [u|e|]; [|by intros [= ->]|done].
  unfold bind at 1. cbn [sys_]. unfold bind at 1. cbn [getW].
  apply (for_loop_fuel logFile _ recover_log_body_advances). rewrite El. lia.
Qed.

(** [Read] never reaches the bound of its loop. *)
Lemma Segment_Read_fuel offset s w : (Segment_Read offset (s, w)).1 ≠ Err ErrFuel.
Proof.
  unfold Segment_Read, bind at 1. cbn [getS].
  destruct (_ || _); [done|].
  unfold bind at 1. cbn [sys_]. unfold bind at 1. cbn [getW].
  apply (for_loop_fuel logFile _ (read_body_advances offset)). lia.
Qed.

(** [sort.Search] ends within its bound, at an index [r] with the predicate
    false just before [r] and true at [r]. *)
Lemma sort_Search_spec n f :
  let r := sort_Search n f in
  (r ≤ n)%nat ∧ (r = 0%nat ∨ f (r - 1)%nat = false) ∧ (r = n ∨ f r = true).
Proof.
  unfold sort_Search.
  assert (H : ∀ fuel i j, (i ≤ j)%nat → (j ≤ n)%nat → (j - i ≤ fuel)%nat →
            (i = 0%nat ∨ f (i - 1)%nat = false) → (j = n ∨ f j = true) →
            let r := search_loop fuel i j f in
            (r ≤ n)%nat ∧ (r = 0%nat ∨ f (r - 1)%nat = false) ∧ (r = n ∨ f r = true)).
  { induction fuel as [|fuel IH]; intros i j Hij Hjn Hfuel Hi Hj; cbn [search_loop].
    - assert (i = j) as -> by lia. split; [lia|]. by split.
    - destruct (i <? j)%nat eqn:Hlt.
      + apply Nat.ltb_lt in Hlt.
        assert (Hh : (i ≤ (i + j) / 2 < j)%nat).
        { split; [apply Nat.div_le_lower_bound; lia|apply Nat.Div0.div_lt_upper_bound; lia]. }
        destruct (f ((i + j) / 2)%nat) eqn:Hf; cbn [negb].
        * apply IH; [lia|lia|lia|done|by right].
        * apply IH; [lia|lia|lia| |done].
          right. by replace ((i + j) / 2 + 1 - 1)%nat with ((i + j) / 2)%nat by lia.
      + apply Nat.ltb_ge in Hlt. assert (i = j) as -> by lia. split; [lia|]. by split. }
  apply H; [lia|lia|lia|by left|by left].
Qed.

(* ===================================================================== *)
(** * The claims *)
(* ===================================================================== *)

(** C6, as the code has it. On a partition created in a directory without
    files, after a run of K appends, all of which succeeded (no append
    failed in between), with payloads shorter than 2^31 bytes, and when no
    system call fails during the read:
    [Partition.Read(o)] succeeds for every offset [0 <= o <= K-1], with the
    record of offset [o] and the [o]-th payload; [Partition.Read(K)] fails
    with the error of the partition, "offset K not found in partition id",
    not with the out-of-range error of [Segment.Read]. *)
Theorem Partition_Read_density dataDir topic i w0 p0 w1 payloads os p w :
  (∀ b e, fs w0 !! (partition_dir dataDir topic i, b, e) = None) →
  NewPartition dataDir topic i w0 = (Ok p0, w1) →
  append_all payloads p0 w1 = Some (os, p, w) →
  Forall small payloads →
  Z.of_nat (length payloads) < 2 ^ 63 →
  faults w = [] →
  (∀ o payload, payloads !! o = Some payload →
      (Partition_Read p (Z.of_nat o) w).1 = Ok (mkLogEntry (Z.of_nat o) payload)) ∧
  (Partition_Read p (Z.of_nat (length payloads)) w).1
    = Err (ErrNotInPartition (Z.of_nat (length payloads)) i).
Proof.
  intros Hf Hnew Hrun Hsmall Hbound Hfl.
  destruct (fresh_run_inv _ _ _ _ _ _ _ _ _ _ Hf Hnew Hrun Hbound)
    as (_ & Hid & pss & Hc & Hcat & Hfull).
  specialize (Hfull Hsmall). subst payloads. split.
  - intros o payload Ho.
    destruct (Partition_Read_ok _ _ _ _ _ Hc Hfull Hsmall Hfl Hbound Ho) as [w' ->]. done.
  - rewrite (Partition_Read_outside _ _ pss), Hid; [done|done|lia].
Qed.

Lemma Partition_Read_density_witness :
  (Partition_Read (run_appends abc).1.2 1 (run_appends abc).2).1
    = Ok (mkLogEntry 1 (bytes "bc")) ∧
  (Partition_Read (run_appends abc).1.2 3 (run_appends abc).2).1
    = Err (ErrNotInPartition 3 0).
Proof.
  destruct (Partition_Read_density "data" "events" 0 (empty_world []) (fresh_p []) (fresh_w [])
              abc (run_appends abc).1.1 (run_appends abc).1.2 (run_appends abc).2)
    as [H1 H2].
  - intros b e. apply lookup_empty.
  - vm_compute. reflexivity.
  - vm_compute. reflexivity.
  - repeat constructor.
  - vm_compute. reflexivity.
  - vm_compute. reflexivity.
  - split; [exact (H1 1%nat (bytes "bc") eq_refl)|exact H2].
Defined.

(** C6 as stated fails, in two ways. After one successful append,
    [Partition.Read(1)] returns "offset 1 not found in partition 0", which
    is not the out-of-range error. And the K appends that succeeded have to
    be all the appends there were: on [interrupted], where two appends
    succeeded and one in between failed after it had written its header,
    [NextOffset()] is 2 and [Partition.Read(1)] fails with
    [io.ErrUnexpectedEOF], without any I/O failure during the read. *)
Lemma Partition_Read_density_fails :
  ((Partition_Read (run_appends [bytes "a"]).1.2 1 (run_appends [bytes "a"]).2).1
     = Err (ErrNotInPartition 1 0)
   ∧ ¬ ∃ base next,
       (Partition_Read (run_appends [bytes "a"]).1.2 1 (run_appends [bytes "a"]).2).1
       = Err (ErrOutOfRange 1 base next))
  ∧ (interrupted_steps.*1 = [Ok 0; Err ErrIO; Ok 0]
     ∧ Partition_NextOffset interrupted.1 = 2
     ∧ faults interrupted.2 = []
     ∧ (Partition_Read interrupted.1 1 interrupted.2).1 = Err ErrUnexpectedEOF).
Proof.
  split.
  - assert (H : (Partition_Read (run_appends [bytes "a"]).1.2 1 (run_appends [bytes "a"]).2).1
                = Err (ErrNotInPartition 1 0)) by (vm_compute; reflexivity).
    split; [exact H|]. intros (base & next & H'). rewrite H in H'. discriminate.
  - split; [vm_compute; reflexivity|]. split; [vm_compute; reflexivity|].
    split; vm_compute; reflexivity.
Qed.






(** C7. Whenever [Segment.Append] returns an error, whichever write
    failed, [nextOffset] is what it was before the call. *)
Theorem Segment_Append_error_keeps_nextOffset entry s w e s' w' :
  Segment_Append entry (s, w) = (Err e, (s', w')) →
  nextOffset s' = nextOffset s.
Proof.
  intros H. apply Segment_Append_steps in H as [[? _]|[_ H]]; done.
Qed.

Lemma Segment_Append_error_keeps_nextOffset_witness :
  nextOffset (Segment_Append (mkLogEntry 0 (bytes "a")) (failing_seg, failing_w)).2.1
  = nextOffset failing_seg.
Proof.
  apply (Segment_Append_error_keeps_nextOffset (mkLogEntry 0 (bytes "a"))
           failing_seg failing_w ErrIO _
           (Segment_Append (mkLogEntry 0 (bytes "a")) (failing_seg, failing_w)).2.2).
  vm_compute. reflexivity.
Defined.

(** C8, as the code has it. On a partition created in a directory without
    files, after any run of appends that all succeeded, of payloads shorter
    than 2^31 bytes, every
    segment has at most [ceil(log_size / IndexInterval) + 1] index entries,
    where [log_size] is the size of its log file, and the relative offsets
    of its index entries are strictly increasing. *)
Theorem index_sparsity dataDir topic i w0 p0 w1 payloads os p w :
  (∀ b e, fs w0 !! (partition_dir dataDir topic i, b, e) = None) →
  NewPartition dataDir topic i w0 = (Ok p0, w1) →
  append_all payloads p0 w1 = Some (os, p, w) →
  Forall small payloads →
  Z.of_nat (length payloads) < 2 ^ 63 →
  ∀ s, s ∈ segments p →
    size s = len (content w (logFile s)) ∧
    Z.of_nat (length (indexEntries s)) ≤ ceil_div (size s) IndexInterval + 1 ∧
    (∀ j k ej ek, indexEntries s !! j = Some ej → indexEntries s !! k = Some ek →
                  (j < k)%nat → RelativeOffset ej < RelativeOffset ek).
Proof.
  intros Hf Hnew Hrun Hsmall Hbound s Hs.
  destruct (fresh_run_inv _ _ _ _ _ _ _ _ _ _ Hf Hnew Hrun Hbound)
    as (_ & _ & pss & Hc & Hcat & Hfull).
  specialize (Hfull Hsmall).
  destruct (part_counts_bases _ _ _ _ Hc Hs) as (j & ps & Hj & Hp & _).
  destruct (Hfull _ _ _ Hj Hp) as (Hlog & Hsize & _ & (Hent & Hinc & Hgap) & _).
  split; [|split; [|done]].
  - unfold content. by rewrite Hlog.
  - assert (H0 : 0 ≤ size s) by (rewrite Hsize; unfold len; lia).
    unfold ceil_div, IndexInterval in *.
    assert (Hdiv : 0 ≤ (size s + 4096 - 1) / 4096) by (apply Z.div_pos; lia).
    destruct (last (indexEntries s)) as [e|] eqn:El.
    + specialize (Hgap e eq_refl).
      destruct (Hent e) as (k & Hk1 & _ & Hk3).
      { apply last_Some in El as [l' ->]. apply elem_of_app. right. apply list_elem_of_here. }
      assert (Position e ≤ size s).
      { rewrite Hk3, Hsize. pose proof (frames_take_le (baseOffset s) ps k). unfold len. lia. }
      assert (Z.of_nat (length (indexEntries s)) - 1 ≤ (size s + 4096 - 1) / 4096); [|lia].
      apply Z.div_le_lower_bound; lia.
    + apply last_None in El. rewrite El. simpl. lia.
Qed.

Lemma index_sparsity_witness :
  Z.of_nat (length (indexEntries abc_seg)) ≤ ceil_div (size abc_seg) IndexInterval + 1.
Proof.
  apply (index_sparsity "data" "events" 0 (empty_world []) (fresh_p []) (fresh_w [])
           abc (run_appends abc).1.1 (run_appends abc).1.2 (run_appends abc).2).
  - intros b e. apply lookup_empty.
  - vm_compute. reflexivity.
  - vm_compute. reflexivity.
  - repeat constructor.
  - vm_compute. reflexivity.
  - apply (list_elem_of_lookup_2 _ 0%nat). vm_compute. reflexivity.
Defined.

(** C8 as stated fails for a segment that was opened on files: [recover]
    loads the index file as it is and cuts only the log. On [three_big],
    after a byte of the first record has changed on disk and the partition
    is opened again, the log is empty and the three index entries are still
    there. One successful append later the log has 17 bytes and the segment
    three index entries, more than [ceil(17 / 4096) + 1 = 2]. And after an
    append of 12320 bytes and one more, the relative offsets of the index
    are 0, 1, 2, 1. *)
Lemma index_after_truncating_recovery :
  (three_big.1.1 = [0; 0; 0]
   ∧ recovered.1 = Ok recovered_p
   ∧ content recovered.2 (logFile (first_seg recovered_p)) = [])
  ∧ (append_all [bytes "a"] recovered_p recovered.2 = Some (after_recovery [bytes "a"])
     ∧ size (first_seg (after_recovery [bytes "a"]).1.2) = 17
     ∧ len (content (after_recovery [bytes "a"]).2
                    (logFile (first_seg (after_recovery [bytes "a"]).1.2))) = 17
     ∧ length (indexEntries (first_seg (after_recovery [bytes "a"]).1.2)) = 3%nat
     ∧ ¬ (Z.of_nat (length (indexEntries (first_seg (after_recovery [bytes "a"]).1.2)))
          ≤ ceil_div 17 IndexInterval + 1))
  ∧ (append_all [big 12320; bytes "a"] recovered_p recovered.2
       = Some (after_recovery [big 12320; bytes "a"])
     ∧ RelativeOffset <$> indexEntries (first_seg (after_recovery [big 12320; bytes "a"]).1.2)
       = [0; 1; 2; 1]
     ∧ ¬ (∀ j k ej ek,
            indexEntries (first_seg (after_recovery [big 12320; bytes "a"]).1.2) !! j = Some ej →
            indexEntries (first_seg (after_recovery [big 12320; bytes "a"]).1.2) !! k = Some ek →
            (j < k)%nat → RelativeOffset ej < RelativeOffset ek)).
Proof.
  split; [|split].
  - split; [vm_compute; reflexivity|]. split; vm_compute; reflexivity.
  - split; [vm_compute; reflexivity|]. split; [vm_compute; reflexivity|].
    split; [vm_compute; reflexivity|]. split; [vm_compute; reflexivity|].
    vm_compute. intros H. apply H. reflexivity.
  - split; [vm_compute; reflexivity|]. split; [vm_compute; reflexivity|].
    intros H.
    specialize (H 2%nat 3%nat (mkIndexEntry 2 8224) (mkIndexEntry 1 12336)).
    assert (H' : RelativeOffset (mkIndexEntry 2 8224) < RelativeOffset (mkIndexEntry 1 12336)).
    { apply H; [vm_compute; reflexivity|vm_compute; reflexivity|lia]. }
    simpl in H'. lia.
Qed.

(** C5. [Registry.CreateTopic] fails with "topic already exists" when the
    name is registered, and leaves the registry and the world as they were.
    Whenever it returns an error the registry is unchanged (the topic is not
    inserted) and no descriptor opened during the call is still open; and
    when its loop returns an error, the files of the partitions created so
    far are closed. *)
Theorem Registry_CreateTopic_error name numPartitions r w :
  (∀ t, topics r !! name = Some t →
        Registry_CreateTopic name numPartitions (r, w)
        = (Err (ErrTopicExists name), (r, w))) ∧
  (∀ e r' w', Registry_CreateTopic name numPartitions (r, w) = (Err e, (r', w')) →
              r' = r ∧ dom (fds w') ⊆ dom (fds w)) ∧
  (∀ n i created w1 e w', 
     create_partitions n (dataDir r) name i created w1 = (Err e, w') →
     ∀ p s, p ∈ created → s ∈ segments p →
            (fd (logFile s) ∉ dom (fds w')) ∧ (fd (indexFile s) ∉ dom (fds w'))).
Proof.
  split; [|split].
  - intros t Ht. unfold Registry_CreateTopic, bind, getS. by rewrite Ht.
  - intros e r' w' H. unfold Registry_CreateTopic, bind, getS in H.
    destruct (topics r !! name) as [t|]; [by inversion H|].
    destruct (numPartitions <? 0); [done|].
    unfold sys in H.
    destruct (create_partitions _ _ _ _ _ _) as [[ps|e1|] w1] eqn:Hc; [done| |done].
    inversion H; subst. split; [done|].
    apply create_partitions_fds in Hc. set_solver.
  - intros n i created w1 e w' Hc p s Hp Hs.
    apply create_partitions_fds in Hc.
    assert (Hin : segment_fds s ⊆ partitions_fds created).
    { unfold partitions_fds, segments_fds. intros x Hx.
      apply elem_of_union_list. exists (⋃ (segment_fds <$> segments p)).
      split; [apply list_elem_of_fmap; by exists p|].
      apply elem_of_union_list. exists (segment_fds s).
      split; [apply list_elem_of_fmap; by exists s|done]. }
    unfold segment_fds in Hin. set_solver.
Qed.

Lemma Registry_CreateTopic_error_witness :
  Registry_CreateTopic "t" 2 registry_t = (Err (ErrTopicExists "t"), registry_t) ∧
  (Registry_CreateTopic "u" 2 (NewRegistry "data", second_partition_fails)).2.1
    = NewRegistry "data" ∧
  dom (fds (Registry_CreateTopic "u" 2 (NewRegistry "data", second_partition_fails)).2.2)
    ⊆ dom (fds second_partition_fails).
Proof.
  split.
  - apply (proj1 (Registry_CreateTopic_error "t" 2 registry_t.1 registry_t.2) topic_t).
    vm_compute. reflexivity.
  - apply (proj1 (proj2 (Registry_CreateTopic_error "u" 2 (NewRegistry "data")
                           second_partition_fails)) ErrIO).
    vm_compute. reflexivity.
Defined.

(** C4, as the code has it. [Registry.CreateTopic] with zero partitions and
    a name that is not registered returns no error: it registers a topic
    without partitions and leaves the world alone. The code has no check of
    the number of partitions. *)
Theorem Registry_CreateTopic_zero name r w :
  topics r !! name = None →
  Registry_CreateTopic name 0 (r, w)
  = (Ok (), (mkRegistry (dataDir r) (<[name := mkTopic name []]> (topics r)), w)).
Proof.
  intros Hn. unfold Registry_CreateTopic, bind, getS. by rewrite Hn.
Qed.

Lemma Registry_CreateTopic_zero_witness :
  Registry_CreateTopic "t" 0 (NewRegistry "data", empty_world [])
  = (Ok (), (mkRegistry "data" (<["t" := mkTopic "t" []]> ∅), empty_world [])).
Proof.
  apply (Registry_CreateTopic_zero "t" (NewRegistry "data") (empty_world [])).
  vm_compute. reflexivity.
Defined.

(** C4 as stated fails: with zero partitions the call returns no error and
    the topic is registered; with a negative number it panics. *)
Lemma Registry_CreateTopic_not_InvalidArgument :
  (Registry_CreateTopic "t" 0 (NewRegistry "data", empty_world [])).1 = Ok () ∧
  Registry_GetTopic (Registry_CreateTopic "t" 0 (NewRegistry "data", empty_world [])).2.1 "t"
    = Ok (mkTopic "t" []) ∧
  (Registry_CreateTopic "t" (-1) (NewRegistry "data", empty_world [])).1 = Panic.
Proof. split; [|split]; vm_compute; reflexivity. Qed.

(** C1: the code breaks it. Two appends to a fresh partition both succeed
    and both return 0, while the records they wrote carry the offsets 0 and
    1: [Partition.Append] returns the [Offset] of its own copy of the entry,
    which [Segment.Append] never sees. *)
Theorem Partition_Append_returns_zero :
  (run_appends [bytes "a"; bytes "b"]).1.1 = [0; 0] ∧
  fs (run_appends [bytes "a"; bytes "b"]).2 !! abc_log
    = Some (frame 0 (bytes "a") ++ frame 1 (bytes "b")) ∧
  Partition_NextOffset (run_appends [bytes "a"; bytes "b"]).1.2 = 2.
Proof. split; [|split]; vm_compute; reflexivity. Qed.

(** C2: the code breaks it. The second append returns the offset 0, and
    reading the offset 0 gives the payload of the first append; the payload
    of the second is at the offset 1. *)
Theorem Partition_Read_of_returned_offset :
  (run_appends [bytes "a"; bytes "b"]).1.1 !! 1%nat = Some 0 ∧
  (Partition_Read (run_appends [bytes "a"; bytes "b"]).1.2 0
                  (run_appends [bytes "a"; bytes "b"]).2).1
    = Ok (mkLogEntry 0 (bytes "a")) ∧
  (Partition_Read (run_appends [bytes "a"; bytes "b"]).1.2 1
                  (run_appends [bytes "a"; bytes "b"]).2).1
    = Ok (mkLogEntry 1 (bytes "b")).
Proof. split; [|split]; vm_compute; reflexivity. Qed.

(** C3: the code breaks it. A partition that holds the offsets 0, 1, 2 in a
    log file of 51 bytes reopens with [next_offset = 3]. With 16 zero bytes
    added to the log file it reopens with [next_offset = 1] and the file is
    not truncated: the zero bytes are a record of offset 0 with an empty
    payload, whose checksum is 0. With one zero byte added it does not
    open: recovery returns [io.ErrUnexpectedEOF] and truncates nothing. A
    complete record with a wrong checksum is truncated as the claim says. *)
Theorem recover_zero_tail :
  reopened_next [] = Some 3 ∧ reopened_log_size [] = 51 ∧
  reopened_next (replicate 16 x00) = Some 1 ∧ reopened_log_size (replicate 16 x00) = 67 ∧
  (reopen_with_tail [x00]).1 = Err ErrUnexpectedEOF ∧ reopened_log_size [x00] = 52 ∧
  reopened_next (be_bytes 8 3 ++ be_bytes 4 0 ++ be_bytes 4 1) = Some 3 ∧
  reopened_log_size (be_bytes 8 3 ++ be_bytes 4 0 ++ be_bytes 4 1) = 51.
Proof. repeat split; vm_compute; reflexivity. Qed.

(* ===================================================================== *)
(** * Further properties of the code *)
(* ===================================================================== *)

(** A run is the pair of its outcome and of the state that it leaves. *)
Lemma run_eta {A St} (x : result A * St) a : x.1 = a → x = (a, x.2).
Proof. destruct x. simpl. by intros ->. Qed.

Lemma run_eta2 {A S W} (x : result A * (S * W)) a : x.1 = a → x = (a, (x.2.1, x.2.2)).
Proof. destruct x as [? [? ?]]. simpl. by intros ->. Qed.

Lemma read_only_bind {A B} (m : M (Segment * World) A) (k : A → M (Segment * World) B) :
  read_only m → (∀ a, read_only (k a)) → read_only (bind m k).
Proof.
  intros Hm Hk s w r s' w' H.
  apply bind_inv in H as [(a & [s1 w1] & H1 & H2)|[(e & H1 & _)|[H1 _]]].
  - apply Hm in H1 as [-> Hs1]. apply Hk in H2 as [-> Hs2].
    split; [done|]. by eapply same_files_trans.
  - by apply Hm in H1.
  - by apply Hm in H1.
Qed.

Lemma read_only_pure {A} (r0 : result A) : read_only (λ st, (r0, st)).
Proof. intros s w r s' w' [= _ -> ->]. split; [done|apply same_files_refl]. Qed.

Lemma read_only_getS : read_only getS.
Proof. intros s w r s' w' [= _ -> ->]. split; [done|apply same_files_refl]. Qed.

Lemma read_only_getW : read_only getW.
Proof. intros s w r s' w' [= _ -> ->]. split; [done|apply same_files_refl]. Qed.

Lemma read_only_read f n : read_only (sys (io_ReadFull f n)).
Proof.
  intros s w r s' w' H. apply sys_inv in H as [-> H]. split; [done|].
  by eapply io_ReadFull_same.
Qed.

Lemma read_only_seek f pos : read_only (sys_ (File_SeekStart f pos)).
Proof.
  intros s w r s' w' H. apply sys__inv in H as (-> & _ & ->). split; [done|].
  apply File_SeekStart_same.
Qed.

Lemma read_only_for_loop {L A} fuel (body : L → M (Segment * World) (L + A)) :
  (∀ l, read_only (body l)) → ∀ l, read_only (for_loop fuel body l).
Proof.
  intros Hb. induction fuel as [|fuel IH]; intros l.
  - apply (read_only_pure (Err ErrFuel)).
  - cbn [for_loop]. apply read_only_bind; [apply Hb|].
    intros [l'|a]; [apply IH|apply (read_only_pure (Ok a))].
Qed.

Lemma read_body_read_only offset u : read_only (read_body offset u).
Proof.
  unfold read_body.
  apply read_only_bind; [apply read_only_getS|intros s1].
  apply read_only_bind; [apply read_only_read|intros off].
  apply read_only_bind; [apply read_only_read|intros lenb].
  apply read_only_bind; [apply read_only_read|intros crcb].
  cbv zeta. destruct (_ <? 0); [apply (read_only_pure Panic)|].
  apply read_only_bind; [apply read_only_read|intros payload].
  destruct (decide _); [apply read_only_pure|].
  destruct (_ <? _); apply read_only_pure.
Qed.

Lemma Segment_Read_read_only offset : read_only (Segment_Read offset).
Proof.
  unfold Segment_Read.
  apply read_only_bind; [apply read_only_getS|intros s1].
  destruct (_ || _); [apply read_only_pure|].
  apply read_only_bind; [apply read_only_seek|intros _].
  apply read_only_bind; [apply read_only_getW|intros w1].
  apply read_only_for_loop. intros u. apply read_body_read_only.
Qed.

Lemma Some_eta3 {A B C} (o : option (A * B * C)) d :
  match o with Some _ => true | None => false end = true →
  o = Some ((default d o).1.1, (default d o).1.2, (default d o).2).
Proof. destruct o as [[[? ?] ?]|]; [done|discriminate]. Qed.

Lemma restarted_fs w : fs (restarted w) = fs w.
Proof. done. Qed.

(** The runs of the examples succeed. *)
Lemma fresh_p_eta fl :
  (run_fresh fl).1 = Ok (fresh_p fl) →
  NewPartition "data" "events" 0 (empty_world fl) = (Ok (fresh_p fl), fresh_w fl).
Proof. apply run_eta. Qed.

Lemma run_appends_eta payloads :
  match append_all payloads (fresh_p []) (fresh_w []) with
  | Some _ => true
  | None => false
  end = true →
  append_all payloads (fresh_p []) (fresh_w [])
  = Some ((run_appends payloads).1.1, (run_appends payloads).1.2, (run_appends payloads).2).
Proof. apply (Some_eta3 _ ([], fresh_p [], fresh_w [])). Qed.

(** The errors of the loop of [Read] are those of its passes. *)
Lemma for_loop_result {St L A} (Q : result A → Prop) (body : L → M St (L + A)) :
  Q (Err ErrFuel) →
  (∀ l st r st', body l st = (r, st') →
     match r with
     | Ok (inl _) => True
     | Ok (inr a) => Q (Ok a)
     | Err e => Q (Err e)
     | Panic => Q Panic
     end) →
  ∀ fuel l st, Q (for_loop fuel body l st).1.
Proof.
  intros Hf Hb. induction fuel as [|fuel IH]; intros l st; [done|].
  rewrite for_loop_S. unfold bind.
  destruct (body l st) as [r st1] eqn:E. apply Hb in E.
  destruct r as [[l'|a]|e|]; simpl; [apply IH|done..].
Qed.

Lemma io_ReadFull_errors f n w e w' :
  io_ReadFull f n w = (Err e, w') →
  e = EOF ∨ e = ErrUnexpectedEOF ∨ e = ErrClosed ∨ e = ErrIO.
Proof.
  unfold io_ReadFull, next_fault. destruct n as [|n]; [done|].
  destruct (fds w !! fd f); [|intros [= <- _]; auto].
  destruct (hd NoFault (faults w)); [|intros [= <- _]; auto].
  cbv zeta. case_decide; [done|].
  destruct (take _ _); intros [= <- _]; auto.
Qed.

(** What a pass of the loop of [Read] returns: the record of the offset that
    was asked for, or one of the errors of reading, or "not found". *)
Lemma read_body_result offset u s w r st :
  read_body offset u (s, w) = (r, st) →
  match r with
  | Ok (inl _) => True
  | Ok (inr e) => Offset e = offset
  | Err e => e = EOF ∨ e = ErrUnexpectedEOF ∨ e = ErrClosed ∨ e = ErrIO
             ∨ e = ErrOffsetNotFound offset
  | Panic => True
  end.
Proof.
  unfold read_body. intros H. destruct st as [s9 w9].
  apply bind_inv in H as [(s0 & [s1 w1] & H0 & H)|[(e & H0 & _)|[H0 _]]]; [|done|done].
  apply getS_inv in H0 as (-> & -> & ->).
  apply bind_inv in H as [(off & [s1 w1] & H1 & H)|[(e & H1 & ->)|[H1 ->]]]; [| |done].
  2: { apply sys_inv in H1 as [_ H1]. apply io_ReadFull_errors in H1. tauto. }
  apply bind_inv in H as [(lenb & [s2 w2] & H2 & H)|[(e & H2 & ->)|[H2 ->]]]; [| |done].
  2: { apply sys_inv in H2 as [_ H2]. apply io_ReadFull_errors in H2. tauto. }
  apply bind_inv in H as [(crcb & [s3 w3] & H3 & H)|[(e & H3 & ->)|[H3 ->]]]; [| |done].
  2: { apply sys_inv in H3 as [_ H3]. apply io_ReadFull_errors in H3. tauto. }
  cbv zeta in H. destruct (be_int32 lenb <? 0); [by inversion H|].
  apply bind_inv in H as [(payload & [s4 w4] & H4 & H)|[(e & H4 & ->)|[H4 ->]]]; [| |done].
  2: { apply sys_inv in H4 as [_ H4]. apply io_ReadFull_errors in H4. tauto. }
  destruct (decide _) as [Heq|]; [by inversion H|].
  destruct (offset <? be_int64 off); inversion H; subst; [tauto|done].
Qed.

(** What [Read] returns for an offset in the range of the segment. *)
Lemma Segment_Read_in_range offset s w r st :
  Segment_Read offset (s, w) = (r, st) →
  baseOffset s ≤ offset < nextOffset s →
  match r with
  | Ok e => Offset e = offset
  | Err e => e = EOF ∨ e = ErrUnexpectedEOF ∨ e = ErrClosed ∨ e = ErrIO
             ∨ e = ErrOffsetNotFound offset
  | Panic => True
  end.
Proof.
  intros H Hin.
  pose proof (Segment_Read_fuel offset s w) as Hfuel. rewrite H in Hfuel. simpl in Hfuel.
  unfold Segment_Read, bind at 1 in H. cbn [getS] in H.
  destruct (_ || _) eqn:Hc.
  { apply orb_true_iff in Hc. rewrite Z.ltb_lt, Z.leb_le in Hc. lia. }
  unfold bind at 1 in H. cbn [sys_] in H. unfold bind at 1 in H. cbn [getW] in H.
  match type of H with for_loop ?n ?b ?l ?st = _ =>
    pose proof (for_loop_result (λ r, r = Err ErrFuel ∨
       match r with
       | Ok e => Offset e = offset
       | Err e => e = EOF ∨ e = ErrUnexpectedEOF ∨ e = ErrClosed ∨ e = ErrIO
                  ∨ e = ErrOffsetNotFound offset
       | Panic => True
       end) b) as Hres;
    specialize (Hres (or_introl eq_refl)); specialize (λ Hb, Hres Hb n l st)
  end.
  rewrite H in Hres. simpl in Hres.
  destruct Hres as [Hres|Hres]; [|done|done].
  intros l [s1 w1] r1 st' Hb. apply read_body_result in Hb.
  destruct r1 as [[?|?]|?|]; auto.
Qed.

Lemma Segment_Read_outside offset s w :
  offset < baseOffset s ∨ nextOffset s ≤ offset →
  Segment_Read offset (s, w)
  = (Err (ErrOutOfRange offset (baseOffset s) (nextOffset s)), (s, w)).
Proof.
  intros Hc. unfold Segment_Read, bind at 1. cbn [getS].
  destruct (_ || _) eqn:Hb; [done|].
  apply orb_false_iff in Hb. rewrite Z.ltb_ge, Z.leb_gt in Hb. lia.
Qed.

(** X1. [Segment.Read] leaves the segment, the files and the set of open
    descriptors as they were. For an offset outside
    [[baseOffset, nextOffset)] it returns the out-of-range error without
    touching the world. For an offset inside, whatever the log file holds, a
    record that it returns has the offset that was asked for, and an error
    that it returns is an error of reading or "offset not found". *)
Theorem Segment_Read_outcome offset s w r s' w' :
  Segment_Read offset (s, w) = (r, (s', w')) →
  s' = s ∧ fs w' = fs w ∧ dom (fds w') = dom (fds w) ∧
  (offset < baseOffset s ∨ nextOffset s ≤ offset →
     r = Err (ErrOutOfRange offset (baseOffset s) (nextOffset s)) ∧ w' = w) ∧
  (baseOffset s ≤ offset < nextOffset s →
     match r with
     | Ok e => Offset e = offset
     | Err e => e = EOF ∨ e = ErrUnexpectedEOF ∨ e = ErrClosed ∨ e = ErrIO
                ∨ e = ErrOffsetNotFound offset
     | Panic => True
     end).
Proof.
  intros H.
  destruct (Segment_Read_read_only _ _ _ _ _ _ H) as (-> & Hfs & Hdom).
  do 3 (split; [done|]). split.
  - intros Hc. rewrite (Segment_Read_outside _ _ _ Hc) in H. by inversion H.
  - by eapply Segment_Read_in_range.
Qed.

Lemma Segment_Read_outcome_witness :
  (Segment_Read 3 (abc_seg, (run_appends abc).2)).1 = Err (ErrOutOfRange 3 0 3).
Proof.
  destruct (Segment_Read_outcome 3 abc_seg (run_appends abc).2
              (Segment_Read 3 (abc_seg, (run_appends abc).2)).1
              (Segment_Read 3 (abc_seg, (run_appends abc).2)).2.1
              (Segment_Read 3 (abc_seg, (run_appends abc).2)).2.2) as (_ & _ & _ & H & _).
  - by apply run_eta2.
  - apply H. change (nextOffset abc_seg) with 3. lia.
Defined.

Lemma read_segments_outcome offset i segs w r w' :
  read_segments offset i segs w = (r, w') →
  fs w' = fs w ∧ dom (fds w') = dom (fds w) ∧
  ((∀ s, s ∈ segs → ¬ (baseOffset s ≤ offset < nextOffset s)) →
     r = Err (ErrNotInPartition offset i) ∧ w' = w) ∧
  (∀ e, r = Ok e →
     Offset e = offset ∧ ∃ s, s ∈ segs ∧ baseOffset s ≤ offset < nextOffset s) ∧
  (∀ o b n, r ≠ Err (ErrOutOfRange o b n)).
Proof.
  induction segs as [|s segs IH]; cbn [read_segments].
  - intros [= <- <-]. do 2 (split; [done|]). split; [done|]. split; [done|]. done.
  - destruct (_ && _) eqn:Hc.
    + apply andb_true_iff in Hc. rewrite Z.leb_le, Z.ltb_lt in Hc.
      destruct (Segment_Read offset (s, w)) as [r1 [s1 w1]] eqn:E.
      intros [= <- <-].
      destruct (Segment_Read_read_only _ _ _ _ _ _ E) as (_ & Hfs & Hdom).
      pose proof (Segment_Read_in_range _ _ _ _ _ E ltac:(lia)) as Hin.
      do 2 (split; [done|]). split; [|split].
      * intros Hno. exfalso. apply (Hno s); [apply list_elem_of_here|lia].
      * intros e ->. split; [done|]. exists s. split; [apply list_elem_of_here|lia].
      * intros o b n ->. destruct Hin as [?|[?|[?|[?|?]]]]; done.
    + apply andb_false_iff in Hc. rewrite Z.leb_gt, Z.ltb_ge in Hc.
      intros H. destruct (IH H) as (Hfs & Hdom & Hno & Hok & Hnr).
      do 2 (split; [done|]). split; [|split; [|done]].
      * intros Hall. apply Hno. intros s0 Hs0. apply Hall. by apply list_elem_of_further.
      * intros e He. destruct (Hok e He) as (Ho & s0 & Hs0 & Hr). split; [done|].
        exists s0. split; [by apply list_elem_of_further|done].
Qed.

(** X2. [Partition.Read] changes no file and opens or closes no
    descriptor. For an offset that is in the range of no segment it returns
    "offset not found in partition" without touching the world. A record
    that it returns has the offset that was asked for, which is in the range
    of a segment; and it never returns the out-of-range error of
    [Segment.Read]. *)
Theorem Partition_Read_outcome p offset w r w' :
  Partition_Read p offset w = (r, w') →
  fs w' = fs w ∧ dom (fds w') = dom (fds w) ∧
  ((∀ s, s ∈ segments p → ¬ (baseOffset s ≤ offset < nextOffset s)) →
     r = Err (ErrNotInPartition offset (id p)) ∧ w' = w) ∧
  (∀ e, r = Ok e →
     Offset e = offset ∧ ∃ s, s ∈ segments p ∧ baseOffset s ≤ offset < nextOffset s) ∧
  (∀ o b n, r ≠ Err (ErrOutOfRange o b n)).
Proof. apply read_segments_outcome. Qed.

Lemma Partition_Read_outcome_witness :
  fs (Partition_Read (run_appends abc).1.2 7 (run_appends abc).2).2 = fs (run_appends abc).2.
Proof.
  apply (Partition_Read_outcome (run_appends abc).1.2 7 (run_appends abc).2
           (Partition_Read (run_appends abc).1.2 7 (run_appends abc).2).1).
  by apply run_eta.
Defined.

Lemma Registry_GetPartition_cases r topic partitionID :
  match topics r !! topic with
  | None => Registry_GetPartition r topic partitionID = Err (ErrTopicNotFound topic)
  | Some t =>
      Z.of_nat (length (Partitions t)) < 2 ^ 31 →
      Registry_GetPartition r topic partitionID
      = if decide (0 ≤ partitionID < Z.of_nat (length (Partitions t)))
        then match Partitions t !! Z.to_nat partitionID with
             | Some p => Ok p
             | None => Panic
             end
        else Err (ErrPartitionNotFound partitionID topic)
  end.
Proof.
  unfold Registry_GetPartition, Registry_GetTopic.
  destruct (topics r !! topic) as [t|]; [|done].
  intros Hlen. rewrite int32_small by lia.
  destruct (_ || _) eqn:Hc.
  - apply orb_true_iff in Hc. rewrite Z.ltb_lt, Z.leb_le in Hc.
    rewrite decide_False by lia. done.
  - apply orb_false_iff in Hc. rewrite Z.ltb_ge, Z.leb_gt in Hc.
    rewrite decide_True by lia. done.
Qed.

(** X3. [Registry.GetPartition]: "topic not found" for a name that is not
    registered; for a registered topic (of fewer than 2^31 partitions) the
    partition of that index when [0 <= partitionID < len(Partitions)], and
    "partition not found in topic" otherwise. The bounds check always
    protects the index: the call never panics. *)
Theorem Registry_GetPartition_spec r topic partitionID :
  (topics r !! topic = None →
     Registry_GetPartition r topic partitionID = Err (ErrTopicNotFound topic)) ∧
  (∀ t, topics r !! topic = Some t →
     Z.of_nat (length (Partitions t)) < 2 ^ 31 →
     (∀ p, Registry_GetPartition r topic partitionID = Ok p ↔
           0 ≤ partitionID ∧ Partitions t !! Z.to_nat partitionID = Some p) ∧
     (¬ (0 ≤ partitionID < Z.of_nat (length (Partitions t))) →
        Registry_GetPartition r topic partitionID
        = Err (ErrPartitionNotFound partitionID topic)) ∧
     Registry_GetPartition r topic partitionID ≠ Panic).
Proof.
  pose proof (Registry_GetPartition_cases r topic partitionID) as H.
  split.
  - intros Hn. by rewrite Hn in H.
  - intros t Ht Hlen. rewrite Ht in H. specialize (H Hlen). rewrite H.
    case_decide as Hd.
    + destruct (lookup_lt_is_Some_2 (Partitions t) (Z.to_nat partitionID) ltac:(lia))
        as [p Hp].
      rewrite Hp. split; [|split; [done|done]].
      intros p'. split; [intros [= ->]; split; [lia|done]|intros [_ [= ->]]; done].
    + split; [|split; [done|done]].
      intros p. split; [done|]. intros [H0 Hp]. apply lookup_lt_Some in Hp. lia.
Qed.

Lemma Registry_GetPartition_spec_witness :
  Registry_GetPartition registry_t.1 "t" 1 = Err (ErrPartitionNotFound 1 "t").
Proof.
  apply (proj1 (proj2 (proj2 (Registry_GetPartition_spec registry_t.1 "t" 1) topic_t
                               ltac:(vm_compute; reflexivity)
                               ltac:(vm_compute; reflexivity)))).
  change (length (Partitions topic_t)) with 1%nat. lia.
Defined.

Lemma open_segments_Ok_app d bases : ∀ segs w segs' w',
  open_segments d bases segs w = (Ok segs', w') →
  ∃ new, segs' = segs ++ new ∧ length new = length bases.
Proof.
  induction bases as [|b bases IH]; intros segs w segs' w' H.
  - inversion H; subst. exists []. by rewrite app_nil_r.
  - cbn [open_segments] in H. unfold bind, attempt in H.
    destruct (NewSegment d b w) as [[s|e|] w1]; [|done|done].
    apply IH in H as (new & -> & Hl). exists (s :: new).
    rewrite <- app_assoc. split; [done|]. simpl. by rewrite Hl.
Qed.

(** A partition that [NewPartition] returns has the identifier and the
    directory that were asked for, and at least one segment. *)
Lemma NewPartition_Ok dataDir topic i w p w' :
  NewPartition dataDir topic i w = (Ok p, w') →
  id p = i ∧ dir p = partition_dir dataDir topic i ∧ segments p ≠ [].
Proof.
  unfold NewPartition. intros H.
  apply bind_Ok in H as (segs & w1 & _ & H).
  destruct segs as [|s segs].
  - apply bind_Ok in H as (s & w2 & _ & H). by inversion H.
  - by inversion H.
Qed.

Lemma create_partitions_Ok n dataDir name : ∀ i created w ps w',
  create_partitions n dataDir name i created w = (Ok ps, w') →
  ∃ new, ps = created ++ new ∧ length new = n ∧
    ∀ k p, new !! k = Some p →
      id p = i + Z.of_nat k ∧ dir p = partition_dir dataDir name (i + Z.of_nat k) ∧
      segments p ≠ [].
Proof.
  induction n as [|n IH]; intros i created w ps w' H.
  - inversion H; subst. exists []. rewrite app_nil_r. split; [done|]. split; [done|].
    intros k p Hk. by rewrite lookup_nil in Hk.
  - cbn [create_partitions] in H. unfold bind, attempt in H.
    destruct (NewPartition dataDir name i w) as [[p|e|] w1] eqn:Hn; [|done|done].
    apply NewPartition_Ok in Hn as (Hid & Hdir & Hne).
    apply IH in H as (new & -> & Hl & Hall). exists (p :: new).
    rewrite <- app_assoc. split; [done|]. split; [simpl; by rewrite Hl|].
    intros [|k] q Hq; simpl in Hq.
    + inversion Hq; subst q. by rewrite Z.add_0_r.
    + destruct (Hall k q Hq) as (H1 & H2 & H3).
      replace (i + Z.of_nat (S k)) with (i + 1 + Z.of_nat k) by lia. done.
Qed.

(** X4. When [Registry.CreateTopic(name, n)] succeeds, the name was not
    registered and [n] is not negative; the other topics are as they were;
    the new topic has [n] partitions; [GetPartition(name, i)] then returns,
    for every [0 <= i < n], a partition with identifier [i] and at least
    one segment, and "partition not found" for every other [i]. *)
Theorem Registry_CreateTopic_Ok name n r w r' w' :
  Registry_CreateTopic name n (r, w) = (Ok (), (r', w')) →
  n < 2 ^ 31 →
  topics r !! name = None ∧ 0 ≤ n ∧ dataDir r' = dataDir r ∧
  (∀ other, other ≠ name → topics r' !! other = topics r !! other) ∧
  (∃ ps, topics r' !! name = Some (mkTopic name ps) ∧ Z.of_nat (length ps) = n) ∧
  (∀ i, 0 ≤ i < n →
     ∃ p, Registry_GetPartition r' name i = Ok p ∧ id p = i ∧ segments p ≠ []) ∧
  (∀ i, ¬ (0 ≤ i < n) →
     Registry_GetPartition r' name i = Err (ErrPartitionNotFound i name)).
Proof.
  intros H Hn. unfold Registry_CreateTopic, bind at 1 in H. cbn [getS] in H.
  destruct (topics r !! name) eqn:Ht; [done|].
  destruct (n <? 0) eqn:Hneg; [done|]. apply Z.ltb_ge in Hneg.
  apply bind_Ok in H as (ps & [r1 w1] & Hc & H).
  apply sys_inv in Hc as [-> Hc]. apply modS_inv in H as (-> & _ & ->).
  apply create_partitions_Ok in Hc as (new & -> & Hl & Hall). simpl in *.
  assert (Hlen : Z.of_nat (length new) = n) by lia.
  split; [done|]. split; [done|]. split; [done|].
  split; [intros other Ho; by rewrite lookup_insert_ne|].
  split; [exists new; by rewrite lookup_insert_eq|].
  split.
  - intros i Hi.
    pose proof (Registry_GetPartition_cases
                  (mkRegistry (dataDir r) (<[name := mkTopic name new]> (topics r)))
                  name i) as Hg.
    simpl in Hg. rewrite lookup_insert_eq in Hg. simpl in Hg.
    rewrite Hg by lia. rewrite decide_True by lia.
    destruct (lookup_lt_is_Some_2 new (Z.to_nat i) ltac:(lia)) as [p Hp].
    rewrite Hp. exists p. split; [done|].
    destruct (Hall _ _ Hp) as (H1 & H2 & H3). rewrite Z2Nat.id in H1 by lia.
    by rewrite H1.
  - intros i Hi.
    pose proof (Registry_GetPartition_cases
                  (mkRegistry (dataDir r) (<[name := mkTopic name new]> (topics r)))
                  name i) as Hg.
    simpl in Hg. rewrite lookup_insert_eq in Hg. simpl in Hg.
    rewrite Hg by lia. by rewrite decide_False by lia.
Qed.

Lemma Registry_CreateTopic_Ok_witness :
  ∃ p, Registry_GetPartition registry_t.1 "t" 0 = Ok p ∧ id p = 0 ∧ segments p ≠ [].
Proof.
  destruct (Registry_CreateTopic_Ok "t" 1 (NewRegistry "data") (empty_world [])
              registry_t.1 registry_t.2) as (_ & _ & _ & _ & _ & H & _).
  - apply run_eta2. vm_compute. reflexivity.
  - lia.
  - apply (H 0). lia.
Defined.

Lemma without_File_Close f w : File_Close f w = without {[fd f]} w.
Proof.
  unfold File_Close, without, set_fds. f_equal.
  apply map_eq. intros k. destruct (decide (k = fd f)) as [->|Hk].
  - rewrite lookup_delete_eq. symmetry. apply map_lookup_filter_None. right.
    intros x _. simpl. set_solver.
  - rewrite lookup_delete_ne by done.
    destruct (fds w !! k) as [x|] eqn:E.
    + symmetry. apply map_lookup_filter_Some. split; [done|]. simpl. set_solver.
    + symmetry. apply map_lookup_filter_None. by left.
Qed.

Lemma without_without X Y w : without X (without Y w) = without (Y ∪ X) w.
Proof.
  unfold without, set_fds. simpl. f_equal.
  apply map_eq. intros k.
  destruct (fds w !! k) as [x|] eqn:E.
  - destruct (decide (k ∈ Y ∪ X)) as [Hin|Hout].
    + transitivity (@None nat); [|symmetry].
      * apply map_lookup_filter_None. destruct (decide (k ∈ X)).
        -- right. intros y _. simpl. intros Hn. by apply Hn.
        -- left. apply map_lookup_filter_None. right. intros y _. simpl. set_solver.
      * apply map_lookup_filter_None. right. intros y _. simpl. set_solver.
    + transitivity (Some x); [|symmetry].
      * apply map_lookup_filter_Some. split; [|simpl; set_solver].
        apply map_lookup_filter_Some. split; [done|simpl; set_solver].
      * apply map_lookup_filter_Some. split; [done|simpl; set_solver].
  - transitivity (@None nat); [|symmetry].
    + apply map_lookup_filter_None. left. apply map_lookup_filter_None. by left.
    + apply map_lookup_filter_None. by left.
Qed.

Lemma without_empty w : without ∅ w = w.
Proof.
  unfold without, set_fds. destruct w as [f d n fl]. simpl. f_equal.
  apply map_eq. intros k. destruct (d !! k) as [x|] eqn:E.
  - apply map_lookup_filter_Some. split; [done|]. simpl. set_solver.
  - apply map_lookup_filter_None. by left.
Qed.

Lemma without_Segment_Close s w : Segment_Close s w = without (segment_fds s) w.
Proof.
  unfold Segment_Close. by rewrite !without_File_Close, without_without.
Qed.

Lemma without_close_segments segs : ∀ w,
  foldl (λ w s, Segment_Close s w) w segs = without (segments_fds segs) w.
Proof.
  induction segs as [|s segs IH]; intros w; simpl.
  - unfold segments_fds. simpl. by rewrite without_empty.
  - rewrite IH, without_Segment_Close, without_without. done.
Qed.

Lemma without_Partition_Close p w :
  Partition_Close p w = without (segments_fds (segments p)) w.
Proof. apply without_close_segments. Qed.

Lemma without_close_partitions ps : ∀ w,
  foldl (λ w p, Partition_Close p w) w ps = without (partitions_fds ps) w.
Proof.
  induction ps as [|p ps IH]; intros w; simpl.
  - unfold partitions_fds. simpl. by rewrite without_empty.
  - rewrite IH, without_Partition_Close, without_without. done.
Qed.

Lemma without_close_topics ts : ∀ w,
  close_topics ts w = without (⋃ ((λ t, partitions_fds (Partitions t)) <$> ts)) w.
Proof.
  unfold close_topics.
  induction ts as [|t ts IH]; intros w; simpl.
  - by rewrite without_empty.
  - rewrite IH, without_close_partitions, without_without. done.
Qed.

Lemma without_lookup X w k :
  fds (without X w) !! k = if decide (k ∈ X) then None else fds w !! k.
Proof.
  unfold without. simpl. case_decide as Hk.
  - apply map_lookup_filter_None. right. intros x _. simpl. intros Hn. by apply Hn.
  - destruct (fds w !! k) as [x|] eqn:E.
    + apply map_lookup_filter_Some. done.
    + apply map_lookup_filter_None. by left.
Qed.

(** X5. [Partition.Close] and [Registry.Close] close the descriptors of
    their segments, keep the cursors of the other descriptors, and change
    nothing else in the world: no file, and none of the failures to come.
    The order in which [Registry.Close] visits the topics does not show in
    the result. *)
Theorem Close_spec :
  (∀ p w, Partition_Close p w = without (segments_fds (segments p)) w) ∧
  (∀ r w, Registry_Close r w = without (registry_fds r) w) ∧
  (∀ r w ts, ts ≡ₚ (map_to_list (topics r)).*2 → close_topics ts w = Registry_Close r w) ∧
  (∀ X w, fs (without X w) = fs w ∧ faults (without X w) = faults w ∧
          nextFd (without X w) = nextFd w ∧
          ∀ k, fds (without X w) !! k = if decide (k ∈ X) then None else fds w !! k).
Proof.
  split; [apply without_Partition_Close|].
  split; [intros r w; apply without_close_topics|].
  split.
  - intros r w ts Hp. unfold Registry_Close. rewrite !without_close_topics.
    f_equal. apply set_eq. intros x. rewrite !elem_of_union_list.
    split; intros (X & HX & Hx); exists X; (split; [|done]).
    + by rewrite <- Hp.
    + by rewrite Hp.
  - intros X w. do 3 (split; [done|]). apply without_lookup.
Qed.

Lemma Segment_Read_closed offset s w :
  fds w !! fd (logFile s) = None →
  baseOffset s ≤ offset < nextOffset s →
  Segment_Read offset (s, w) = (Err ErrClosed, (s, w)).
Proof.
  intros Hc Hin. unfold Segment_Read, bind at 1. cbn [getS].
  destruct (_ || _) eqn:Hb.
  { apply orb_true_iff in Hb. rewrite Z.ltb_lt, Z.leb_le in Hb. lia. }
  unfold bind at 1. cbn [sys_]. unfold File_SeekStart. rewrite Hc.
  unfold bind at 1. cbn [getW]. rewrite for_loop_S.
  unfold read_body, bind at 1. unfold bind at 1. cbn [getS].
  unfold bind at 1. unfold sys, io_ReadFull. by rewrite Hc.
Qed.

Lemma read_segments_closed offset i segs w :
  (∀ s, s ∈ segs → fds w !! fd (logFile s) = None) →
  (∃ s, s ∈ segs ∧ baseOffset s ≤ offset < nextOffset s) →
  read_segments offset i segs w = (Err ErrClosed, w).
Proof.
  induction segs as [|s segs IH]; intros Hc (s0 & Hs0 & Hin).
  - by apply elem_of_nil in Hs0.
  - cbn [read_segments]. destruct (_ && _) eqn:Hb.
    + apply andb_true_iff in Hb. rewrite Z.leb_le, Z.ltb_lt in Hb.
      rewrite Segment_Read_closed; [done| |lia]. apply Hc, list_elem_of_here.
    + apply andb_false_iff in Hb. rewrite Z.leb_gt, Z.ltb_ge in Hb.
      apply IH.
      * intros s1 Hs1. apply Hc. by apply list_elem_of_further.
      * apply elem_of_cons in Hs0 as [->|Hs0]; [lia|]. by exists s0.
Qed.

Lemma Segment_Append_closed entry s w :
  fds w !! fd (logFile s) = None →
  Segment_Append entry (s, w) = (Err ErrClosed, (s, w)).
Proof.
  intros Hc. unfold Segment_Append, bind at 1. cbn [getS].
  unfold bind at 1. unfold sysv, File_SeekEnd. rewrite Hc.
  unfold bind at 1. unfold sys, File_Write. by rewrite Hc.
Qed.

Lemma segment_fds_closed p w s :
  s ∈ segments p → fds (Partition_Close p w) !! fd (logFile s) = None.
Proof.
  intros Hs. rewrite without_Partition_Close, without_lookup.
  rewrite decide_True; [done|].
  unfold segments_fds. apply elem_of_union_list. exists (segment_fds s).
  split; [apply list_elem_of_fmap; by exists s|]. unfold segment_fds. set_solver.
Qed.

(** X6. A partition that was closed: [Partition.Read] of an offset in the
    range of one of its segments returns the error of a closed file, and so
    does [Partition.Append] while the active segment is below
    [SegmentMaxBytes]; neither changes the partition or the world. *)
Theorem closed_partition p w :
  (∀ offset s, s ∈ segments p → baseOffset s ≤ offset < nextOffset s →
     Partition_Read p offset (Partition_Close p w)
     = (Err ErrClosed, Partition_Close p w)) ∧
  (∀ payload a, last (segments p) = Some a → size a < SegmentMaxBytes →
     Partition_Append payload (p, Partition_Close p w)
     = (Err ErrClosed, (p, Partition_Close p w))).
Proof.
  split.
  - intros offset s Hs Hin. apply read_segments_closed.
    + intros s1 Hs1. by apply segment_fds_closed.
    + by exists s.
  - intros payload a Ha Hsz.
    unfold Partition_Append, bind at 1. cbn [getS]. rewrite Ha.
    apply Z.leb_gt in Hsz. rewrite Hsz.
    unfold bind at 1. cbn [ret]. unfold bind at 1. unfold on_active. rewrite Ha.
    rewrite Segment_Append_closed.
    2: { apply segment_fds_closed. apply last_Some in Ha as [l' ->].
         apply elem_of_app. right. apply list_elem_of_here. }
    apply last_Some in Ha as [l' Hl]. destruct p as [i d segs]. simpl in *. subst segs.
    unfold set_segments. simpl. by rewrite removelast_last.
Qed.

Lemma closed_partition_witness :
  Partition_Read (run_appends abc).1.2 1 (Partition_Close (run_appends abc).1.2 (run_appends abc).2)
  = (Err ErrClosed, Partition_Close (run_appends abc).1.2 (run_appends abc).2).
Proof.
  apply (proj1 (closed_partition (run_appends abc).1.2 (run_appends abc).2) 1 abc_seg).
  - apply (list_elem_of_lookup_2 _ 0%nat). vm_compute. reflexivity.
  - change (baseOffset abc_seg) with 0. change (nextOffset abc_seg) with 3. lia.
Defined.

Section preserves_lemmas.
Context {B : Type} (f : Segment → B).

Lemma preserves_bind {A C} (m : M (Segment * World) A) (k : A → M (Segment * World) C) :
  preserves f m → (∀ a, preserves f (k a)) → preserves f (bind m k).
Proof.
  intros Hm Hk s w r s' w' H.
  apply bind_inv in H as [(a & [s1 w1] & H1 & H2)|[(e & H1 & _)|[H1 _]]].
  - apply Hm in H1. apply Hk in H2. congruence.
  - by apply Hm in H1.
  - by apply Hm in H1.
Qed.

Lemma preserves_attempt {A} (m : M (Segment * World) A) :
  preserves f m → preserves f (attempt m).
Proof.
  intros Hm s w r s' w' H. unfold attempt in H.
  destruct (m (s, w)) as [[a|e|] [s1 w1]] eqn:E; inversion H; subst; by apply Hm in E.
Qed.

Lemma preserves_pure {A} (r0 : result A) : preserves f (λ st, (r0, st)).
Proof. by intros s w r s' w' [= _ -> _]. Qed.

Lemma preserves_getS : preserves f getS.
Proof. by intros s w r s' w' [= _ -> _]. Qed.

Lemma preserves_getW : preserves f getW.
Proof. by intros s w r s' w' [= _ -> _]. Qed.

Lemma preserves_sys {A} (m : M World A) : preserves f (sys m).
Proof. intros s w r s' w' H. by apply sys_inv in H as [-> _]. Qed.

Lemma preserves_sys_ g : preserves f (sys_ g).
Proof. intros s w r s' w' H. by apply sys__inv in H as (-> & _). Qed.

Lemma preserves_sysv {A} (g : World → A * World) : preserves f (sysv g).
Proof. intros s w r s' w' H. by apply sysv_inv in H as (-> & _). Qed.

Lemma preserves_modS g : (∀ s, f (g s) = f s) → preserves f (modS g).
Proof. intros Hg s w r s' w' H. apply modS_inv in H as (-> & _). apply Hg. Qed.

Lemma preserves_for_loop {L A} fuel (body : L → M (Segment * World) (L + A)) :
  (∀ l, preserves f (body l)) → ∀ l, preserves f (for_loop fuel body l).
Proof.
  intros Hb. induction fuel as [|fuel IH]; intros l.
  - apply (preserves_pure (Err ErrFuel)).
  - cbn [for_loop]. apply preserves_bind; [apply Hb|].
    intros [l'|a]; [apply IH|apply (preserves_pure (Ok a))].
Qed.

(** [recover] changes [nextOffset] and [indexEntries] only. *)
Lemma Segment_recover_preserves :
  (∀ s v, f (set_nextOffset v s) = f s) →
  (∀ s e, f (append_indexEntry e s) = f s) →
  preserves f Segment_recover.
Proof.
  intros Hn Hi. unfold Segment_recover.
  apply preserves_bind; [apply preserves_getS|intros s0].
  apply preserves_bind; [apply preserves_sys_|intros _].
  apply preserves_bind; [apply preserves_getW|intros w0].
  apply preserves_bind.
  { apply preserves_for_loop. intros u. unfold recover_index_body.
    apply preserves_bind; [apply preserves_getS|intros s1].
    apply preserves_bind; [apply preserves_attempt, preserves_sys|].
    intros [e|rel].
    - destruct e; apply preserves_pure.
    - apply preserves_bind; [apply preserves_sys|intros pos].
      apply preserves_bind; [apply preserves_modS; intros; apply Hi|intros _].
      apply preserves_pure. }
  intros _.
  apply preserves_bind; [apply preserves_sys_|intros _].
  apply preserves_bind; [apply preserves_getW|intros w1].
  apply preserves_for_loop. intros position. unfold recover_log_body.
  apply preserves_bind; [apply preserves_getS|intros s1].
  apply preserves_bind; [apply preserves_attempt, preserves_sys|].
  intros [e|off].
  - destruct e; apply preserves_pure.
  - apply preserves_bind; [apply preserves_sys|intros lenb].
    apply preserves_bind; [apply preserves_sys|intros crcb].
    cbv zeta. destruct (_ <? 0); [apply (preserves_pure Panic)|].
    apply preserves_bind; [apply preserves_sys|intros payload].
    destruct (decide _).
    + apply preserves_bind; [apply preserves_sys_|intros _]. apply preserves_pure.
    + apply preserves_bind; [apply preserves_modS; intros; apply Hn|intros _].
      apply preserves_bind; [apply preserves_getW|intros w2]. apply preserves_pure.
Qed.
End preserves_lemmas.

(** A segment that [NewSegment] returns has the base offset that was asked
    for and the two files of that base offset in the directory; its two
    descriptors are the ones that the call has opened; its [size] is the
    length that the log file had when it was opened. *)
Lemma NewSegment_Ok d b w s w' :
  NewSegment d b w = (Ok s, w') →
  baseOffset s = b ∧ named d s ∧
  size s = len (default [] (fs w !! (d, b, LogExt))) ∧
  dom (fds w') = segment_fds s ∪ dom (fds w).
Proof.
  unfold NewSegment. intros H.
  apply bind_Ok in H as (u & w1 & H1 & H). apply os_MkdirAll_Ok in H1 as (F1 & E1 & N1).
  apply bind_Ok in H as (lf & w2 & H2 & H).
  apply os_OpenFile_Ok in H2 as (-> & F2 & E2 & N2).
  apply bind_Ok in H as (ri & w3 & H3 & H).
  apply attempt_inv in H3. destruct ri as [e|idx]; [done|].
  apply os_OpenFile_Ok in H3 as (-> & F3 & E3 & N3).
  apply bind_Ok in H as (rs & w4 & H4 & H).
  apply attempt_inv in H4. destruct rs as [e|sz]; [done|].
  apply File_Stat_Ok in H4 as (-> & F4 & E4 & N4).
  destruct (Segment_recover _) as [rr [s1 w5]] eqn:Hr.
  destruct rr as [u'|e|]; inversion H; subst; clear H.
  pose proof (Segment_recover_preserves baseOffset ltac:(done) ltac:(done) _ _ _ _ _ Hr) as Hb.
  pose proof (Segment_recover_preserves size ltac:(done) ltac:(done) _ _ _ _ _ Hr) as Hz.
  pose proof (Segment_recover_preserves logFile ltac:(done) ltac:(done) _ _ _ _ _ Hr) as Hl.
  pose proof (Segment_recover_preserves indexFile ltac:(done) ltac:(done) _ _ _ _ _ Hr) as Hi.
  apply Segment_recover_keeps_files in Hr as (E5 & _).
  simpl in *. split; [done|]. split; [unfold named; by rewrite Hl, Hi, Hb|].
  split.
  - rewrite Hz. unfold content. simpl. rewrite F3, F2, F1.
    rewrite lookup_insert_ne by done. by rewrite lookup_insert_eq.
  - unfold segment_fds. rewrite Hl, Hi, E5, E4, E3, E2, E1. simpl.
    rewrite !dom_insert_L. set_solver.
Qed.

Lemma open_segments_bases d bases : ∀ segs w segs' w',
  open_segments d bases segs w = (Ok segs', w') →
  baseOffset <$> segs' = (baseOffset <$> segs) ++ bases ∧
  (Forall (named d) segs → Forall (named d) segs').
Proof.
  induction bases as [|b bases IH]; intros segs w segs' w' H.
  - inversion H; subst. by rewrite app_nil_r.
  - cbn [open_segments] in H. unfold bind, attempt in H.
    destruct (NewSegment d b w) as [[s|e|] w1] eqn:Hn; [|done|done].
    apply NewSegment_Ok in Hn as (Hb & Hnm & _).
    apply IH in H as [H1 H2]. rewrite fmap_app in H1. simpl in H1.
    rewrite <- app_assoc in H1. simpl in H1. rewrite Hb in H1. split; [done|].
    intros Hall. apply H2. apply Forall_app. split; [done|]. by apply Forall_singleton.
Qed.

Lemma NoDup_omap_inj {A B} (f : A → option B) (l : list A) :
  (∀ x y z, x ∈ l → y ∈ l → f x = Some z → f y = Some z → x = y) →
  NoDup l → NoDup (omap f l).
Proof.
  induction l as [|a l IH]; intros Hinj Hnd; simpl; [constructor|].
  apply NoDup_cons in Hnd as [Ha Hnd].
  assert (Hl : NoDup (omap f l)).
  { apply IH; [|done]. intros x y z Hx Hy. apply Hinj; by apply list_elem_of_further. }
  destruct (f a) as [b|] eqn:E; [|done].
  apply NoDup_cons. split; [|done].
  intros Hb. apply list_elem_of_omap in Hb as (x & Hx & Hfx).
  assert (a = x); [|by subst].
  eapply Hinj; [apply list_elem_of_here|by apply list_elem_of_further|done..].
Qed.

Lemma StronglySorted_le_lt (l : list Z) :
  StronglySorted Z.le l → NoDup l → StronglySorted Z.lt l.
Proof.
  induction 1 as [|x l Hs IH Hx]; intros Hnd; constructor.
  - apply IH. by apply NoDup_cons in Hnd as [_ ?].
  - apply NoDup_cons in Hnd as [Hni _].
    apply Forall_forall. intros y Hy.
    rewrite Forall_forall in Hx. specialize (Hx y Hy).
    assert (x ≠ y) by (by intros ->). lia.
Qed.

(** The base offsets that [LoadSegments] reads off the names of the files
    of the directory. *)
Lemma dir_bases_spec (dir : string) (m : gmap FileName (list byte)) :
  let bases := omap parse_log_name
                 (filter (λ n : FileName, n.1.1 = dir) (map_to_list m).*1) in
  NoDup bases ∧
  ∀ b, b ∈ bases ↔ - 2 ^ 63 ≤ b < 2 ^ 63 ∧ is_Some (m !! (dir, b, LogExt)).
Proof.
  set (names := filter (λ n : FileName, n.1.1 = dir) (map_to_list m).*1).
  cbv zeta. split.
  - apply NoDup_omap_inj.
    + intros [[d1 b1] e1] [[d2 b2] e2] z Hx Hy H1 H2. unfold names in Hx, Hy.
      apply list_elem_of_filter in Hx as [Hx _]. apply list_elem_of_filter in Hy as [Hy _].
      simpl in Hx, Hy. subst d1 d2. unfold parse_log_name in H1, H2. simpl in H1, H2.
      destruct e1, e2; try done. repeat case_decide; try done. congruence.
    + unfold names. apply NoDup_filter, NoDup_fst_map_to_list.
  - intros b. rewrite list_elem_of_omap. split.
    + intros ([[d b'] e] & Hin & Hp). unfold names in Hin.
      apply list_elem_of_filter in Hin as [Hd Hin]. simpl in Hd. subst d.
      unfold parse_log_name in Hp. simpl in Hp. destruct e; [|done].
      case_decide as Hr; [|done]. inversion Hp; subst b'. split; [done|].
      apply list_elem_of_fmap in Hin as ([k v] & Hk & Hin). simpl in Hk. subst k.
      apply elem_of_map_to_list in Hin. by exists v.
    + intros [Hr [v Hv]]. exists (dir, b, LogExt). split.
      * unfold names. apply list_elem_of_filter. split; [done|].
        apply list_elem_of_fmap. exists ((dir, b, LogExt), v). split; [done|].
        by apply elem_of_map_to_list.
      * unfold parse_log_name. simpl. by rewrite decide_True.
Qed.

(** The segments that [LoadSegments] returns are the segments of the
    [.log] files of the directory whose name is a 64-bit base offset, one
    for each, by strictly increasing base offset; each has the two files of
    its base offset. *)
Theorem LoadSegments_Ok dir w segs w' :
  LoadSegments dir w = (Ok segs, w') →
  StronglySorted Z.lt (baseOffset <$> segs) ∧
  (∀ b, b ∈ baseOffset <$> segs ↔
        - 2 ^ 63 ≤ b < 2 ^ 63 ∧ is_Some (fs w !! (dir, b, LogExt))) ∧
  Forall (named dir) segs.
Proof.
  unfold LoadSegments. intros H.
  apply bind_Ok in H as (files & w1 & Hd & H).
  apply os_ReadDir_Ok in Hd as (-> & _).
  apply open_segments_bases in H as [Hb Hn]. simpl in Hb.
  destruct (dir_bases_spec dir (fs w)) as [Hnd Hmem].
  rewrite Hb. split; [|split].
  - apply StronglySorted_le_lt.
    + apply StronglySorted_merge_sort; apply _.
    + by rewrite merge_sort_Permutation.
  - intros b. by rewrite merge_sort_Permutation.
  - apply Hn. constructor.
Qed.

Lemma LoadSegments_Ok_witness :
  StronglySorted Z.lt (baseOffset <$> abc_loaded).
Proof.
  apply (LoadSegments_Ok "data/events/partition0" (restarted (run_appends abc).2) abc_loaded
           (LoadSegments "data/events/partition0" (restarted (run_appends abc).2)).2).
  apply run_eta. vm_compute. reflexivity.
Defined.

Lemma io_ReadFull_at_same f w c data pre bs rest :
  reading f data c w → data = pre ++ bs ++ rest → length pre = c →
  ∃ w', io_ReadFull f (length bs) w = (Ok bs, w') ∧ reading f data (c + length bs) w' ∧
        same_files w w'.
Proof.
  intros Hr Hd Hc. destruct (io_ReadFull_at _ _ _ _ _ _ _ Hr Hd Hc) as (w' & E & Hr').
  exists w'. split; [done|]. split; [done|]. by eapply io_ReadFull_same.
Qed.

Lemma io_ReadFull_eof f w data n :
  reading f data (length data) w →
  ∃ w', io_ReadFull f (S n) w = (Err EOF, w') ∧ reading f data (length data) w' ∧
        same_files w w'.
Proof.
  intros (Hfl & Hfs & Hfd). unfold io_ReadFull. rewrite Hfd.
  unfold next_fault. rewrite Hfl. cbn [hd tl]. cbv zeta.
  unfold content. simpl. rewrite Hfs. simpl. rewrite drop_all. simpl.
  eexists. split; [done|]. split.
  - split; [done|]. split; [done|]. simpl. rewrite lookup_insert_eq. by rewrite Nat.add_0_r.
  - split; [done|]. simpl. apply dom_insert_open. by apply elem_of_dom.
Qed.

Lemma encode_index_single e :
  encode_index [e] = be_bytes 4 (RelativeOffset e) ++ be_bytes 4 (Position e).
Proof. unfold encode_index. cbn [fmap list_fmap concat]. by rewrite app_nil_r. Qed.

(** A pass of the first loop of [recover] over an entry of the index file. *)
Lemma recover_index_body_entry s w c data pre e rest :
  reading (indexFile s) data c w →
  data = pre ++ encode_index [e] ++ rest → length pre = c → entry32 e →
  ∃ w', reading (indexFile s) data (c + 8) w' ∧ same_files w w' ∧
        recover_index_body () (s, w) = (Ok (inl ()), (append_indexEntry e s, w')).
Proof.
  intros Hr -> Hc [Hrel Hpos]. rewrite encode_index_single, <- !app_assoc in *.
  destruct (io_ReadFull_at_same _ _ _ _ pre (be_bytes 4 (RelativeOffset e)) _ Hr eq_refl Hc)
    as (w1 & E1 & Hr1 & S1).
  destruct (io_ReadFull_at_same _ _ _ _ (pre ++ be_bytes 4 (RelativeOffset e))
              (be_bytes 4 (Position e)) rest Hr1) as (w2 & E2 & Hr2 & S2).
  { by rewrite <- !app_assoc. }
  { rewrite length_app. lia. }
  rewrite !length_be_bytes in *.
  exists w2. split; [by replace (c + 8)%nat with (c + 4 + 4)%nat by lia|].
  split; [by eapply same_files_trans|].
  unfold recover_index_body.
  rewrite (bind_eq getS _ (s, w) s (s, w)) by done.
  rewrite (bind_eq _ _ (s, w) (inr (be_bytes 4 (RelativeOffset e))) (s, w1))
    by (unfold attempt, sys; by rewrite E1).
  rewrite (bind_eq _ _ (s, w1) (be_bytes 4 (Position e)) (s, w2))
    by (unfold sys; by rewrite E2).
  rewrite !be_int32_be_bytes by done. by destruct e.
Qed.

Lemma recover_index_body_eof s w data :
  reading (indexFile s) data (length data) w →
  ∃ w', reading (indexFile s) data (length data) w' ∧ same_files w w' ∧
        recover_index_body () (s, w) = (Ok (inr ()), (s, w')).
Proof.
  intros Hr. destruct (io_ReadFull_eof _ _ _ 3 Hr) as (w1 & E1 & Hr1 & S1).
  exists w1. split; [done|]. split; [done|].
  unfold recover_index_body.
  rewrite (bind_eq getS _ (s, w) s (s, w)) by done.
  rewrite (bind_eq _ _ (s, w) (inl EOF) (s, w1)) by (unfold attempt, sys; by rewrite E1).
  done.
Qed.

Lemma encode_index_cons e entries :
  encode_index (e :: entries) = encode_index [e] ++ encode_index entries.
Proof. unfold encode_index. cbn [fmap list_fmap concat]. by rewrite app_nil_r. Qed.

Lemma length_encode_index entries :
  length (encode_index entries) = (8 * length entries)%nat.
Proof.
  induction entries as [|e entries IH]; [done|].
  rewrite encode_index_cons, length_app, IH, encode_index_single.
  rewrite length_app, !length_be_bytes. cbn [length]. lia.
Qed.

Lemma append_indexEntries s entries :
  foldl (λ s e, append_indexEntry e s) s entries
  = mkSegment (baseOffset s) (logFile s) (indexFile s) (size s) (nextOffset s)
              (indexEntries s ++ entries).
Proof.
  revert s. induction entries as [|e entries IH]; intros s; simpl.
  - rewrite app_nil_r. by destruct s.
  - rewrite IH. simpl. by rewrite <- app_assoc.
Qed.

(** The first loop of [recover] loads the entries of the index file. *)
Lemma recover_index_loop data entries : ∀ pre s w fuel,
  reading (indexFile s) data (length pre) w →
  data = pre ++ encode_index entries → Forall entry32 entries →
  (length entries < fuel)%nat →
  ∃ w', same_files w w' ∧ faults w' = [] ∧
        for_loop fuel recover_index_body () (s, w)
        = (Ok (), (foldl (λ s e, append_indexEntry e s) s entries, w')).
Proof.
  induction entries as [|e entries IH]; intros pre s w fuel Hr Hd H32 Hfuel.
  - destruct fuel as [|fuel]; [simpl in Hfuel; lia|].
    unfold encode_index in Hd. simpl in Hd. rewrite app_nil_r in Hd. subst data.
    destruct (recover_index_body_eof _ _ _ Hr) as (w1 & Hr1 & S1 & E).
    exists w1. split; [done|]. split; [by destruct Hr1|].
    rewrite for_loop_S. by rewrite (bind_eq _ _ _ _ _ E).
  - destruct fuel as [|fuel]; [lia|].
    apply Forall_cons in H32 as [He H32].
    rewrite encode_index_cons in Hd.
    destruct (recover_index_body_entry s w _ _ pre e (encode_index entries) Hr Hd eq_refl He)
      as (w1 & Hr1 & S1 & E).
    destruct (IH (pre ++ encode_index [e]) (append_indexEntry e s) w1 fuel)
      as (w2 & S2 & Hf2 & E2).
    + rewrite length_app, length_encode_index. simpl. exact Hr1.
    + by rewrite <- app_assoc.
    + done.
    + simpl in Hfuel. lia.
    + exists w2. split; [by eapply same_files_trans|]. split; [done|].
      rewrite for_loop_S. rewrite (bind_eq _ _ _ _ _ E). exact E2.
Qed.

Lemma frame_raw offset payload :
  frame offset payload = raw_frame offset (ChecksumIEEE payload) payload.
Proof. done. Qed.

Lemma length_raw_frame offset crc payload :
  length (raw_frame offset crc payload) = (16 + length payload)%nat.
Proof. unfold raw_frame. rewrite !length_app, !length_be_bytes. lia. Qed.

(** The four reads of a pass over a whole record. *)
Lemma read_raw_frame f w c data pre offset crc payload rest :
  reading f data c w →
  data = pre ++ raw_frame offset crc payload ++ rest → length pre = c →
  ∃ w1 w2 w3 w4,
    io_ReadFull f 8 w = (Ok (be_bytes 8 offset), w1) ∧
    io_ReadFull f 4 w1 = (Ok (be_bytes 4 (int32 (len payload))), w2) ∧
    io_ReadFull f 4 w2 = (Ok (be_bytes 4 crc), w3) ∧
    io_ReadFull f (length payload) w3 = (Ok payload, w4) ∧
    reading f data (c + length (raw_frame offset crc payload)) w4 ∧
    same_files w w4.
Proof.
  intros Hr -> Hc. unfold raw_frame in *. rewrite <- !app_assoc in *.
  destruct (io_ReadFull_at_same _ _ _ _ pre (be_bytes 8 offset) _ Hr eq_refl Hc)
    as (w1 & E1 & Hr1 & S1).
  destruct (io_ReadFull_at_same _ _ _ _ (pre ++ be_bytes 8 offset)
              (be_bytes 4 (int32 (len payload)))
              (be_bytes 4 crc ++ payload ++ rest) Hr1) as (w2 & E2 & Hr2 & S2).
  { by rewrite <- !app_assoc. }
  { rewrite length_app. lia. }
  destruct (io_ReadFull_at_same _ _ _ _
              ((pre ++ be_bytes 8 offset) ++ be_bytes 4 (int32 (len payload)))
              (be_bytes 4 crc) (payload ++ rest) Hr2) as (w3 & E3 & Hr3 & S3).
  { by rewrite <- !app_assoc. }
  { rewrite !length_app. lia. }
  destruct (io_ReadFull_at_same _ _ _ _
              (((pre ++ be_bytes 8 offset) ++ be_bytes 4 (int32 (len payload)))
               ++ be_bytes 4 crc)
              payload rest Hr3) as (w4 & E4 & Hr4 & S4).
  { by rewrite <- !app_assoc. }
  { rewrite !length_app. lia. }
  rewrite !length_be_bytes in *.
  exists w1, w2, w3, w4. do 4 (split; [done|]). split.
  - replace (c + length (be_bytes 8 offset ++ be_bytes 4 (int32 (len payload))
                         ++ be_bytes 4 crc ++ payload))%nat
      with (c + 8 + 4 + 4 + length payload)%nat; [done|].
    rewrite !length_app, !length_be_bytes. lia.
  - eapply same_files_trans; [|exact S4]. eapply same_files_trans; [|exact S3].
    by eapply same_files_trans.
Qed.

(** A pass of the second loop of [recover] over a record: with the right
    checksum the record counts, with a wrong one the file is cut where the
    record starts. *)
Lemma recover_log_body_frame position s w c data pre offset crc payload rest :
  reading (logFile s) data c w →
  data = pre ++ raw_frame offset crc payload ++ rest → length pre = c →
  - 2 ^ 63 ≤ offset < 2 ^ 63 → 0 ≤ crc < 2 ^ 32 → small payload →
  ∃ w', reading (logFile s) data (c + length (raw_frame offset crc payload)) w' ∧
        same_files w w' ∧
        recover_log_body position (s, w)
        = if decide (crc = ChecksumIEEE payload)
          then (Ok (inl (Z.of_nat (c + length (raw_frame offset crc payload)))),
                (set_nextOffset (int64 (offset + 1)) s, w'))
          else (Ok (inr ()), (s, File_Truncate (logFile s) position w')).
Proof.
  intros Hr Hd Hc Hoff Hcrc Hsmall.
  destruct (read_raw_frame _ _ _ _ _ _ _ _ _ Hr Hd Hc)
    as (w1 & w2 & w3 & w4 & E1 & E2 & E3 & E4 & Hr4 & S4).
  unfold small in Hsmall. assert (0 ≤ len payload) by (unfold len; lia).
  exists w4. split; [done|]. split; [done|].
  unfold recover_log_body.
  rewrite (bind_eq getS _ (s, w) s (s, w)) by done.
  rewrite (bind_eq _ _ (s, w) (inr (be_bytes 8 offset)) (s, w1))
    by (unfold attempt, sys; by rewrite E1).
  rewrite (bind_eq _ _ (s, w1) (be_bytes 4 (int32 (len payload))) (s, w2))
    by (unfold sys; by rewrite E2).
  rewrite (bind_eq _ _ (s, w2) (be_bytes 4 crc) (s, w3)) by (unfold sys; by rewrite E3).
  cbv zeta.
  rewrite be_int64_be_bytes by done.
  rewrite int32_small by lia. rewrite be_int32_be_bytes by lia.
  rewrite be_uint32_be_bytes by done.
  replace (len payload <? 0) with false by (symmetry; apply Z.ltb_ge; lia).
  replace (Z.to_nat (len payload)) with (length payload) by (unfold len; lia).
  rewrite (bind_eq _ _ (s, w3) payload (s, w4)) by (unfold sys; by rewrite E4).
  destruct (decide (crc = ChecksumIEEE payload)) as [Heq|Hne].
  - rewrite decide_False by (intros Hn; by apply Hn).
    unfold bind at 1. cbn [modS]. unfold bind at 1. cbn [getW ret].
    unfold File_SeekCurrent, cursor. destruct Hr4 as (_ & _ & ->). done.
  - rewrite decide_True by done. done.
Qed.

Lemma recover_log_body_eof position s w data :
  reading (logFile s) data (length data) w →
  ∃ w', reading (logFile s) data (length data) w' ∧ same_files w w' ∧
        recover_log_body position (s, w) = (Ok (inr ()), (s, w')).
Proof.
  intros Hr. destruct (io_ReadFull_eof _ _ _ 7 Hr) as (w1 & E1 & Hr1 & S1).
  exists w1. split; [done|]. split; [done|].
  unfold recover_log_body.
  rewrite (bind_eq getS _ (s, w) s (s, w)) by done.
  rewrite (bind_eq _ _ (s, w) (inl EOF) (s, w1)) by (unfold attempt, sys; by rewrite E1).
  done.
Qed.

Lemma File_Truncate_reading f data pre rest w c :
  reading f data c w → data = pre ++ rest →
  fs (File_Truncate f (Z.of_nat (length pre)) w) = <[fname f := pre]> (fs w) ∧
  fds (File_Truncate f (Z.of_nat (length pre)) w) = fds w ∧
  faults (File_Truncate f (Z.of_nat (length pre)) w) = [].
Proof.
  intros (Hfl & Hfs & Hfd) ->. unfold File_Truncate. rewrite Hfd.
  replace (Z.of_nat (length pre) <? 0) with false by (symmetry; apply Z.ltb_ge; lia).
  unfold content. rewrite Hfs. simpl. rewrite Nat2Z.id.
  rewrite take_app_length.
  replace (length pre - length (pre ++ rest))%nat with 0%nat by (rewrite length_app; lia).
  simpl. by rewrite app_nil_r.
Qed.

(** The second loop of [recover] over a log file that holds the records of
    [ps] and then either nothing or a whole record with a wrong checksum: it
    counts the records of [ps] and cuts the file after them. *)
Lemma recover_log_loop data tail : ∀ ps base pre s w fuel,
  reading (logFile s) data (length pre) w →
  data = pre ++ frames base ps ++ tail →
  nextOffset s = base →
  - 2 ^ 63 ≤ base → base + Z.of_nat (length ps) < 2 ^ 63 → Forall small ps →
  (length ps < fuel)%nat →
  tail = [] ∨
  (∃ offset crc payload rest,
     tail = raw_frame offset crc payload ++ rest ∧ crc ≠ ChecksumIEEE payload ∧
     - 2 ^ 63 ≤ offset < 2 ^ 63 ∧ 0 ≤ crc < 2 ^ 32 ∧ small payload) →
  ∃ w', for_loop fuel recover_log_body (Z.of_nat (length pre)) (s, w)
        = (Ok (), (mkSegment (baseOffset s) (logFile s) (indexFile s) (size s)
                     (base + Z.of_nat (length ps)) (indexEntries s), w')) ∧
        fs w' = <[fname (logFile s) := pre ++ frames base ps]> (fs w) ∧
        dom (fds w') = dom (fds w) ∧ faults w' = [].
Proof.
  induction ps as [|p ps IH]; intros base pre s w fuel Hr Hd Hn Hlo Hhi Hsmall Hfuel Htail.
  - destruct fuel as [|fuel]; [simpl in Hfuel; lia|].
    cbn [frames length] in *. rewrite app_nil_r, Z.add_0_r. simpl in Hd.
    assert (Hs : mkSegment (baseOffset s) (logFile s) (indexFile s) (size s) base
                   (indexEntries s) = s) by (destruct s; simpl in *; by subst).
    rewrite Hs. rewrite for_loop_S.
    destruct Htail as [->|(offset & crc & payload & rest & -> & Hne & Ho & Hc & Hp)].
    + rewrite app_nil_r in Hd. subst data.
      destruct (recover_log_body_eof (Z.of_nat (length pre)) _ _ _ Hr) as (w1 & Hr1 & S1 & E).
      exists w1. rewrite (bind_eq _ _ _ _ _ E). split; [done|].
      destruct S1 as [F1 D1]. destruct Hr as (_ & Hfs & _). destruct Hr1 as (Hf1 & _).
      split; [rewrite F1; symmetry; by apply insert_id|]. by split.
    + destruct (recover_log_body_frame (Z.of_nat (length pre)) s w _ _ pre offset crc payload
                  rest Hr Hd eq_refl Ho Hc Hp) as (w1 & Hr1 & [F1 D1] & E).
      rewrite decide_False in E by done.
      rewrite (bind_eq _ _ _ _ _ E). eexists. split; [done|].
      destruct (File_Truncate_reading _ _ pre (raw_frame offset crc payload ++ rest) _ _
                  Hr1 Hd) as (Ft & Dt & Flt).
      split; [by rewrite Ft, F1|]. split; [by rewrite Dt|done].
  - destruct fuel as [|fuel]; [lia|].
    apply Forall_cons in Hsmall as [Hp Hsmall]. cbn [frames length] in *.
    rewrite <- app_assoc in Hd. rewrite frame_raw in Hd.
    pose proof (ChecksumIEEE_range p) as Hcrc.
    destruct (recover_log_body_frame (Z.of_nat (length pre)) s w _ _ pre base _ p _
                Hr Hd eq_refl ltac:(lia) Hcrc Hp) as (w1 & Hr1 & [F1 D1] & E).
    rewrite decide_True in E by done.
    rewrite for_loop_S, (bind_eq _ _ _ _ _ E).
    rewrite <- length_app in *.
    destruct (IH (base + 1) (pre ++ raw_frame base (ChecksumIEEE p) p)
                (set_nextOffset (int64 (base + 1)) s) w1 fuel) as (w2 & E2 & F2 & D2 & Fl2);
      try done.
    + by rewrite <- app_assoc.
    + simpl. apply int64_small. lia.
    + lia.
    + lia.
    + lia.
    + exists w2. rewrite E2. simpl.
      replace (base + 1 + Z.of_nat (length ps)) with (base + Z.of_nat (S (length ps))) by lia.
      split; [done|]. split; [|split; [congruence|done]].
      rewrite F2, F1. simpl. by rewrite <- app_assoc.
Qed.

Lemma os_MkdirAll_nofault w :
  faults w = [] →
  os_MkdirAll w = (Ok (), mkWorld (fs w) (fds w) (nextFd w) []).
Proof. intros Hf. unfold os_MkdirAll, next_fault. by rewrite Hf. Qed.

Lemma os_OpenFile_nofault n w :
  faults w = [] →
  os_OpenFile n w
  = (Ok (mkFile (nextFd w) n),
     mkWorld (<[n := default [] (fs w !! n)]> (fs w)) (<[nextFd w := 0%nat]> (fds w))
             (S (nextFd w)) []).
Proof. intros Hf. unfold os_OpenFile, next_fault. by rewrite Hf. Qed.

Lemma File_Stat_nofault f w :
  faults w = [] → fd f ∈ dom (fds w) →
  File_Stat f w = (Ok (len (content w f)), mkWorld (fs w) (fds w) (nextFd w) []).
Proof.
  intros Hf Hd. unfold File_Stat, next_fault. apply elem_of_dom in Hd as [c Hc].
  by rewrite Hc, Hf.
Qed.

Lemma os_ReadDir_nofault d w :
  faults w = [] →
  os_ReadDir d w
  = (Ok (filter (λ n : FileName, n.1.1 = d) (map_to_list (fs w)).*1),
     mkWorld (fs w) (fds w) (nextFd w) []).
Proof. intros Hf. unfold os_ReadDir, next_fault. by rewrite Hf. Qed.

(** [recover] on a segment whose index file holds [entries] and whose log
    file holds the records of [ps], and then nothing or a whole record with
    a wrong checksum. *)
Lemma Segment_recover_ok s w ps tail entries :
  faults w = [] →
  fs w !! fname (logFile s) = Some (frames (baseOffset s) ps ++ tail) →
  fs w !! fname (indexFile s) = Some (encode_index entries) →
  fd (logFile s) ∈ dom (fds w) → fd (indexFile s) ∈ dom (fds w) →
  nextOffset s = baseOffset s →
  - 2 ^ 63 ≤ baseOffset s → baseOffset s + Z.of_nat (length ps) < 2 ^ 63 →
  Forall small ps → Forall entry32 entries →
  tail = [] ∨
  (∃ offset crc payload rest,
     tail = raw_frame offset crc payload ++ rest ∧ crc ≠ ChecksumIEEE payload ∧
     - 2 ^ 63 ≤ offset < 2 ^ 63 ∧ 0 ≤ crc < 2 ^ 32 ∧ small payload) →
  ∃ w', Segment_recover (s, w)
        = (Ok (), (mkSegment (baseOffset s) (logFile s) (indexFile s) (size s)
                     (baseOffset s + Z.of_nat (length ps)) (indexEntries s ++ entries),
                   w')) ∧
        fs w' = <[fname (logFile s) := frames (baseOffset s) ps]> (fs w) ∧
        dom (fds w') = dom (fds w) ∧ faults w' = [].
Proof.
  intros Hfl Hlog Hidx Hdl Hdi Hn Hlo Hhi Hsmall H32 Htail.
  unfold Segment_recover.
  rewrite (bind_eq getS _ (s, w) s (s, w)) by done.
  set (w1 := File_SeekStart (indexFile s) 0 w).
  rewrite (bind_eq _ _ (s, w) () (s, w1)) by done.
  rewrite (bind_eq getW _ (s, w1) w1 (s, w1)) by done.
  pose proof (File_SeekStart_reading _ _ 0 _ Hfl Hidx Hdi ltac:(lia)) as Hr1.
  fold w1 in Hr1. change (Z.to_nat 0) with (length (@nil byte)) in Hr1.
  pose proof (File_SeekStart_same (indexFile s) 0 w) as [F1 D1]. fold w1 in F1, D1.
  destruct (recover_index_loop (encode_index entries) entries [] s w1
              (S (length (content w1 (indexFile s)))) Hr1 eq_refl H32)
    as (w2 & [F2 D2] & Fl2 & E2).
  { unfold content. rewrite F1, Hidx. simpl. rewrite length_encode_index. lia. }
  rewrite (bind_eq _ _ _ _ _ E2). rewrite append_indexEntries.
  set (s2 := mkSegment _ _ _ _ _ _).
  set (w3 := File_SeekStart (logFile s) 0 w2).
  rewrite (bind_eq _ _ (s2, w2) () (s2, w3)) by done.
  rewrite (bind_eq getW _ (s2, w3) w3 (s2, w3)) by done.
  assert (Hlog2 : fs w2 !! fname (logFile s) = Some (frames (baseOffset s) ps ++ tail)).
  { by rewrite F2, F1. }
  assert (Hdl2 : fd (logFile s) ∈ dom (fds w2)) by (by rewrite D2, D1).
  pose proof (File_SeekStart_reading _ _ 0 _ Fl2 Hlog2 Hdl2 ltac:(lia)) as Hr3.
  fold w3 in Hr3. change (Z.to_nat 0) with (length (@nil byte)) in Hr3.
  pose proof (File_SeekStart_same (logFile s) 0 w2) as [F3 D3]. fold w3 in F3, D3.
  destruct (recover_log_loop (frames (baseOffset s) ps ++ tail) tail ps (baseOffset s) [] s2 w3
              (S (length (content w3 (logFile s)))) Hr3 eq_refl Hn Hlo Hhi Hsmall)
    as (w4 & E4 & F4 & D4 & Fl4).
  { unfold content. rewrite F3, Hlog2. simpl. rewrite length_app.
    pose proof (frames_length_ge (baseOffset s) ps). lia. }
  { done. }
  exists w4. change (Z.of_nat (length (@nil byte))) with 0 in E4. rewrite E4.
  split; [done|]. split; [|split; [congruence|done]].
  rewrite F4, F3, F2, F1. done.
Qed.

(** [NewSegment] on such files recovers the segment. *)
Lemma NewSegment_recovers d b w ps tail entries :
  faults w = [] →
  fs w !! (d, b, LogExt) = Some (frames b ps ++ tail) →
  fs w !! (d, b, IndexExt) = Some (encode_index entries) →
  - 2 ^ 63 ≤ b → b + Z.of_nat (length ps) < 2 ^ 63 →
  Forall small ps → Forall entry32 entries →
  tail = [] ∨
  (∃ offset crc payload rest,
     tail = raw_frame offset crc payload ++ rest ∧ crc ≠ ChecksumIEEE payload ∧
     - 2 ^ 63 ≤ offset < 2 ^ 63 ∧ 0 ≤ crc < 2 ^ 32 ∧ small payload) →
  ∃ w', NewSegment d b w
        = (Ok (mkSegment b (mkFile (nextFd w) (d, b, LogExt))
                 (mkFile (S (nextFd w)) (d, b, IndexExt))
                 (len (frames b ps ++ tail)) (b + Z.of_nat (length ps)) entries), w') ∧
        fs w' = <[(d, b, LogExt) := frames b ps]> (fs w) ∧
        dom (fds w') = {[nextFd w; S (nextFd w)]} ∪ dom (fds w) ∧ faults w' = [].
Proof.
  intros Hfl Hlog Hidx Hlo Hhi Hsmall H32 Htail.
  set (lf := mkFile (nextFd w) (d, b, LogExt)).
  set (xf := mkFile (S (nextFd w)) (d, b, IndexExt)).
  set (w0 := mkWorld (fs w) (fds w) (nextFd w) []).
  set (w1 := mkWorld (fs w) (<[nextFd w := 0%nat]> (fds w)) (S (nextFd w)) []).
  set (w2 := mkWorld (fs w) (<[S (nextFd w) := 0%nat]> (<[nextFd w := 0%nat]> (fds w)))
                     (S (S (nextFd w))) []).
  assert (E0 : os_MkdirAll w = (Ok (), w0)) by (by apply os_MkdirAll_nofault).
  assert (E1 : os_OpenFile (d, b, LogExt) w0 = (Ok lf, w1)).
  { rewrite os_OpenFile_nofault by done. unfold w0, w1, lf. cbn [fs fds nextFd].
    rewrite Hlog. cbn [default]. by rewrite (insert_id (fs w)). }
  assert (E2 : os_OpenFile (d, b, IndexExt) w1 = (Ok xf, w2)).
  { rewrite os_OpenFile_nofault by done. unfold w1, w2, xf. cbn [fs fds nextFd].
    rewrite Hidx. cbn [default]. by rewrite (insert_id (fs w)). }
  assert (E3 : File_Stat lf w2 = (Ok (len (frames b ps ++ tail)), w2)).
  { rewrite File_Stat_nofault; [|done|].
    - unfold content, w2, lf. cbn [fs fds nextFd fname]. by rewrite Hlog.
    - unfold w2, lf. cbn [fds fd]. rewrite !dom_insert_L. set_solver. }
  destruct (Segment_recover_ok
              (mkSegment b lf xf (len (frames b ps ++ tail)) b []) w2 ps tail entries)
    as (w' & E & F & D & Fl); try done.
  { unfold w2, lf. cbn [fds fd logFile]. rewrite !dom_insert_L. set_solver. }
  { unfold w2, xf. cbn [fds fd indexFile]. rewrite !dom_insert_L. set_solver. }
  exists w'. unfold NewSegment, bind, attempt.
  rewrite E0. cbv beta iota. rewrite E1. cbv beta iota. rewrite E2. cbv beta iota.
  rewrite E3. cbv beta iota. rewrite E. cbv beta iota.
  split; [done|]. split; [done|]. split; [|done].
  rewrite D. unfold w2. cbn [fds]. rewrite !dom_insert_L. set_solver.
Qed.

Lemma encode_index_app xs ys :
  encode_index (xs ++ ys) = encode_index xs ++ encode_index ys.
Proof. unfold encode_index. by rewrite fmap_app, concat_app. Qed.

(** A successful [Append] keeps the index file in step with the index. *)
Lemma seg_index_append d entry a w u a' w' :
  named d a → seg_index w a →
  Segment_Append entry (a, w) = (Ok u, (a', w')) →
  seg_index w' a'.
Proof.
  intros [Hnl Hni] Hidx H. unfold seg_index in *.
  assert (Hne : fname (indexFile a) ≠ fname (logFile a)) by (rewrite Hnl, Hni; congruence).
  apply Segment_Append_Ok in H as (_ & -> & w1 & [E1 _] & H). cbn [indexFile indexEntries].
  destruct (index_due _ _).
  - destruct H as [E2 _]. rewrite E2, lookup_insert_eq. f_equal.
    unfold content. rewrite E1, lookup_insert_ne by done. rewrite Hidx. simpl.
    by rewrite encode_index_app, encode_index_single.
  - subst w'. by rewrite E1, lookup_insert_ne.
Qed.

Lemma part_index_step w p pss payload o p' w' :
  part_counts w p pss → part_index w p →
  Partition_Append payload (p, w) = (Ok o, (p', w')) →
  Z.of_nat (length (concat pss)) + 1 < 2 ^ 63 →
  part_index w' p'.
Proof.
  intros Hinv Hpi H Hbound.
  apply Partition_Append_Ok in H as (-> & segs & a & Hs & H).
  destruct (list_snoc_inv pss) as (qss & ps & ->); [apply Hinv|].
  destruct (part_counts_active _ _ _ _ _ _ Hinv Hs) as [Hl (Hn & _)].
  assert (Hia : segments p !! length segs = Some a).
  { rewrite Hs. by apply list_lookup_middle. }
  assert (Hold : ∀ s, s ∈ segs → named (dir p) s ∧ baseOffset s < baseOffset a ∧
                                 seg_index w s).
  { intros s Hin. apply list_elem_of_lookup in Hin as [i Hi].
    pose proof (lookup_lt_Some _ _ _ Hi) as Hlt.
    assert (Hsi : segments p !! i = Some s) by (rewrite Hs; by rewrite lookup_app_l).
    assert (Hin : s ∈ segments p) by (by eapply list_elem_of_lookup_2).
    destruct (part_counts_bases _ _ _ _ Hinv Hin) as (j & ps0 & _ & _ & Hns & _).
    split; [done|]. split; [|by apply Hpi].
    by eapply (part_counts_bases_lt _ _ _ i (length segs)). }
  destruct H as [(Hsz & a' & Happ & ->)|(Hsz & new & w1 & new' & Hnew & Happ & ->)].
  - intros s Hin. cbn [segments set_segments] in Hin.
    apply elem_of_app in Hin as [Hin|Hin].
    + destruct (Hold s Hin) as ([_ Hni] & Hlt & Hsi). unfold seg_index in *.
      rewrite <- Hsi. eapply Segment_Append_Ok_other; [done| |].
      * destruct Hn as [-> _]. rewrite Hni. congruence.
      * destruct Hn as [_ ->]. rewrite Hni. intros E. inversion E. lia.
    + apply list_elem_of_singleton in Hin as ->.
      eapply seg_index_append; [done| |done]. apply Hpi. rewrite Hs.
      apply elem_of_app. right. apply list_elem_of_here.
  - destruct (part_counts_roll _ _ _ _ _ _ _ _ (mkLogEntry 0 payload) _ _
                Hinv Hs Hsz Hnew Happ Hbound) as (_ & Hfl & Hfi).
    pose proof (NewSegment_fresh _ _ _ _ _ Hfl Hfi Hnew) as (Hnew' & Hfs1 & Hd1).
    assert (Hna : named (dir p) new) by (by rewrite Hnew').
    intros s Hin. cbn [segments set_segments] in Hin.
    replace (segs ++ [a; new']) with ((segs ++ [a]) ++ [new']) in Hin
      by (by rewrite <- app_assoc).
    apply elem_of_app in Hin as [Hin|Hin].
    + rewrite <- Hs in Hin. pose proof (Hpi s Hin) as Hsi. unfold seg_index in *.
      assert (Hne1 : fname (indexFile s) ≠ (dir p, nextOffset a, LogExt)).
      { intros E. rewrite E in Hsi. congruence. }
      assert (Hne2 : fname (indexFile s) ≠ (dir p, nextOffset a, IndexExt)).
      { intros E. rewrite E in Hsi. congruence. }
      rewrite <- Hsi. transitivity (fs w1 !! fname (indexFile s)).
      * eapply Segment_Append_Ok_other; [done| |]; by rewrite Hnew'.
      * rewrite Hfs1, !lookup_insert_ne by done. done.
    + apply list_elem_of_singleton in Hin as ->.
      eapply seg_index_append; [done| |done].
      unfold seg_index. rewrite Hnew'. cbn [indexFile fname indexEntries].
      rewrite Hfs1. by rewrite lookup_insert_eq.
Qed.

Lemma part_index_run payloads : ∀ p w pss os p' w',
  part_counts w p pss → part_index w p →
  append_all payloads p w = Some (os, p', w') →
  Z.of_nat (length (concat pss)) + Z.of_nat (length payloads) < 2 ^ 63 →
  part_index w' p'.
Proof.
  induction payloads as [|payload rest IH]; intros p w pss os p' w' Hinv Hpi H Hbound.
  - simpl in H. by inversion H; subst.
  - cbn [append_all] in H.
    destruct (Partition_Append payload (p, w)) as [[o|e|] [p1 w1]] eqn:Ha; [|done|done].
    destruct (append_all rest p1 w1) as [[[os' p2] w2]|] eqn:Hr; [|done].
    inversion H; subst; clear H. cbn [length] in Hbound.
    pose proof (part_index_step _ _ _ _ _ _ _ Hinv Hpi Ha ltac:(lia)) as Hpi1.
    apply (Partition_Append_inv _ _ pss) in Ha as (_ & _ & pss1 & Hinv1 & Hcat & _);
      [|done|lia].
    apply (IH p1 w1 pss1 os' p' w'); [done|done|done|].
    rewrite Hcat, length_app. simpl. lia.
Qed.

Lemma part_index_fresh dataDir topic i w p w' :
  (∀ b e, fs w !! (partition_dir dataDir topic i, b, e) = None) →
  NewPartition dataDir topic i w = (Ok p, w') →
  part_index w' p.
Proof.
  intros Hf Hnew. apply NewPartition_fresh in Hnew as (-> & Ef & _); [|done].
  intros s Hs. cbn [segments] in Hs. apply list_elem_of_singleton in Hs as ->.
  unfold seg_index. cbn [indexFile fname indexEntries]. rewrite Ef.
  by rewrite lookup_insert_eq.
Qed.

(** After a run of successful appends on a fresh partition, every index
    file holds the index entries of its segment. *)
Lemma fresh_run_index dataDir topic i w0 p0 w1 payloads os p w :
  (∀ b e, fs w0 !! (partition_dir dataDir topic i, b, e) = None) →
  NewPartition dataDir topic i w0 = (Ok p0, w1) →
  append_all payloads p0 w1 = Some (os, p, w) →
  Z.of_nat (length payloads) < 2 ^ 63 →
  part_index w p.
Proof.
  intros Hf Hnew Hrun Hbound.
  pose proof (part_counts_fresh _ _ _ _ _ _ Hf Hnew) as Hc.
  pose proof (part_index_fresh _ _ _ _ _ _ Hf Hnew) as Hpi.
  apply (part_index_run _ _ _ [[]] _ _ _ Hc Hpi Hrun). simpl. lia.
Qed.

(** [LoadSegments] opens again the segments that are on disk. *)
Lemma open_segments_reopen d : ∀ segs pss acc w,
  faults w = [] →
  Forall2 (on_disk d w) segs pss →
  ∃ segs' w',
    open_segments d (baseOffset <$> segs) acc w = (Ok (acc ++ segs'), w') ∧
    Forall2 same_segment segs segs' ∧
    fs w' = fs w ∧ faults w' = [] ∧
    dom (fds w) ⊆ dom (fds w') ∧ segments_fds segs' ⊆ dom (fds w').
Proof.
  induction segs as [|s segs IH]; intros pss acc w Hfl Hall.
  - exists [], w. rewrite app_nil_r. split; [done|]. split; [constructor|].
    split; [done|]. split; [done|]. split; [done|]. unfold segments_fds. simpl. set_solver.
  - apply Forall2_cons_inv_l in Hall as (ps & pss' & Hs & Hall & ->).
    destruct Hs as (Hn & Hlog & Hidx & Hsz & Hnext & Hlo & Hhi & Hsmall & H32).
    destruct (NewSegment_recovers d (baseOffset s) w ps [] (indexEntries s))
      as (w1 & E1 & F1 & D1 & Fl1); try done.
    { by rewrite app_nil_r. }
    { by left. }
    rewrite app_nil_r in E1. rewrite insert_id in F1 by done.
    set (s1 := mkSegment _ _ _ _ _ _) in E1.
    destruct (IH pss' (acc ++ [s1]) w1 Fl1) as (segs' & w2 & E2 & Hsame & F2 & Fl2 & D2 & X2).
    { eapply Forall2_impl; [exact Hall|].
      intros s0 ps0 (? & ? & ? & ?). split; [done|]. rewrite F1. by split. }
    exists (s1 :: segs'), w2. split.
    { cbn [fmap list_fmap open_segments]. unfold bind, attempt. rewrite E1.
      rewrite E2. by rewrite <- app_assoc. }
    split.
    { constructor; [|done]. destruct Hn as [Hnl Hni].
      unfold same_segment, s1. cbn. by rewrite Hsz, Hnext, Hnl, Hni. }
    split; [congruence|]. split; [done|]. split; [set_solver|].
    unfold segments_fds in *. cbn [fmap list_fmap union_list]. unfold segment_fds at 1.
    unfold s1. cbn [logFile indexFile fd]. set_solver.
Qed.

Lemma StronglySorted_lookup_lt (l : list Z) :
  (∀ i j x y, l !! i = Some x → l !! j = Some y → (i < j)%nat → x < y) →
  StronglySorted Z.lt l.
Proof.
  induction l as [|a l IH]; intros H; constructor.
  - apply IH. intros i j x y Hi Hj Hij. by apply (H (S i) (S j)); [..|lia].
  - apply Forall_forall. intros y Hy. apply list_elem_of_lookup in Hy as [j Hj].
    by apply (H 0%nat (S j)); [..|lia].
Qed.

Lemma StronglySorted_lt_le (l : list Z) : StronglySorted Z.lt l → StronglySorted Z.le l.
Proof.
  induction 1 as [|x l Hs IH Hx]; constructor; [done|].
  eapply Forall_impl; [exact Hx|]. simpl. lia.
Qed.

Lemma StronglySorted_lt_NoDup (l : list Z) : StronglySorted Z.lt l → NoDup l.
Proof.
  induction 1 as [|x l Hs IH Hx]; constructor; [|done].
  intros Hin. rewrite Forall_forall in Hx. specialize (Hx x Hin). lia.
Qed.

(** The base offsets read off the directory of a partition are those of its
    segments, in their order. *)
Lemma part_counts_dir_bases w p pss :
  part_counts w p pss →
  (∀ s, s ∈ segments p → is_Some (fs w !! (dir p, baseOffset s, LogExt))) →
  Z.of_nat (length (concat pss)) < 2 ^ 63 →
  merge_sort Z.le (omap parse_log_name
                     (filter (λ n : FileName, n.1.1 = dir p) (map_to_list (fs w)).*1))
  = baseOffset <$> segments p.
Proof.
  intros Hinv Hlogs Hbound.
  destruct (dir_bases_spec (dir p) (fs w)) as [Hnd Hmem]. cbv zeta in *.
  set (bases := omap _ _) in *.
  assert (Hss : StronglySorted Z.lt (baseOffset <$> segments p)).
  { apply StronglySorted_lookup_lt. intros i j x y Hi Hj Hij.
    apply list_lookup_fmap_Some in Hi as (s & -> & Hi).
    apply list_lookup_fmap_Some in Hj as (s' & -> & Hj).
    by eapply part_counts_bases_lt. }
  apply (StronglySorted_unique Z.le).
  - apply StronglySorted_merge_sort; apply _.
  - by apply StronglySorted_lt_le.
  - rewrite merge_sort_Permutation. apply NoDup_Permutation.
    + done.
    + by apply StronglySorted_lt_NoDup.
    + intros b. rewrite Hmem. split.
      * intros [Hr Hsome].
        destruct (decide (b ∈ baseOffset <$> segments p)) as [|Hni]; [done|].
        destruct Hinv as (_ & _ & _ & Hnone).
        rewrite Hnone in Hsome; [by destruct Hsome|].
        intros s Hs Hb. subst b. apply Hni. apply list_elem_of_fmap. by exists s.
      * intros Hb. apply list_elem_of_fmap in Hb as (s & -> & Hs).
        split; [|by apply Hlogs].
        destruct (part_counts_bases _ _ _ _ Hinv Hs) as (i & ps & Hi & Hp & _ & Hb & _).
        rewrite Hb. unfold records_before.
        assert (length (concat (take i pss)) ≤ length (concat pss))%nat; [|lia].
        rewrite <- (take_drop i pss) at 2. rewrite concat_app, length_app. lia.
Qed.

Lemma index_ok_entry32 base ps entries :
  index_ok base ps entries →
  (∀ k, (k < length ps)%nat → len (frames base (take k ps)) < SegmentMaxBytes) →
  Forall entry32 entries.
Proof.
  intros (Hent & _ & _) Hpos. apply Forall_forall. intros e He.
  destruct (Hent e He) as (k & Hk & Hrel & Hp).
  pose proof (Hpos k Hk) as Hlt.
  pose proof (frames_length_ge base (take k ps)) as Hge.
  rewrite length_take_le in Hge by lia.
  unfold entry32, SegmentMaxBytes, len in *. lia.
Qed.

Lemma elem_of_concat_lookup {A} (pss : list (list A)) i ps x :
  pss !! i = Some ps → x ∈ ps → x ∈ concat pss.
Proof.
  revert i. induction pss as [|qs pss IH]; intros i Hi Hx; [done|].
  simpl. apply elem_of_app. destruct i as [|i]; simpl in Hi.
  - inversion Hi; subst. by left.
  - right. by eapply IH.
Qed.

(** The segments of a partition are on disk when its counters, its log
    files and its index files are in step. *)
Lemma part_on_disk w p pss :
  part_counts w p pss → part_full w p pss → part_index w p →
  Forall small (concat pss) → Z.of_nat (length (concat pss)) < 2 ^ 63 →
  Forall2 (on_disk (dir p) w) (segments p) pss.
Proof.
  intros Hinv Hfull Hpi Hsmall Hbound.
  apply Forall2_same_length_lookup_2; [apply Hinv|].
  intros i s ps Hi Hp.
  destruct (part_counts_range _ _ _ _ _ _ Hinv Hi Hp) as (Hb & Hn & H0 & Ht).
  destruct Hinv as (_ & _ & Hat & _).
  destruct (Hat _ _ _ Hi Hp) as (Hnm & _ & Hnext & _).
  destruct (Hfull _ _ _ Hi Hp) as (Hlog & Hsz & _ & Hidx & Hpos).
  pose proof (Hpi s (list_elem_of_lookup_2 _ _ _ Hi)) as Hsi. unfold seg_index in Hsi.
  destruct Hnm as [Hnl Hni]. rewrite Hnl in Hlog. rewrite Hni in Hsi.
  split; [by split|]. do 4 (split; [done|]).
  split; [lia|]. split; [lia|]. split.
  - apply Forall_forall. intros x Hx. rewrite Forall_forall in Hsmall.
    apply Hsmall. by eapply elem_of_concat_lookup.
  - by eapply index_ok_entry32.
Qed.

Lemma on_disk_same_fs d w w' s ps : fs w' = fs w → on_disk d w s ps → on_disk d w' s ps.
Proof. intros E (? & ? & ? & ?). split; [done|]. rewrite E. by split. Qed.

Lemma same_segment_counts d pss i s s' ps :
  same_segment s s' → seg_at d pss i s ps → seg_at d pss i s' ps.
Proof.
  intros (Eb & Ez & En & _ & El & Ei) ([Hnl Hni] & Hb & Hn & Hz & Hl).
  split; [split; congruence|]. rewrite Eb, En, Ez. done.
Qed.

(** Opening again the directory of a partition whose files are in step
    gives the partition back. *)
Lemma NewPartition_reopen dataDir topic i w p pss wc :
  dir p = partition_dir dataDir topic i →
  part_counts w p pss → part_full w p pss → part_index w p →
  Forall small (concat pss) → Z.of_nat (length (concat pss)) < 2 ^ 63 →
  fs wc = fs w → faults wc = [] →
  ∃ segs' w',
    NewPartition dataDir topic i wc = (Ok (mkPartition i (dir p) segs'), w') ∧
    Forall2 same_segment (segments p) segs' ∧
    fs w' = fs w ∧ faults w' = [] ∧
    part_counts w' (mkPartition i (dir p) segs') pss ∧
    part_full w' (mkPartition i (dir p) segs') pss.
Proof.
  intros Hdir Hinv Hfull Hpi Hsmall Hbound Hfs Hfl.
  pose proof (part_on_disk _ _ _ Hinv Hfull Hpi Hsmall Hbound) as Hdisk.
  set (w0 := mkWorld (fs wc) (fds wc) (nextFd wc) []).
  assert (Hdisk0 : Forall2 (on_disk (dir p) w0) (segments p) pss).
  { eapply Forall2_impl; [exact Hdisk|]. intros s ps. by apply on_disk_same_fs. }
  destruct (open_segments_reopen (dir p) (segments p) pss [] w0 eq_refl Hdisk0)
    as (segs' & w' & E & Hsame & F & Fl & D & X).
  assert (Hbases : merge_sort Z.le
            (omap parse_log_name
               (filter (λ n : FileName, n.1.1 = dir p) (map_to_list (fs wc)).*1))
          = baseOffset <$> segments p).
  { rewrite Hfs. apply (part_counts_dir_bases w p pss); [done| |done].
    intros s Hs. apply list_elem_of_lookup in Hs as [j Hj].
    destruct (Forall2_lookup_l _ _ _ _ _ Hdisk Hj) as (ps & _ & _ & -> & _). done. }
  assert (Hlen : length segs' = length pss).
  { rewrite <- (Forall2_length _ _ _ Hsame). apply Hinv. }
  exists segs', w'. split.
  { assert (E0 : LoadSegments (dir p) wc = (Ok segs', w')).
    { unfold LoadSegments, bind. rewrite os_ReadDir_nofault by done. cbv beta iota.
      fold w0. rewrite Hbases. exact E. }
    unfold NewPartition, bind. rewrite <- Hdir, E0. cbv beta iota.
    destruct segs' as [|s' segs']; [|done].
    destruct Hinv as (_ & Hne & _). simpl in Hlen. by destruct pss. }
  split; [done|]. split; [by rewrite F|]. split; [done|]. split.
  - split; [done|]. split; [apply Hinv|]. split.
    + intros j s' ps Hj Hp. cbn [segments dir] in *.
      destruct (Forall2_lookup_r _ _ _ _ _ Hsame Hj) as (s & Hs & Hss).
      destruct Hinv as (_ & _ & Hat & _).
      eapply same_segment_counts; [exact Hss|]. by apply Hat.
    + intros b e Hb. cbn [segments dir] in *. rewrite F. simpl. rewrite Hfs.
      destruct Hinv as (_ & _ & _ & Hnone). apply Hnone.
      intros s Hs. apply list_elem_of_lookup in Hs as [j Hj].
      destruct (Forall2_lookup_l _ _ _ _ _ Hsame Hj) as (s' & Hj' & (Eb & _)).
      rewrite <- Eb. apply Hb. by eapply list_elem_of_lookup_2.
  - intros j s' ps Hj Hp. cbn [segments] in Hj.
    destruct (Forall2_lookup_r _ _ _ _ _ Hsame Hj) as (s & Hs & (Eb & Ez & En & Ee & El & Ei)).
    destruct (Hfull _ _ _ Hs Hp) as (Hlog & Hsz & _ & Hidx & Hpos).
    split; [|split; [|split; [|split]]].
    + rewrite El, F. simpl. by rewrite Hfs, Eb.
    + by rewrite Ez, Eb.
    + apply X. unfold segments_fds. apply elem_of_union_list. exists (segment_fds s').
      split; [|unfold segment_fds; set_solver].
      apply list_elem_of_fmap. exists s'. split; [done|]. by eapply list_elem_of_lookup_2.
    + by rewrite Eb, Ee.
    + by rewrite Eb.
Qed.

(** X8. Recovery cuts a record with a wrong checksum. When the log file of
    a segment holds whole records written by [Append], then a whole record
    whose checksum field is wrong, then anything, and the index file holds
    index entries, [NewSegment] (without I/O failure) succeeds: the log file
    is cut to the records before the wrong one, [nextOffset] counts them,
    the index is loaded. The [size] field keeps the length that the file
    had before the cut. *)
Theorem NewSegment_cuts_wrong_checksum d b w ps offset crc payload rest entries :
  faults w = [] →
  fs w !! (d, b, LogExt) = Some (frames b ps ++ raw_frame offset crc payload ++ rest) →
  fs w !! (d, b, IndexExt) = Some (encode_index entries) →
  crc ≠ ChecksumIEEE payload →
  - 2 ^ 63 ≤ b → b + Z.of_nat (length ps) < 2 ^ 63 → Forall small ps →
  - 2 ^ 63 ≤ offset < 2 ^ 63 → 0 ≤ crc < 2 ^ 32 → small payload →
  Forall entry32 entries →
  ∃ s w', NewSegment d b w = (Ok s, w') ∧
    baseOffset s = b ∧ nextOffset s = b + Z.of_nat (length ps) ∧
    indexEntries s = entries ∧
    size s = len (frames b ps ++ raw_frame offset crc payload ++ rest) ∧
    fs w' = <[(d, b, LogExt) := frames b ps]> (fs w).
Proof.
  intros Hfl Hlog Hidx Hne Hlo Hhi Hsmall Hoff Hcrc Hp H32.
  destruct (NewSegment_recovers d b w ps (raw_frame offset crc payload ++ rest) entries)
    as (w' & E & F & _); try done.
  { right. exists offset, crc, payload, rest. done. }
  eexists _, w'. split; [exact E|]. done.
Qed.

Lemma NewSegment_cuts_wrong_checksum_witness :
  ∃ s w', NewSegment "data/events/partition0" 0 (world_with_tail (raw_frame 3 1 []))
          = (Ok s, w') ∧
    baseOffset s = 0 ∧ nextOffset s = 0 + Z.of_nat (length abc) ∧
    indexEntries s = [mkIndexEntry 0 0] ∧
    size s = len (frames 0 abc ++ raw_frame 3 1 [] ++ []) ∧
    fs w' = <[abc_log := frames 0 abc]> (fs (world_with_tail (raw_frame 3 1 []))).
Proof.
  apply (NewSegment_cuts_wrong_checksum "data/events/partition0" 0
           (world_with_tail (raw_frame 3 1 [])) abc 3 1 [] [] [mkIndexEntry 0 0]).
  - reflexivity.
  - vm_compute. reflexivity.
  - vm_compute. reflexivity.
  - vm_compute. discriminate.
  - lia.
  - simpl. lia.
  - repeat constructor.
  - lia.
  - lia.
  - reflexivity.
  - repeat constructor; simpl; lia.
Defined.

Lemma append_all_fields payloads : ∀ p w os p' w',
  append_all payloads p w = Some (os, p', w') → dir p' = dir p ∧ id p' = id p.
Proof.
  induction payloads as [|payload rest IH]; intros p w os p' w' H.
  - simpl in H. by inversion H; subst.
  - cbn [append_all] in H.
    destruct (Partition_Append payload (p, w)) as [[o|e|] [p1 w1]] eqn:Ha; [|done|done].
    destruct (append_all rest p1 w1) as [[[os' p2] w2]|] eqn:Hr; [|done].
    inversion H; subst; clear H.
    apply Partition_Append_fields in Ha as [Hd Hi]. apply IH in Hr as [Hd' Hi'].
    split; congruence.
Qed.

(** X9. Durability. A partition created in a directory without files,
    after any run of successful appends (payloads shorter than 2^31 bytes),
    is opened again by [NewPartition] in any world that has its files and
    in which no I/O fails: the segments come back with the same base
    offsets, sizes, next offsets and index entries, [NextOffset()] is the
    number of records, no file changes, and every record can be read. *)
Theorem reopen_restores dataDir topic i w0 p0 w1 payloads os p w wc :
  (∀ b e, fs w0 !! (partition_dir dataDir topic i, b, e) = None) →
  NewPartition dataDir topic i w0 = (Ok p0, w1) →
  append_all payloads p0 w1 = Some (os, p, w) →
  Forall small payloads →
  Z.of_nat (length payloads) < 2 ^ 63 →
  fs wc = fs w → faults wc = [] →
  ∃ p' w', NewPartition dataDir topic i wc = (Ok p', w') ∧
    Forall2 same_segment (segments p) (segments p') ∧
    Partition_NextOffset p' = Z.of_nat (length payloads) ∧
    fs w' = fs w ∧
    (∀ o payload, payloads !! o = Some payload →
       (Partition_Read p' (Z.of_nat o) w').1 = Ok (mkLogEntry (Z.of_nat o) payload)).
Proof.
  intros Hf Hnew Hrun Hsmall Hbound Hfs Hfl.
  pose proof (fresh_run_index _ _ _ _ _ _ _ _ _ _ Hf Hnew Hrun Hbound) as Hpi.
  destruct (fresh_run_inv _ _ _ _ _ _ _ _ _ _ Hf Hnew Hrun Hbound)
    as (_ & Hid & pss & Hc & Hcat & Hfull).
  specialize (Hfull Hsmall). subst payloads.
  assert (Hdir : dir p = partition_dir dataDir topic i).
  { apply append_all_fields in Hrun as [-> _]. by apply NewPartition_Ok in Hnew as (_ & ? & _). }
  destruct (NewPartition_reopen dataDir topic i w p pss wc Hdir Hc Hfull Hpi Hsmall Hbound
              Hfs Hfl) as (segs' & w' & E & Hsame & F & Fl & Hc' & Hfull').
  eexists _, w'. split; [exact E|]. split; [done|]. split; [|split; [done|]].
  - by rewrite (part_counts_NextOffset _ _ _ Hc').
  - intros o payload Ho.
    destruct (Partition_Read_ok _ _ _ _ _ Hc' Hfull' Hsmall Fl Hbound Ho) as [w2 ->]. done.
Qed.

Lemma reopen_restores_witness :
  ∃ p' w', NewPartition "data" "events" 0 (restarted (run_appends abc).2) = (Ok p', w') ∧
    Partition_NextOffset p' = Z.of_nat (length abc) ∧
    (Partition_Read p' (Z.of_nat 1) w').1 = Ok (mkLogEntry (Z.of_nat 1) (bytes "bc")).
Proof.
  destruct (reopen_restores "data" "events" 0 (empty_world []) (fresh_p []) (fresh_w [])
              abc (run_appends abc).1.1 (run_appends abc).1.2 (run_appends abc).2
              (restarted (run_appends abc).2))
    as (p' & w' & E & _ & Hn & _ & Hr).
  - intros b e. apply lookup_empty.
  - apply fresh_p_eta. vm_compute. reflexivity.
  - apply run_appends_eta. vm_compute. reflexivity.
  - repeat constructor.
  - vm_compute. reflexivity.
  - apply restarted_fs.
  - reflexivity.
  - exists p', w'. split; [exact E|]. split; [exact Hn|].
    exact (Hr 1%nat (bytes "bc") eq_refl).
Defined.

Lemma partition_dir_inj dataDir topic i j :
  partition_dir dataDir topic i = partition_dir dataDir topic j → i = j.
Proof.
  unfold partition_dir. intros H.
  do 4 apply (inj (String.app _)) in H. by apply (inj pretty) in H.
Qed.

(** The counters and the files of a partition stay in step when the world
    changes outside its directory and no descriptor is closed. *)
Lemma part_counts_frame w w' p pss :
  part_counts w p pss →
  (∀ b e, fs w' !! (dir p, b, e) = fs w !! (dir p, b, e)) →
  part_counts w' p pss.
Proof.
  intros (Hlen & Hne & Hat & Hnone) Hfs. split; [done|]. split; [done|]. split; [done|].
  intros b e Hb. rewrite Hfs. by apply Hnone.
Qed.

Lemma part_full_frame w w' p pss :
  part_counts w p pss → part_full w p pss →
  (∀ b e, fs w' !! (dir p, b, e) = fs w !! (dir p, b, e)) →
  dom (fds w) ⊆ dom (fds w') →
  part_full w' p pss.
Proof.
  intros Hinv Hfull Hfs Hd i s ps Hi Hp.
  apply (seg_full_other w); [by eapply Hfull| |done].
  destruct Hinv as (_ & _ & Hat & _). destruct (Hat _ _ _ Hi Hp) as ([-> _] & _).
  apply Hfs.
Qed.

(** A successful [Partition.Append] changes no file outside the directory of
    the partition and closes no descriptor. *)
Lemma Partition_Append_frame w p pss payload o p' w' :
  part_counts w p pss →
  Partition_Append payload (p, w) = (Ok o, (p', w')) →
  Z.of_nat (length (concat pss)) + 1 < 2 ^ 63 →
  (∀ d b e, d ≠ dir p → fs w' !! (d, b, e) = fs w !! (d, b, e)) ∧
  dom (fds w) ⊆ dom (fds w').
Proof.
  intros Hinv H Hbound.
  apply Partition_Append_Ok in H as (-> & segs & a & Hs & H).
  destruct (list_snoc_inv pss) as (qss & ps & ->); [apply Hinv|].
  destruct (part_counts_active _ _ _ _ _ _ Hinv Hs) as [Hl ([Hnl Hni] & _)].
  destruct H as [(Hsz & a' & Happ & ->)|(Hsz & new & w1 & new' & Hnew & Happ & ->)].
  - split; [|by rewrite (Segment_Append_Ok_dom _ _ _ _ _ _ Happ)].
    intros d b e Hd. eapply Segment_Append_Ok_other; [done| |].
    + rewrite Hnl. congruence.
    + rewrite Hni. congruence.
  - destruct (part_counts_roll _ _ _ _ _ _ _ _ (mkLogEntry 0 payload) _ _
                Hinv Hs Hsz Hnew Happ Hbound) as (_ & Hfl & Hfi).
    pose proof (NewSegment_fresh _ _ _ _ _ Hfl Hfi Hnew) as (Hnew' & Hfs1 & Hd1).
    split.
    + intros d b e Hd. transitivity (fs w1 !! (d, b, e)).
      * eapply Segment_Append_Ok_other; [done| |]; rewrite Hnew'; simpl; congruence.
      * rewrite Hfs1, !lookup_insert_ne by congruence. done.
    + rewrite (Segment_Append_Ok_dom _ _ _ _ _ _ Happ), Hd1. set_solver.
Qed.

Lemma sent_to_snoc i msgs j payload :
  sent_to i (msgs ++ [(j, payload)])
  = sent_to i msgs ++ (if decide (j = i) then [payload] else []).
Proof.
  unfold sent_to. rewrite filter_app, fmap_app. f_equal.
  rewrite filter_cons. simpl. by destruct (decide (j = i)).
Qed.

Lemma length_sent_to i msgs : (length (sent_to i msgs) ≤ length msgs)%nat.
Proof. unfold sent_to. rewrite length_fmap. apply length_filter. Qed.

(** The loop of [CreateTopic] in a world without files of the topic: the
    partitions that it creates are empty and in step with their files. *)
Lemma create_partitions_inv n dataDir name : ∀ created w ps w',
  (∀ i, (length created ≤ i)%nat → ∀ b e,
          fs w !! (partition_dir dataDir name (Z.of_nat i), b, e) = None) →
  topic_inv dataDir name w created [] →
  create_partitions n dataDir name (Z.of_nat (length created)) created w = (Ok ps, w') →
  topic_inv dataDir name w' ps [] ∧ length ps = (length created + n)%nat.
Proof.
  induction n as [|n IH]; intros created w ps w' Hfree Hinv H.
  - inversion H; subst. split; [done|lia].
  - cbn [create_partitions] in H. unfold bind, attempt in H.
    destruct (NewPartition dataDir name (Z.of_nat (length created)) w) as [[p|e|] w1] eqn:Hn;
      [|done|done].
    pose proof (Hfree (length created) ltac:(lia)) as Hf.
    pose proof (part_counts_fresh _ _ _ _ _ _ Hf Hn) as Hc.
    pose proof (part_full_fresh _ _ _ _ _ _ Hf Hn) as Hfull.
    pose proof (NewPartition_fresh _ _ _ _ _ _ Hf Hn) as (Hp & Hfs & Hd).
    cbv zeta in Hp, Hfs.
    replace (Z.of_nat (length created) + 1) with (Z.of_nat (length (created ++ [p]))) in H
      by (rewrite length_app; simpl; lia).
    apply IH in H as [Hinv' Hlen].
    + split; [done|]. rewrite length_app in Hlen. simpl in Hlen. lia.
    + intros i Hi b e. rewrite length_app in Hi. simpl in Hi.
      rewrite Hfs, !lookup_insert_ne.
      * apply Hfree. lia.
      * intros E. inversion E as [[E1 E2]]. apply partition_dir_inj in E1. lia.
      * intros E. inversion E as [[E1 E2]]. apply partition_dir_inj in E1. lia.
    + intros i q Hq. apply lookup_snoc_inv in Hq as [[Hi Hq]|[-> ->]].
      * destruct (Hinv i q Hq) as (Hid & Hdir & pss & Hc0 & Hf0 & Hcat).
        split; [done|]. split; [done|]. exists pss.
        assert (Hsame : ∀ b e, fs w1 !! (dir q, b, e) = fs w !! (dir q, b, e)).
        { intros b e. rewrite Hdir, Hfs, !lookup_insert_ne; [done|..];
            intros E; inversion E as [[E1 E2]]; apply partition_dir_inj in E1; lia. }
        split; [by eapply part_counts_frame|]. split; [|done].
        eapply part_full_frame; [done..|]. rewrite Hd. set_solver.
      * subst p. split; [done|]. split; [done|]. exists [[]]. done.
Qed.

(** One successful [Produce] on a topic whose partitions are in step. *)
Lemma Produce_step dataDir name r w ps msgs i payload res r' w' :
  topics r !! name = Some (mkTopic name ps) → Z.of_nat (length ps) < 2 ^ 31 →
  topic_inv dataDir name w ps msgs →
  Producer_Produce name i payload (r, w) = (Ok res, (r', w')) →
  small payload → Z.of_nat (length msgs) + 1 < 2 ^ 63 →
  0 ≤ i < Z.of_nat (length ps) ∧ res = (i, 0) ∧
  ∃ ps', topics r' !! name = Some (mkTopic name ps') ∧ length ps' = length ps ∧
         topic_inv dataDir name w' ps' (msgs ++ [(i, payload)]).
Proof.
  intros Ht Hlen Hinv H Hsmall Hbound. unfold Producer_Produce in H.
  pose proof (Registry_GetPartition_cases r name i) as Hg. rewrite Ht in Hg.
  specialize (Hg Hlen). cbn [Partitions] in Hg. rewrite Hg in H. clear Hg.
  case_decide as Hi; [|done].
  destruct (ps !! Z.to_nat i) as [p|] eqn:Hp; [|done].
  destruct (Partition_Append payload (p, w)) as [ro [p' w1]] eqn:Ha.
  destruct ro as [o|e|]; [|done|done]. inversion H; subst; clear H.
  destruct (Hinv _ _ Hp) as (Hid & Hdir & pss & Hc & Hfull & Hcat).
  assert (Hb : Z.of_nat (length (concat pss)) + 1 < 2 ^ 63).
  { rewrite Hcat. pose proof (length_sent_to (Z.of_nat (Z.to_nat i)) msgs). lia. }
  pose proof (Partition_Append_fields _ _ _ _ _ _ Ha) as [Hd' Hi'].
  pose proof (Partition_Append_frame _ _ _ _ _ _ _ Hc Ha Hb) as [Hframe Hdom].
  apply (Partition_Append_inv _ _ pss) in Ha as (-> & _ & pss' & Hc' & Hcat' & Hfull');
    [|done|done].
  split; [done|]. split; [done|].
  exists (<[Z.to_nat i := p']> ps). split; [|split].
  - unfold set_partition. cbn [topics]. rewrite lookup_alter_eq, Ht. done.
  - by rewrite length_insert.
  - intros k q Hq. destruct (decide (k = Z.to_nat i)) as [->|Hk].
    + rewrite list_lookup_insert_eq in Hq by (apply lookup_lt_Some in Hp; done).
      inversion Hq; subst q; clear Hq.
      split; [congruence|]. split; [congruence|]. exists pss'.
      split; [done|]. split; [by apply Hfull'|].
      rewrite Hcat', Hcat, sent_to_snoc. rewrite decide_True by lia. done.
    + rewrite list_lookup_insert_ne in Hq by done.
      destruct (Hinv _ _ Hq) as (Hidq & Hdirq & qss & Hcq & Hfq & Hcatq).
      split; [done|]. split; [done|]. exists qss.
      assert (Hne : dir q ≠ dir p).
      { rewrite Hdirq, Hdir. intros E. apply partition_dir_inj in E. lia. }
      split; [|split].
      * eapply part_counts_frame; [done|]. intros b e. by apply Hframe.
      * eapply part_full_frame; [done|done| |done]. intros b e. by apply Hframe.
      * rewrite Hcatq, sent_to_snoc. rewrite decide_False by lia. by rewrite app_nil_r.
Qed.

Lemma produce_all_inv dataDir name msgs : ∀ sent r w ps res r' w',
  topics r !! name = Some (mkTopic name ps) → Z.of_nat (length ps) < 2 ^ 31 →
  topic_inv dataDir name w ps sent →
  produce_all name msgs r w = Some (res, r', w') →
  Forall (λ m, small m.2) msgs →
  Z.of_nat (length sent) + Z.of_nat (length msgs) < 2 ^ 63 →
  res = (λ m, (m.1, 0)) <$> msgs ∧
  Forall (λ m : Z * list byte, 0 ≤ m.1 < Z.of_nat (length ps)) msgs ∧
  ∃ ps', topics r' !! name = Some (mkTopic name ps') ∧ length ps' = length ps ∧
         topic_inv dataDir name w' ps' (sent ++ msgs).
Proof.
  induction msgs as [|[i payload] msgs IH];
    intros sent r w ps res r' w' Ht Hlen Hinv H Hsmall Hbound.
  - simpl in H. inversion H; subst. split; [done|]. split; [constructor|].
    exists ps. by rewrite app_nil_r.
  - cbn [produce_all] in H.
    destruct (Producer_Produce name i payload (r, w)) as [[r0|e|] [r1 w1]] eqn:Hp;
      [|done|done].
    destruct (produce_all name msgs r1 w1) as [[[rs r2] w2]|] eqn:Hr; [|done].
    inversion H; subst; clear H.
    apply Forall_cons in Hsmall as [Hs1 Hsmall]. cbn [length] in Hbound.
    destruct (Produce_step _ _ _ _ _ _ _ _ _ _ _ Ht Hlen Hinv Hp Hs1 ltac:(lia))
      as (Hi & -> & ps1 & Ht1 & Hl1 & Hinv1).
    destruct (IH (sent ++ [(i, payload)]) r1 w1 ps1 rs r' w' Ht1 ltac:(lia) Hinv1 Hr Hsmall)
      as (-> & Hall & ps' & Ht' & Hl' & Hinv').
    { rewrite length_app. simpl. lia. }
    split; [done|]. split.
    + constructor; [done|]. by rewrite <- Hl1.
    + exists ps'. split; [done|]. split; [congruence|]. by rewrite <- app_assoc in Hinv'.
Qed.

(** X10. Produce and consume through the registry. In a world without
    files of the topic, after [CreateTopic(name, n)] and any run of
    successful [Produce] calls on the topic (payloads shorter than 2^31
    bytes): every call was for a partition in [[0, n)] and returned that
    partition; for every such partition, [NextOffset()] is the number of
    messages sent to it, and (when no I/O fails) [Consume] of the offset [o]
    returns the [o]-th payload sent to that partition, under the offset [o],
    and records [o + 1] as the offset of the consumer for that partition. *)
Theorem produce_consume name n r0 w0 r1 w1 msgs res r w :
  (∀ i b e, fs w0 !! (partition_dir (dataDir r0) name i, b, e) = None) →
  Registry_CreateTopic name n (r0, w0) = (Ok (), (r1, w1)) → n < 2 ^ 31 →
  produce_all name msgs r1 w1 = Some (res, r, w) →
  Forall (λ m, small m.2) msgs → Z.of_nat (length msgs) < 2 ^ 63 →
  faults w = [] →
  res.*1 = msgs.*1 ∧
  Forall (λ m : Z * list byte, 0 ≤ m.1 < n) msgs ∧
  ∀ i, 0 ≤ i < n →
    ∃ p, Registry_GetPartition r name i = Ok p ∧
         Partition_NextOffset p = Z.of_nat (length (sent_to i msgs)) ∧
         ∀ o payload offsets, sent_to i msgs !! o = Some payload →
           ∃ w', Consumer_Consume r name i (Z.of_nat o) (offsets, w)
                 = (Ok (mkLogEntry (Z.of_nat o) payload),
                    (<[offsetKey name i := Z.of_nat o + 1]> offsets, w')) ∧
                 Consumer_GetOffset (<[offsetKey name i := Z.of_nat o + 1]> offsets) name i
                 = Z.of_nat o + 1.
Proof.
  intros Hfree Hcreate Hn Hrun Hsmall Hbound Hfl.
  unfold Registry_CreateTopic, bind at 1 in Hcreate. cbn [getS] in Hcreate.
  destruct (topics r0 !! name) eqn:Ht0; [done|].
  destruct (n <? 0) eqn:Hneg; [done|]. apply Z.ltb_ge in Hneg.
  apply bind_Ok in Hcreate as (ps & [r0' w0'] & Hc & Hm).
  apply sys_inv in Hc as [-> Hc]. apply modS_inv in Hm as (-> & _ & ->).
  apply (create_partitions_inv _ _ _ []) in Hc as [Hinv Hlen].
  2: { intros i _ b e. apply Hfree. }
  2: { intros i p Hp. by rewrite lookup_nil in Hp. }
  simpl in Hlen.
  set (r1 := mkRegistry _ _) in Hrun.
  assert (Ht1 : topics r1 !! name = Some (mkTopic name ps)) by apply lookup_insert_eq.
  destruct (produce_all_inv (dataDir r0) name msgs [] r1 w0' ps _ _ _
              Ht1 ltac:(lia) Hinv Hrun Hsmall ltac:(simpl; lia))
    as (-> & Hall & ps' & Ht' & Hl' & Hinv').
  simpl in Hinv'.
  split; [|split].
  - rewrite <- list_fmap_compose. by apply list_fmap_ext.
  - eapply Forall_impl; [exact Hall|]. simpl. intros m. lia.
  - intros i Hi.
    pose proof (Registry_GetPartition_cases r name i) as Hg. rewrite Ht' in Hg.
    cbn [Partitions] in Hg. rewrite Hg by lia. clear Hg.
    rewrite decide_True by lia.
    destruct (lookup_lt_is_Some_2 ps' (Z.to_nat i) ltac:(lia)) as [p Hp].
    rewrite Hp. exists p. split; [done|].
    destruct (Hinv' _ _ Hp) as (Hid & Hdir & pss & Hpc & Hpf & Hcat).
    rewrite Z2Nat.id in Hcat by lia.
    assert (Hb : Z.of_nat (length (concat pss)) < 2 ^ 63).
    { rewrite Hcat. pose proof (length_sent_to i msgs). lia. }
    split; [by rewrite (part_counts_NextOffset _ _ _ Hpc), Hcat|].
    intros o payload offsets Ho.
    assert (Hps : Forall small (concat pss)).
    { rewrite Hcat. unfold sent_to. apply Forall_fmap.
      apply Forall_forall. intros m Hm. apply list_elem_of_filter in Hm as [_ Hm].
      rewrite Forall_forall in Hsmall. by apply Hsmall. }
    rewrite <- Hcat in Ho.
    destruct (Partition_Read_ok _ _ _ _ _ Hpc Hpf Hps Hfl Hb Ho) as [w' Hread].
    exists w'. split.
    + unfold Consumer_Consume.
      pose proof (Registry_GetPartition_cases r name i) as Hg. rewrite Ht' in Hg.
      cbn [Partitions] in Hg. rewrite Hg by lia. clear Hg.
      rewrite decide_True by lia. rewrite Hp, Hread.
      rewrite int64_small; [done|]. apply lookup_lt_Some in Ho. lia.
    + unfold Consumer_GetOffset. by rewrite lookup_insert_eq.
Qed.

Lemma lor_high k c x : 0 ≤ k → 0 ≤ x < 2 ^ k → Z.lor (c * 2 ^ k) x = c * 2 ^ k + x.
Proof.
  intros Hk Hx. rewrite <- (Z.add_lor_land (c * 2 ^ k) x).
  assert (Z.land (c * 2 ^ k) x = 0) as ->; [|lia].
  apply Z.bits_inj'. intros n Hn. rewrite Z.land_spec, Z.bits_0.
  destruct (decide (n < k)).
  - by rewrite Z.mul_pow2_bits_low by lia.
  - apply andb_false_intro2.
    destruct (decide (x = 0)) as [->|]; [apply Z.bits_0|].
    apply Z.bits_above_log2; [lia|]. apply Z.log2_lt_pow2; [lia|].
    assert (2 ^ k ≤ 2 ^ n) by (apply Z.pow_le_mono_r; lia). lia.
Qed.

Lemma land_63 x : Z.land x 0x3F = x mod 64.
Proof. change 0x3F with (Z.ones 6). by rewrite Z.land_ones. Qed.

Lemma lor_80 x : 0 ≤ x < 64 → Z.lor 0x80 x = 128 + x.
Proof. intros H. change 0x80 with (2 * 2 ^ 6) at 1. rewrite lor_high by lia. lia. Qed.

(** [string(rune(r))] in arithmetic. *)
Lemma encoderune_spec r :
  encoderune r =
    if decide (0 ≤ r ≤ 0x7F) then [r]
    else if decide (0x80 ≤ r ≤ 0x7FF) then [192 + r / 64; 128 + r mod 64]
    else if decide (r < 0 ∨ 0x10FFFF < r ∨ 0xD800 ≤ r ≤ 0xDFFF) then [0xEF; 0xBF; 0xBD]
    else if decide (r ≤ 0xFFFF) then
      [224 + r / 4096; 128 + (r / 64) mod 64; 128 + r mod 64]
    else [240 + r / 262144; 128 + (r / 4096) mod 64; 128 + (r / 64) mod 64;
          128 + r mod 64].
Proof.
  unfold encoderune.
  rewrite !land_63, !Z.shiftr_div_pow2 by lia.
  change (2 ^ 6) with 64. change (2 ^ 12) with 4096. change (2 ^ 18) with 262144.
  destruct (decide (0 ≤ r ≤ 0x7F)) as [H1|H1].
  { replace (0 <=? r) with true by (symmetry; apply Z.leb_le; lia).
    replace (r <=? 0x7F) with true by (symmetry; apply Z.leb_le; lia). done. }
  destruct (decide (0x80 ≤ r ≤ 0x7FF)) as [H2|H2].
  { replace (0 <=? r) with true by (symmetry; apply Z.leb_le; lia).
    replace (r <=? 0x7F) with false by (symmetry; apply Z.leb_gt; lia).
    replace (r <=? 0x7FF) with true by (symmetry; apply Z.leb_le; lia). cbn [andb].
    change 0xC0 with (6 * 2 ^ 5). rewrite (lor_high 5 6 (r / 64)), lor_80; [done| |lia|].
    - apply Z.mod_pos_bound. lia.
    - split; [apply Z.div_pos; lia|]. apply Z.div_lt_upper_bound; lia. }
  assert (E12 : (0 <=? r) && (r <=? 0x7F) = false).
  { apply andb_false_iff. rewrite Z.leb_gt, Z.leb_gt. lia. }
  assert (E22 : (0 <=? r) && (r <=? 0x7FF) = false).
  { apply andb_false_iff. rewrite Z.leb_gt, Z.leb_gt. lia. }
  rewrite E12, E22.
  destruct (decide (r < 0 ∨ 0x10FFFF < r ∨ 0xD800 ≤ r ≤ 0xDFFF)) as [H3|H3].
  { assert ((r <? 0) || (0x10FFFF <? r) || ((0xD800 <=? r) && (r <=? 0xDFFF)) = true) as ->;
      [|done].
    rewrite !orb_true_iff, andb_true_iff, !Z.ltb_lt, !Z.leb_le. lia. }
  assert ((r <? 0) || (0x10FFFF <? r) || ((0xD800 <=? r) && (r <=? 0xDFFF)) = false) as ->.
  { rewrite !orb_false_iff, andb_false_iff, !Z.ltb_ge, !Z.leb_gt. lia. }
  destruct (decide (r ≤ 0xFFFF)) as [H4|H4].
  - replace (r <=? 0xFFFF) with true by (symmetry; apply Z.leb_le; lia).
    change 0xE0 with (14 * 2 ^ 4). rewrite (lor_high 4 14 (r / 4096)), !lor_80; [done| | |lia|].
    + apply Z.mod_pos_bound. lia.
    + apply Z.mod_pos_bound. lia.
    + split; [apply Z.div_pos; lia|]. apply Z.div_lt_upper_bound; lia.
  - replace (r <=? 0xFFFF) with false by (symmetry; apply Z.leb_gt; lia).
    change 0xF0 with (30 * 2 ^ 3). rewrite (lor_high 3 30 (r / 262144)), !lor_80; [done| | | |lia|].
    + apply Z.mod_pos_bound. lia.
    + apply Z.mod_pos_bound. lia.
    + apply Z.mod_pos_bound. lia.
    + split; [apply Z.div_pos; lia|]. apply Z.div_lt_upper_bound; lia.
Qed.

(** The encoding of a code point is one byte below 128, or several bytes
    that are all at least 128. *)
Lemma encoderune_bytes r :
  Forall (λ b, 0 ≤ b < 256) (encoderune r) ∧
  (1 ≤ length (encoderune r))%nat ∧
  ((2 ≤ length (encoderune r))%nat → Forall (λ b, 128 ≤ b) (encoderune r)).
Proof.
  rewrite encoderune_spec.
  repeat case_decide; cbn [length]; rewrite ?Forall_cons, ?Forall_nil;
    Z.to_euclidean_division_equations; lia.
Qed.

Lemma encoderune_inj r1 r2 :
  valid_rune r1 → valid_rune r2 → encoderune r1 = encoderune r2 → r1 = r2.
Proof.
  intros [V1 S1] [V2 S2]. rewrite !encoderune_spec.
  repeat case_decide; intros E; inversion E; try lia;
    Z.to_euclidean_division_equations; lia.
Qed.

Lemma list_byte_of_string_app a b :
  String.list_byte_of_string (a +:+ b)
  = String.list_byte_of_string a ++ String.list_byte_of_string b.
Proof.
  unfold String.list_byte_of_string.
  induction a as [|c a IH]; [done|]. simpl. by rewrite IH.
Qed.

Lemma Z_of_byte_of_Z_list (l : list Z) :
  Forall (λ b, 0 ≤ b < 256) l → Z_of_byte <$> (byte_of_Z <$> l) = l.
Proof.
  induction 1 as [|x l Hx Hl IH]; [done|]. cbn [fmap list_fmap] in *.
  rewrite IH, Z_of_byte_of_Z. f_equal. apply Z.mod_small. lia.
Qed.

(** The bytes of a key, as integers. *)
Lemma offsetKey_bytes topic partition :
  Z_of_byte <$> String.list_byte_of_string (offsetKey topic partition)
  = (Z_of_byte <$> String.list_byte_of_string topic) ++ [58] ++ encoderune partition.
Proof.
  unfold offsetKey, string_of_rune.
  rewrite !list_byte_of_string_app, String.list_byte_of_string_of_list_byte, !fmap_app.
  rewrite Z_of_byte_of_Z_list by apply encoderune_bytes. done.
Qed.

(** A key is cut in one way only into a topic, a colon and an encoding. *)
Lemma key_suffix_inj (t1 t2 e1 e2 : list Z) :
  t1 ++ [58] ++ e1 = t2 ++ [58] ++ e2 →
  (1 ≤ length e1)%nat → (1 ≤ length e2)%nat →
  ((2 ≤ length e1)%nat → Forall (λ b, 128 ≤ b) e1) →
  ((2 ≤ length e2)%nat → Forall (λ b, 128 ≤ b) e2) →
  t1 = t2 ∧ e1 = e2.
Proof.
  intros H H1 H2 M1 M2.
  assert (Hlt : ∀ (a b ea eb : list Z),
            a ++ [58] ++ ea = b ++ [58] ++ eb → (1 ≤ length ea)%nat →
            ((2 ≤ length eb)%nat → Forall (λ x, 128 ≤ x) eb) →
            ¬ (length ea < length eb)%nat).
  { intros a b ea eb E Ha Mb Hl.
    apply (f_equal reverse) in E.
    rewrite !reverse_app, reverse_singleton, <- !app_assoc in E.
    apply (f_equal (λ l, l !! length ea)) in E. cbv beta in E.
    rewrite lookup_app_r in E by (rewrite length_reverse; lia).
    rewrite length_reverse, Nat.sub_diag in E. cbn [app lookup list_lookup] in E.
    rewrite lookup_app_l in E by (rewrite length_reverse; lia).
    symmetry in E. apply list_elem_of_lookup_2 in E. rewrite elem_of_reverse in E.
    specialize (Mb ltac:(lia)). rewrite Forall_forall in Mb. specialize (Mb _ E). lia. }
  assert (length e1 = length e2) as Hlen.
  { pose proof (Hlt _ _ _ _ H H1 M2). symmetry in H. pose proof (Hlt _ _ _ _ H H2 M1). lia. }
  rewrite !app_assoc in H. apply app_inj_2 in H as [H ?]; [|done].
  apply app_inj_tail in H as [? _]. done.
Qed.

Lemma offsetKey_valid_inj topic1 partition1 topic2 partition2 :
  valid_rune partition1 → valid_rune partition2 →
  offsetKey topic1 partition1 = offsetKey topic2 partition2 →
  topic1 = topic2 ∧ partition1 = partition2.
Proof.
  intros V1 V2 E.
  apply (f_equal (λ s, Z_of_byte <$> String.list_byte_of_string s)) in E.
  rewrite !offsetKey_bytes in E.
  destruct (encoderune_bytes partition1) as (_ & L1 & M1).
  destruct (encoderune_bytes partition2) as (_ & L2 & M2).
  apply key_suffix_inj in E as [Et Ee]; [|done..].
  split; [|by apply encoderune_inj].
  apply (f_equal (fmap byte_of_Z)) in Et.
  assert (Hb : ∀ l : list byte, byte_of_Z <$> (Z_of_byte <$> l) = l).
  { induction l as [|b l IH]; [done|]. cbn [fmap list_fmap] in *. rewrite IH. f_equal.
    unfold byte_of_Z, Z_of_byte. pose proof (Z_of_byte_range b) as Hr.
    unfold Z_of_byte in Hr. rewrite Z.mod_small by done.
    rewrite N2Z.id. by rewrite Byte.of_to_N. }
  rewrite !Hb in Et.
  rewrite <- (String.string_of_list_byte_of_string topic1),
          <- (String.string_of_list_byte_of_string topic2). by rewrite Et.
Qed.

(** X11. The key under which a consumer records its offset determines the
    topic and the partition, for partitions that are valid code points of
    Unicode: two different pairs never share a key. Partitions that are not
    valid code points (the surrogates, 55296 to 57343, and those above
    1114111) all share the key of a topic. *)
Theorem offsetKey_inj :
  (∀ topic1 partition1 topic2 partition2,
     valid_rune partition1 → valid_rune partition2 →
     offsetKey topic1 partition1 = offsetKey topic2 partition2 →
     topic1 = topic2 ∧ partition1 = partition2) ∧
  (∀ topic partition1 partition2,
     ¬ valid_rune partition1 → ¬ valid_rune partition2 →
     offsetKey topic partition1 = offsetKey topic partition2).
Proof.
  split; [apply offsetKey_valid_inj|].
  intros t p1 p2 V1 V2. unfold offsetKey, string_of_rune.
  rewrite (encoderune_spec p1), (encoderune_spec p2). unfold valid_rune in *.
  repeat case_decide; try done; lia.
Qed.

(** X12. [Consumer.Consume] changes no file and opens or closes no
    descriptor. When it returns a record, the record has the offset that was
    asked for, the consumer's offset for that topic and partition becomes
    that offset plus one, and its offsets for the other topics and
    partitions (valid code points) stay as they were. When it returns an
    error, the offsets of the consumer are unchanged. *)
Theorem Consumer_Consume_outcome r topic partition offset offsets w res offsets' w' :
  Consumer_Consume r topic partition offset (offsets, w) = (res, (offsets', w')) →
  fs w' = fs w ∧ dom (fds w') = dom (fds w) ∧
  match res with
  | Ok entry =>
      Offset entry = offset ∧
      Consumer_GetOffset offsets' topic partition = int64 (offset + 1) ∧
      ∀ topic2 partition2,
        valid_rune partition → valid_rune partition2 →
        (topic2, partition2) ≠ (topic, partition) →
        Consumer_GetOffset offsets' topic2 partition2
        = Consumer_GetOffset offsets topic2 partition2
  | _ => offsets' = offsets
  end.
Proof.
  unfold Consumer_Consume. intros H.
  destruct (Registry_GetPartition r topic partition) as [p|e|];
    [|by inversion H; subst..].
  destruct (Partition_Read p offset w) as [rr w1] eqn:Hr.
  destruct (read_segments_outcome _ _ _ _ _ _ Hr) as (Hfs & Hdom & _ & Hok & _).
  destruct rr as [entry|e|]; inversion H; subst; clear H; [|done..].
  do 2 (split; [done|]). destruct (Hok entry eq_refl) as [Ho _].
  split; [done|]. split.
  - unfold Consumer_GetOffset. by rewrite lookup_insert_eq.
  - intros t2 p2 V1 V2 Hne. unfold Consumer_GetOffset.
    rewrite lookup_insert_ne; [done|].
    intros E. apply offsetKey_valid_inj in E as [-> ->]; done.
Qed.

(** X13. [Producer.Produce] on a topic that is not registered, or for a
    partition outside the topic, returns the error of [GetPartition] and
    changes neither the registry nor the world. In every case it leaves the
    other topics alone, and the topic keeps its name, its number of
    partitions and every partition but the one that was asked for. When it
    succeeds it returns the partition that was asked for. *)
Theorem Producer_Produce_outcome topic partition payload r w res r' w' :
  Producer_Produce topic partition payload (r, w) = (res, (r', w')) →
  (topics r !! topic = None →
     res = Err (ErrTopicNotFound topic) ∧ r' = r ∧ w' = w) ∧
  (∀ t, topics r !! topic = Some t → Z.of_nat (length (Partitions t)) < 2 ^ 31 →
     ¬ (0 ≤ partition < Z.of_nat (length (Partitions t))) →
     res = Err (ErrPartitionNotFound partition topic) ∧ r' = r ∧ w' = w) ∧
  dataDir r' = dataDir r ∧
  (∀ other, other ≠ topic → topics r' !! other = topics r !! other) ∧
  (∀ t, topics r !! topic = Some t →
     ∃ t', topics r' !! topic = Some t' ∧ Name t' = Name t ∧
           length (Partitions t') = length (Partitions t) ∧
           ∀ k, k ≠ Z.to_nat partition → Partitions t' !! k = Partitions t !! k) ∧
  (∀ p o, res = Ok (p, o) → p = partition).
Proof.
  unfold Producer_Produce. intros H.
  pose proof (Registry_GetPartition_cases r topic partition) as Hg.
  destruct (Registry_GetPartition r topic partition) as [part|e|] eqn:Eg.
  - destruct (Partition_Append payload (part, w)) as [ro [part' w1]] eqn:Ha.
    assert (Hr : r' = set_partition topic partition part' r) by (by inversion H).
    assert (Hres : res = match ro with Ok o => Ok (partition, o) | Err e => Err e
                                     | Panic => Panic end) by (by inversion H).
    clear H. subst r'.
    split; [intros Hn; by rewrite Hn in Hg|].
    split; [intros t Ht Hl Hout; rewrite Ht in Hg; specialize (Hg Hl);
            by rewrite decide_False in Hg|].
    split; [done|].
    split; [intros other Ho; unfold set_partition; cbn [topics];
            by rewrite lookup_alter_ne|].
    split.
    + intros t Ht. unfold set_partition. cbn [topics]. rewrite lookup_alter_eq, Ht.
      eexists. split; [done|]. cbn [Name Partitions]. split; [done|].
      split; [by rewrite length_insert|].
      intros k Hk. by rewrite list_lookup_insert_ne.
    + intros p o ->. destruct ro; by inversion Hres.
  - inversion H; subst; clear H.
    split; [intros Hn; rewrite Hn in Hg; by inversion Hg|].
    split.
    { intros t Ht Hl Hout. rewrite Ht in Hg. specialize (Hg Hl).
      rewrite decide_False in Hg by done. by inversion Hg. }
    split; [done|]. split; [done|]. split; [|done].
    intros t Ht. by exists t.
  - inversion H; subst; clear H.
    split; [intros Hn; by rewrite Hn in Hg|].
    split.
    { intros t Ht Hl Hout. rewrite Ht in Hg. specialize (Hg Hl).
      by rewrite decide_False in Hg. }
    split; [done|]. split; [done|]. split; [|done].
    intros t Ht. by exists t.
Qed.

(** The files of the next base offset of a full active segment do not
    exist yet. *)
Lemma part_counts_next_free w p segs a pss e :
  part_counts w p pss → segments p = segs ++ [a] →
  SegmentMaxBytes ≤ size a →
  fs w !! (dir p, nextOffset a, e) = None.
Proof.
  intros Hinv Hs Hsz.
  destruct (list_snoc_inv pss) as (qss & ps & ->); [apply Hinv|].
  destruct (part_counts_active _ _ _ _ _ _ Hinv Hs) as [Hl (Hn & Hb & Hx & Hz & _)].
  assert (Hps : ps ≠ []) by (apply Hz; unfold SegmentMaxBytes in Hsz; lia).
  assert (Hlt : baseOffset a < nextOffset a) by (destruct ps; [done|simpl in Hx; lia]).
  assert (Hia : segments p !! length segs = Some a).
  { rewrite Hs. by apply list_lookup_middle. }
  destruct Hinv as (Hlen & Hne & Hat & Hnone). apply Hnone.
  intros s Hin. apply list_elem_of_lookup in Hin as [j Hj].
  pose proof (lookup_lt_Some _ _ _ Hj) as Hjl. rewrite Hs, length_app in Hjl.
  simpl in Hjl.
  destruct (decide (j = length segs)) as [->|Hne'].
  - rewrite Hia in Hj. inversion Hj; subst. lia.
  - assert (baseOffset s < baseOffset a); [|lia].
    eapply (part_counts_bases_lt w p (qss ++ [ps]) j (length segs)); [|lia|done|done].
    by split.
Qed.

(** What a failing [Partition.Append] leaves behind. *)
Lemma Partition_Append_Err payload p w e p' w' segs a :
  segments p = segs ++ [a] →
  Partition_Append payload (p, w) = (Err e, (p', w')) →
  (size a < SegmentMaxBytes ∧
   ∃ a', Segment_Append (mkLogEntry 0 payload) (a, w) = (Err e, (a', w')) ∧
         p' = set_segments (segs ++ [a']) p)
  ∨ (SegmentMaxBytes ≤ size a ∧ NewSegment (dir p) (nextOffset a) w = (Err e, w') ∧ p' = p)
  ∨ (SegmentMaxBytes ≤ size a ∧
     ∃ new w1 new',
       NewSegment (dir p) (nextOffset a) w = (Ok new, w1) ∧
       Segment_Append (mkLogEntry 0 payload) (new, w1) = (Err e, (new', w')) ∧
       p' = set_segments (segs ++ [a; new']) p).
Proof.
  intros Hs H. unfold Partition_Append, bind, getS, on_active in H.
  rewrite Hs, last_snoc in H.
  destruct (SegmentMaxBytes <=? size a) eqn:Hsz.
  - apply Z.leb_le in Hsz. right. unfold sys, modS, bind in H.
    destruct (NewSegment (dir p) (nextOffset a) w) as [[new|e1|] w1] eqn:Hn.
    + right. split; [done|]. cbn [segments set_segments] in H.
      rewrite Hs, last_snoc in H.
      destruct (Segment_Append _ (new, w1)) as [ra [new' w2]] eqn:Ha.
      destruct ra as [u|e2|]; inversion H; subst; clear H.
      exists new, w1, new'. split; [done|]. split; [done|].
      rewrite removelast_last. unfold set_segments. cbn. by rewrite <- app_assoc.
    + left. inversion H; subst. done.
    + done.
  - apply Z.leb_gt in Hsz. left. split; [done|]. unfold ret in H.
    rewrite Hs, last_snoc in H.
    destruct (Segment_Append _ (a, w)) as [ra [a' w2]] eqn:Ha.
    destruct ra as [u|e2|]; inversion H; subst; clear H.
    exists a'. split; [done|]. by rewrite removelast_last.
Qed.

(** X14. A [Partition.Append] that fails leaves [NextOffset()] as it was:
    on a partition created in a directory without files, after any run of
    successful appends, whichever system call of the next append fails, also
    when a new segment had just been added. *)
Theorem Partition_Append_error_keeps_NextOffset
    dataDir topic i w0 p0 w1 payloads os p w payload e p' w' :
  (∀ b e, fs w0 !! (partition_dir dataDir topic i, b, e) = None) →
  NewPartition dataDir topic i w0 = (Ok p0, w1) →
  append_all payloads p0 w1 = Some (os, p, w) →
  Z.of_nat (length payloads) < 2 ^ 63 →
  Partition_Append payload (p, w) = (Err e, (p', w')) →
  Partition_NextOffset p' = Z.of_nat (length payloads) ∧
  Partition_NextOffset p = Z.of_nat (length payloads).
Proof.
  intros Hf Hnew Hrun Hbound Herr.
  destruct (fresh_run_inv _ _ _ _ _ _ _ _ _ _ Hf Hnew Hrun Hbound)
    as (_ & _ & pss & Hc & Hcat & _).
  pose proof (part_counts_NextOffset _ _ _ Hc) as Hnext. rewrite Hcat in Hnext.
  split; [|done]. rewrite <- Hnext.
  destruct (list_snoc_inv (segments p)) as (segs & a & Hs).
  { destruct Hc as (Hlen & Hne & _). intros E. rewrite E in Hlen. by destruct pss. }
  unfold Partition_NextOffset at 2. rewrite Hs, last_snoc.
  destruct (Partition_Append_Err _ _ _ _ _ _ _ _ Hs Herr)
    as [(_ & a' & Ha & ->)|[(_ & _ & ->)|(Hsz & new & w2 & new' & Hn & Ha & ->)]].
  - unfold Partition_NextOffset. cbn [segments set_segments]. rewrite last_snoc.
    apply Segment_Append_steps in Ha as [[? _]|[_ Ha]]; done.
  - unfold Partition_NextOffset. by rewrite Hs, last_snoc.
  - unfold Partition_NextOffset. cbn [segments set_segments].
    replace (segs ++ [a; new']) with ((segs ++ [a]) ++ [new']) by (by rewrite <- app_assoc).
    rewrite last_snoc.
    apply Segment_Append_steps in Ha as [[? _]|[_ Ha]]; [done|]. rewrite Ha.
    apply NewSegment_fresh in Hn as (-> & _); [done|..];
      by eapply part_counts_next_free.
Qed.

Lemma open_segments_dom d bases : ∀ segs w segs' w',
  open_segments d bases segs w = (Ok segs', w') →
  ∃ new, segs' = segs ++ new ∧ dom (fds w') = segments_fds new ∪ dom (fds w).
Proof.
  induction bases as [|b bases IH]; intros segs w segs' w' H.
  - inversion H; subst. exists []. rewrite app_nil_r. split; [done|].
    unfold segments_fds. simpl. set_solver.
  - cbn [open_segments] in H. unfold bind, attempt in H.
    destruct (NewSegment d b w) as [[s|e|] w1] eqn:Hn; [|done|done].
    apply NewSegment_Ok in Hn as (_ & _ & _ & Hd).
    apply IH in H as (new & -> & Hd'). exists (s :: new).
    rewrite <- app_assoc. split; [done|]. rewrite Hd', Hd.
    unfold segments_fds. simpl. set_solver.
Qed.

(** X15. The descriptors of [NewPartition]. When it succeeds, the
    descriptors that it has opened are those of the segments of the
    partition, and all of them are open. When it returns an error, every
    descriptor that it had opened is closed again. *)
Theorem NewPartition_descriptors dataDir topic i w r w' :
  NewPartition dataDir topic i w = (r, w') →
  match r with
  | Ok p => dom (fds w') = segments_fds (segments p) ∪ dom (fds w)
  | Err _ => dom (fds w') ⊆ dom (fds w)
  | Panic => True
  end.
Proof.
  intros H. destruct r as [p|e|]; [|by apply NewPartition_fds in H|done].
  unfold NewPartition, LoadSegments in H.
  apply bind_Ok in H as (segs & w1 & H1 & H).
  apply bind_Ok in H1 as (files & w0 & H0 & H1).
  apply os_ReadDir_Ok in H0 as (_ & _ & E0 & _).
  apply open_segments_dom in H1 as (new & -> & Hd). simpl in H. rewrite E0 in Hd.
  destruct new as [|s new].
  - apply bind_Ok in H as (s & w2 & H2 & H). inversion H; subst. cbn [segments].
    apply NewSegment_Ok in H2 as (_ & _ & _ & ->). rewrite Hd.
    unfold segments_fds. simpl. set_solver.
  - by inversion H; subst.
Qed.

Lemma NewPartition_descriptors_witness :
  dom (fds (fresh_w [])) = segments_fds (segments (fresh_p [])) ∪ dom (fds (empty_world [])).
Proof.
  apply (NewPartition_descriptors "data" "events" 0 (empty_world []) (Ok (fresh_p []))).
  apply run_eta. vm_compute. reflexivity.
Defined.

(** X16. [findPosition] on an index whose relative offsets increase: it
    returns the position of the last index entry whose relative offset is
    not above that of the offset asked for, and 0 when there is none. *)
Theorem findPosition_last_entry s offset :
  (∀ i j ei ej, indexEntries s !! i = Some ei → indexEntries s !! j = Some ej →
                (i < j)%nat → RelativeOffset ei < RelativeOffset ej) →
  (findPosition s offset = 0 ∧
   ∀ e, e ∈ indexEntries s → int32 (int64 (offset - baseOffset s)) < RelativeOffset e)
  ∨ (∃ i e, indexEntries s !! i = Some e ∧
            RelativeOffset e ≤ int32 (int64 (offset - baseOffset s)) ∧
            findPosition s offset = Position e ∧
            ∀ j e', indexEntries s !! j = Some e' → (i < j)%nat →
                    int32 (int64 (offset - baseOffset s)) < RelativeOffset e').
Proof.
  intros Hinc. unfold findPosition. cbv zeta.
  set (rel := int32 (int64 (offset - baseOffset s))).
  set (f := λ i : nat, match indexEntries s !! i with
                       | Some e => rel <? RelativeOffset e
                       | None => false
                       end).
  destruct (sort_Search_spec (length (indexEntries s)) f) as (Hle & Hlo & Hhi).
  set (r := sort_Search (length (indexEntries s)) f) in *.
  assert (Habove : ∀ j e', indexEntries s !! j = Some e' → (r ≤ j)%nat →
                           rel < RelativeOffset e').
  { intros j e' Hj Hrj. destruct Hhi as [Hn|Hfr].
    - apply lookup_lt_Some in Hj. lia.
    - unfold f in Hfr. destruct (indexEntries s !! r) as [er|] eqn:Er; [|done].
      apply Z.ltb_lt in Hfr. destruct (decide (r = j)) as [->|Hne].
      + rewrite Er in Hj. by inversion Hj; subst.
      + pose proof (Hinc r j er e' Er Hj ltac:(lia)). lia. }
  destruct r as [|i] eqn:Hr.
  - left. split; [done|]. intros e He. apply list_elem_of_lookup in He as [j Hj].
    apply (Habove j e Hj). lia.
  - right. destruct Hlo as [?|Hf]; [done|].
    replace (S i - 1)%nat with i in Hf by lia. unfold f in Hf.
    destruct (lookup_lt_is_Some_2 (indexEntries s) i ltac:(lia)) as [e He].
    rewrite He in Hf. apply Z.ltb_ge in Hf.
    exists i, e. split; [done|]. split; [done|]. split; [by rewrite He|].
    intros j e' Hj Hij. apply (Habove j e' Hj). lia.
Qed.

Lemma findPosition_last_entry_witness :
  (findPosition abc_seg 2 = 0 ∧
   ∀ e, e ∈ indexEntries abc_seg → int32 (int64 (2 - baseOffset abc_seg)) < RelativeOffset e)
  ∨ (∃ i e, indexEntries abc_seg !! i = Some e ∧
            RelativeOffset e ≤ int32 (int64 (2 - baseOffset abc_seg)) ∧
            findPosition abc_seg 2 = Position e ∧
            ∀ j e', indexEntries abc_seg !! j = Some e' → (i < j)%nat →
                    int32 (int64 (2 - baseOffset abc_seg)) < RelativeOffset e').
Proof.
  apply (findPosition_last_entry abc_seg 2).
  change (indexEntries abc_seg) with [mkIndexEntry 0 0].
  intros [|i] [|j] ei ej Hi Hj Hij; simpl in *; try done; lia.
Defined.

Lemma produce_consume_witness :
  demo_run.1.1.*1 = demo_msgs.*1 ∧
  ∃ p, Registry_GetPartition demo_run.1.2 "t" 0 = Ok p ∧
       Partition_NextOffset p = Z.of_nat (length (sent_to 0 demo_msgs)) ∧
       ∃ w', Consumer_Consume demo_run.1.2 "t" 0 (Z.of_nat 1) (∅, demo_run.2)
             = (Ok (mkLogEntry (Z.of_nat 1) (bytes "c")),
                (<[offsetKey "t" 0 := Z.of_nat 1 + 1]> ∅, w')).
Proof.
  destruct (produce_consume "t" 2 (NewRegistry "data") (empty_world [])
              demo_topic.1 demo_topic.2 demo_msgs demo_run.1.1 demo_run.1.2 demo_run.2)
    as (H1 & _ & H3).
  - intros i b e. apply lookup_empty.
  - apply run_eta2. vm_compute. reflexivity.
  - lia.
  - apply (Some_eta3 _ ([], demo_topic.1, demo_topic.2)). vm_compute. reflexivity.
  - repeat constructor.
  - simpl. lia.
  - vm_compute. reflexivity.
  - split; [exact H1|]. destruct (H3 0 ltac:(lia)) as (p & Hp & Hn & Hc).
    exists p. split; [exact Hp|]. split; [exact Hn|].
    destruct (Hc 1%nat (bytes "c") ∅ eq_refl) as (w' & Hw & _). by exists w'.
Defined.

Lemma Consumer_Consume_outcome_witness :
  fs (Consumer_Consume demo_run.1.2 "t" 0 5 (∅, demo_run.2)).2.2 = fs demo_run.2.
Proof.
  apply (proj1 (Consumer_Consume_outcome demo_run.1.2 "t" 0 5 ∅ demo_run.2
           (Consumer_Consume demo_run.1.2 "t" 0 5 (∅, demo_run.2)).1
           (Consumer_Consume demo_run.1.2 "t" 0 5 (∅, demo_run.2)).2.1
           (Consumer_Consume demo_run.1.2 "t" 0 5 (∅, demo_run.2)).2.2
           (run_eta2 _ _ eq_refl))).
Defined.

Lemma Producer_Produce_outcome_witness :
  (Producer_Produce "u" 0 (bytes "a") demo_topic).1 = Err (ErrTopicNotFound "u").
Proof.
  destruct (Producer_Produce_outcome "u" 0 (bytes "a") demo_topic.1 demo_topic.2
              (Producer_Produce "u" 0 (bytes "a") demo_topic).1
              (Producer_Produce "u" 0 (bytes "a") demo_topic).2.1
              (Producer_Produce "u" 0 (bytes "a") demo_topic).2.2) as (H & _).
  - destruct demo_topic as [r w]. by apply run_eta2.
  - apply H. vm_compute. reflexivity.
Defined.

Lemma Partition_Append_error_keeps_NextOffset_witness :
  Partition_NextOffset
    (Partition_Append (bytes "a") (fresh_p failing_schedule, fresh_w failing_schedule)).2.1
  = Z.of_nat (length (@nil (list byte))).
Proof.
  apply (proj1 (Partition_Append_error_keeps_NextOffset "data" "events" 0
           (empty_world failing_schedule) (fresh_p failing_schedule)
           (fresh_w failing_schedule) [] [] (fresh_p failing_schedule)
           (fresh_w failing_schedule) (bytes "a") ErrIO
           (Partition_Append (bytes "a")
              (fresh_p failing_schedule, fresh_w failing_schedule)).2.1
           (Partition_Append (bytes "a")
              (fresh_p failing_schedule, fresh_w failing_schedule)).2.2
           ltac:(intros b e; apply lookup_empty)
           ltac:(apply fresh_p_eta; vm_compute; reflexivity)
           ltac:(reflexivity)
           ltac:(simpl; lia)
           ltac:(apply run_eta2; vm_compute; reflexivity))).
Defined.

(** X17. A partition that was opened again goes on where it stopped. After
    a run of successful appends on a fresh partition, [NewPartition] in a
    world with the same files and no I/O failure, and a second run of
    successful appends (payloads shorter than 2^31 bytes): [NextOffset()]
    counts the records of both runs, and (when no I/O fails) every offset
    reads the payload that was appended under it, before or after the
    reopening. *)
Theorem append_after_reopen
    dataDir topic i w0 p0 w1 payloads os p w wc p' w' payloads2 os2 p2 w2 :
  (∀ b e, fs w0 !! (partition_dir dataDir topic i, b, e) = None) →
  NewPartition dataDir topic i w0 = (Ok p0, w1) →
  append_all payloads p0 w1 = Some (os, p, w) →
  fs wc = fs w → faults wc = [] →
  NewPartition dataDir topic i wc = (Ok p', w') →
  append_all payloads2 p' w' = Some (os2, p2, w2) →
  Forall small (payloads ++ payloads2) →
  Z.of_nat (length (payloads ++ payloads2)) < 2 ^ 63 →
  faults w2 = [] →
  Partition_NextOffset p2 = Z.of_nat (length (payloads ++ payloads2)) ∧
  ∀ o payload, (payloads ++ payloads2) !! o = Some payload →
    (Partition_Read p2 (Z.of_nat o) w2).1 = Ok (mkLogEntry (Z.of_nat o) payload).
Proof.
  intros Hf Hnew Hrun Hfs Hfl Hre Hrun2 Hsmall Hbound Hfl2.
  apply Forall_app in Hsmall as [Hs1 Hs2]. rewrite length_app in Hbound.
  pose proof (fresh_run_index _ _ _ _ _ _ _ _ _ _ Hf Hnew Hrun ltac:(lia)) as Hpi.
  destruct (fresh_run_inv _ _ _ _ _ _ _ _ _ _ Hf Hnew Hrun ltac:(lia))
    as (_ & Hid & pss & Hc & Hcat & Hfull).
  specialize (Hfull Hs1). subst payloads.
  assert (Hdir : dir p = partition_dir dataDir topic i).
  { apply append_all_fields in Hrun as [-> _]. by apply NewPartition_Ok in Hnew as (_ & ? & _). }
  destruct (NewPartition_reopen dataDir topic i w p pss wc Hdir Hc Hfull Hpi Hs1 ltac:(lia)
              Hfs Hfl) as (segs' & w'' & E & _ & _ & _ & Hc' & Hfull').
  rewrite E in Hre. inversion Hre; subst p' w''; clear Hre.
  apply (append_all_inv _ _ _ pss) in Hrun2 as (_ & _ & _ & pss2 & Hc2 & Hcat2 & Hfull2);
    [|done|lia].
  specialize (Hfull2 Hfull' Hs2). rewrite <- Hcat2.
  split; [by rewrite (part_counts_NextOffset _ _ _ Hc2)|].
  intros o payload Ho.
  assert (Hs : Forall small (concat pss2)) by (rewrite Hcat2; apply Forall_app; by split).
  assert (Hb : Z.of_nat (length (concat pss2)) < 2 ^ 63) by (rewrite Hcat2, length_app; lia).
  destruct (Partition_Read_ok _ _ _ _ _ Hc2 Hfull2 Hs Hfl2 Hb Ho) as [w3 ->]. done.
Qed.

Lemma append_after_reopen_witness :
  Partition_NextOffset reopened_d.1.2 = Z.of_nat (length (abc ++ [bytes "d"])) ∧
  (Partition_Read reopened_d.1.2 (Z.of_nat 3) reopened_d.2).1
    = Ok (mkLogEntry (Z.of_nat 3) (bytes "d")).
Proof.
  destruct (append_after_reopen "data" "events" 0 (empty_world []) (fresh_p [])
           (fresh_w []) abc (run_appends abc).1.1 (run_appends abc).1.2 (run_appends abc).2
           (restarted (run_appends abc).2) reopened_p reopened_abc.2 [bytes "d"]
           reopened_d.1.1 reopened_d.1.2 reopened_d.2
           ltac:(intros b e; apply lookup_empty)
           ltac:(apply fresh_p_eta; vm_compute; reflexivity)
           ltac:(apply run_appends_eta; vm_compute; reflexivity)
           ltac:(apply restarted_fs)
           ltac:(reflexivity)
           ltac:(apply run_eta; vm_compute; reflexivity)
           ltac:(apply (Some_eta3 _ ([], reopened_p, reopened_abc.2)); vm_compute; reflexivity)
           ltac:(repeat constructor)
           ltac:(vm_compute; reflexivity)
           ltac:(vm_compute; reflexivity)) as [H1 H2].
  split; [exact H1|]. apply (H2 3%nat (bytes "d")). reflexivity.
Defined.

(** ** The streaming handler *)

Lemma quiet_bind {A B} (m : M (Segment * World) A) (k : A → M (Segment * World) B) :
  quiet m → (∀ a, quiet (k a)) → quiet (bind m k).
Proof.
  intros Hm Hk s w r s' w' H Hq.
  apply bind_inv in H as [(a & [s1 w1] & H1 & H2)|[(e & H1 & _)|[H1 _]]].
  - eapply Hk; [exact H2|]. by eapply Hm.
  - by eapply Hm.
  - by eapply Hm.
Qed.

Lemma quiet_pure {A} (r0 : result A) : quiet (λ st, (r0, st)).
Proof. by intros s w r s' w' [= _ _ ->]. Qed.

Lemma quiet_getS : quiet getS.
Proof. by intros s w r s' w' [= _ _ ->]. Qed.

Lemma quiet_getW : quiet getW.
Proof. by intros s w r s' w' [= _ _ ->]. Qed.

Lemma quiet_read f n : quiet (sys (io_ReadFull f n)).
Proof.
  intros s w r s' w' H Hq. apply sys_inv in H as [_ H].
  unfold io_ReadFull, next_fault in H. destruct n as [|n]; [by inversion H; subst|].
  destruct (fds w !! fd f); [|by inversion H; subst].
  rewrite Hq in H. cbn [hd tl] in H. cbv zeta in H.
  case_decide; [by inversion H; subst|].
  destruct (take _ _); by inversion H; subst.
Qed.

Lemma quiet_seek f pos : quiet (sys_ (File_SeekStart f pos)).
Proof.
  intros s w r s' w' H Hq. apply sys__inv in H as (_ & _ & ->).
  unfold File_SeekStart. destruct (fds w !! fd f); [|done]. by destruct (pos <? 0).
Qed.

Lemma quiet_for_loop {L A} fuel (body : L → M (Segment * World) (L + A)) :
  (∀ l, quiet (body l)) → ∀ l, quiet (for_loop fuel body l).
Proof.
  intros Hb. induction fuel as [|fuel IH]; intros l.
  - apply (quiet_pure (Err ErrFuel)).
  - cbn [for_loop]. apply quiet_bind; [apply Hb|].
    intros [l'|a]; [apply IH|apply (quiet_pure (Ok a))].
Qed.

Lemma Segment_Read_quiet offset : quiet (Segment_Read offset).
Proof.
  unfold Segment_Read.
  apply quiet_bind; [apply quiet_getS|intros s1].
  destruct (_ || _); [apply quiet_pure|].
  apply quiet_bind; [apply quiet_seek|intros _].
  apply quiet_bind; [apply quiet_getW|intros w1].
  apply quiet_for_loop. intros u. unfold read_body.
  apply quiet_bind; [apply quiet_getS|intros s2].
  apply quiet_bind; [apply quiet_read|intros off].
  apply quiet_bind; [apply quiet_read|intros lenb].
  apply quiet_bind; [apply quiet_read|intros crcb].
  cbv zeta. destruct (_ <? 0); [apply (quiet_pure Panic)|].
  apply quiet_bind; [apply quiet_read|intros payload].
  destruct (decide _); [apply quiet_pure|].
  destruct (_ <? _); apply quiet_pure.
Qed.

Lemma Partition_Read_quiet p offset w r w' :
  Partition_Read p offset w = (r, w') → faults w = [] → faults w' = [].
Proof.
  unfold Partition_Read. generalize (segments p). intros segs.
  induction segs as [|s segs IH]; cbn [read_segments].
  - by intros [= _ ->].
  - destruct (_ && _); [|done].
    destruct (Segment_Read offset (s, w)) as [r1 [s1 w1]] eqn:E.
    intros [= _ <-]. by eapply Segment_Read_quiet.
Qed.

Lemma record_responses_app o ps qs :
  record_responses o (ps ++ qs)
  = record_responses o ps ++ record_responses (o + Z.of_nat (length ps)) qs.
Proof.
  revert o. induction ps as [|p ps IH]; intros o; simpl.
  - by rewrite Z.add_0_r.
  - rewrite IH. do 3 f_equal. lia.
Qed.

(** The loop of the streaming [Consume] on a partition whose counters and
    files are in step, when the context is never done and no send fails: it
    sends the records from the current offset on, then the error of the
    first offset that is not there, and returns. *)
Lemma Handler_Consume_loop r topic partition p pss n : ∀ o fuel offsets w st,
  Registry_GetPartition r topic partition = Ok p →
  part_counts w p pss → part_full w p pss →
  Forall small (concat pss) → Z.of_nat (length (concat pss)) < 2 ^ 63 - 1 →
  faults w = [] → ctx_done st = [] → send_fail st = [] →
  (o + n = length (concat pss))%nat → (n < fuel)%nat →
  ∃ offsets' w',
    Handler_Consume fuel r topic partition (Z.of_nat o) offsets w st
    = (Returned,
       (offsets', w',
        mkStream (sent st ++ record_responses (Z.of_nat o) (drop o (concat pss))
                  ++ [mkConsumeResponse 0 []
                        (Some (ErrNotInPartition (Z.of_nat (length (concat pss))) (id p)))])
                 [] [])) ∧
    fs w' = fs w ∧ dom (fds w') = dom (fds w) ∧
    ((0 < n)%nat →
       Consumer_GetOffset offsets' topic partition = Z.of_nat (length (concat pss))).
Proof.
  induction n as [|n IH]; intros o fuel offsets w st Hg Hc Hf Hsmall Hbound Hfl Hcd Hsf Hon Hfuel.
  - destruct fuel as [|fuel]; [lia|]. rewrite Nat.add_0_r in Hon. subst o.
    cbn [Handler_Consume]. unfold stream_done. rewrite Hcd. cbn [hd tl].
    unfold Consumer_Consume. rewrite Hg.
    rewrite (Partition_Read_outside _ _ pss) by (done || lia).
    cbn [is_EOF]. unfold stream_Send. cbn [send_fail]. rewrite Hsf. cbn [hd tl sent ctx_done].
    exists offsets, w. rewrite drop_all. cbn [record_responses app].
    split; [done|]. split; [done|]. split; [done|]. lia.
  - destruct fuel as [|fuel]; [lia|].
    destruct (lookup_lt_is_Some_2 (concat pss) o ltac:(lia)) as [x Hx].
    destruct (Partition_Read_ok _ _ _ _ _ Hc Hf Hsmall Hfl ltac:(lia) Hx) as [w1 Hr].
    pose proof (Partition_Read_quiet _ _ _ _ _ Hr Hfl) as Hfl1.
    destruct (read_segments_outcome _ _ _ _ _ _ Hr) as (Hfs1 & Hd1 & _).
    assert (Hc1 : part_counts w1 p pss).
    { apply (part_counts_frame w); [done|]. intros b e. by rewrite Hfs1. }
    assert (Hf1 : part_full w1 p pss).
    { apply (part_full_frame w); [done|done| |rewrite Hd1; set_solver]. intros b e. by rewrite Hfs1. }
    cbn [Handler_Consume]. unfold stream_done. rewrite Hcd. cbn [hd tl].
    unfold Consumer_Consume. rewrite Hg, Hr.
    unfold stream_Send. cbn [send_fail]. rewrite Hsf. cbn [hd tl sent ctx_done Offset Payload].
    rewrite (int64_small (Z.of_nat o + 1)) by lia.
    replace (Z.of_nat o + 1) with (Z.of_nat (S o)) by lia.
    set (offsets1 := <[offsetKey topic partition := Z.of_nat (S o)]> offsets).
    destruct (IH (S o) fuel offsets1 w1
                (mkStream (sent st ++ [mkConsumeResponse (Z.of_nat o) x None]) [] []))
      as (offsets' & w' & E & Hfs' & Hd' & Hoff); try done; [lia..|].
    exists offsets', w'. rewrite E. cbn [sent]. split; [|split; [|split]].
    + do 3 f_equal. rewrite <- !app_assoc. f_equal.
      rewrite (drop_S _ _ _ Hx). cbn [record_responses app].
      by replace (Z.of_nat o + 1) with (Z.of_nat (S o)) by lia.
    + congruence.
    + congruence.
    + intros _. destruct n as [|n].
      * destruct fuel as [|fuel]; [lia|]. rewrite Nat.add_1_r in Hon.
        cbn [Handler_Consume] in E. unfold stream_done in E. cbn [ctx_done hd tl] in E.
        unfold Consumer_Consume in E. rewrite Hg in E.
        rewrite (Partition_Read_outside _ _ pss) in E by (done || lia).
        cbn [is_EOF] in E. unfold stream_Send in E. cbn [send_fail hd tl] in E.
        inversion E; subst offsets'. unfold Consumer_GetOffset, offsets1.
        rewrite lookup_insert_eq. simpl. lia.
      * apply Hoff. lia.
Qed.

(** After [CreateTopic] in a world without files of the topic and a run of
    successful [Produce] calls, every partition of the topic is in step with
    the messages sent to it. *)
Lemma produce_run_partitions name n r0 w0 r1 w1 msgs res r w :
  (∀ i b e, fs w0 !! (partition_dir (dataDir r0) name i, b, e) = None) →
  Registry_CreateTopic name n (r0, w0) = (Ok (), (r1, w1)) → n < 2 ^ 31 →
  produce_all name msgs r1 w1 = Some (res, r, w) →
  Forall (λ m, small m.2) msgs → Z.of_nat (length msgs) < 2 ^ 63 →
  ∀ i, 0 ≤ i < n →
    ∃ p pss, Registry_GetPartition r name i = Ok p ∧ id p = i ∧
             part_counts w p pss ∧ part_full w p pss ∧ concat pss = sent_to i msgs.
Proof.
  intros Hfree Hcreate Hn Hrun Hsmall Hbound i Hi.
  unfold Registry_CreateTopic, bind at 1 in Hcreate. cbn [getS] in Hcreate.
  destruct (topics r0 !! name) eqn:Ht0; [done|].
  destruct (n <? 0) eqn:Hneg; [done|]. apply Z.ltb_ge in Hneg.
  apply bind_Ok in Hcreate as (ps & [r0' w0'] & Hc & Hm).
  apply sys_inv in Hc as [-> Hc]. apply modS_inv in Hm as (-> & _ & ->).
  apply (create_partitions_inv _ _ _ []) in Hc as [Hinv Hlen].
  2: { intros j _ b e. apply Hfree. }
  2: { intros j p Hp. by rewrite lookup_nil in Hp. }
  simpl in Hlen.
  set (r1 := mkRegistry _ _) in Hrun.
  assert (Ht1 : topics r1 !! name = Some (mkTopic name ps)) by apply lookup_insert_eq.
  destruct (produce_all_inv (dataDir r0) name msgs [] r1 w0' ps _ _ _
              Ht1 ltac:(lia) Hinv Hrun Hsmall ltac:(simpl; lia))
    as (_ & _ & ps' & Ht' & Hl' & Hinv').
  simpl in Hinv'.
  pose proof (Registry_GetPartition_cases r name i) as Hg. rewrite Ht' in Hg.
  cbn [Partitions] in Hg. rewrite Hg by lia. clear Hg.
  rewrite decide_True by lia.
  destruct (lookup_lt_is_Some_2 ps' (Z.to_nat i) ltac:(lia)) as [p Hp].
  rewrite Hp.
  destruct (Hinv' _ _ Hp) as (Hid & Hdir & pss & Hpc & Hpf & Hcat).
  rewrite Z2Nat.id in Hcat, Hid by lia.
  exists p, pss. done.
Qed.

(** X18. The streaming [Consume] of the gRPC handler. On a topic created in
    a world without its files, after any run of successful [Produce] calls
    (payloads shorter than 2^31 bytes), when the context is never done and
    neither a send nor an I/O call fails: a call for the partition [i] from
    the offset [o] sends the records sent to that partition from [o] on, in
    order, each under its offset; it then sends one response that carries
    the error "offset K not found in partition i" for the first offset [K]
    that is not there, and returns [nil]: at the tail it ends the stream
    rather than wait. No file changes, and the offset of the consumer for
    the partition ends at [K] when at least one record was sent. *)
Theorem Handler_Consume_stream name n r0 w0 r1 w1 msgs res r w i o fuel offsets st :
  (∀ i b e, fs w0 !! (partition_dir (dataDir r0) name i, b, e) = None) →
  Registry_CreateTopic name n (r0, w0) = (Ok (), (r1, w1)) → n < 2 ^ 31 →
  produce_all name msgs r1 w1 = Some (res, r, w) →
  Forall (λ m, small m.2) msgs → Z.of_nat (length msgs) < 2 ^ 63 - 1 →
  faults w = [] → ctx_done st = [] → send_fail st = [] →
  0 ≤ i < n → (o ≤ length (sent_to i msgs))%nat →
  (length (sent_to i msgs) - o < fuel)%nat →
  ∃ offsets' w',
    Handler_Consume fuel r name i (Z.of_nat o) offsets w st
    = (Returned,
       (offsets', w',
        mkStream (sent st ++ record_responses (Z.of_nat o) (drop o (sent_to i msgs))
                  ++ [mkConsumeResponse 0 []
                        (Some (ErrNotInPartition (Z.of_nat (length (sent_to i msgs))) i))])
                 [] [])) ∧
    fs w' = fs w ∧
    ((o < length (sent_to i msgs))%nat →
       Consumer_GetOffset offsets' name i = Z.of_nat (length (sent_to i msgs))).
Proof.
  intros Hfree Hcreate Hn Hrun Hsmall Hbound Hfl Hcd Hsf Hi Ho Hfuel.
  destruct (produce_run_partitions _ _ _ _ _ _ _ _ _ _ Hfree Hcreate Hn Hrun Hsmall
              ltac:(lia) i Hi) as (p & pss & Hg & Hid & Hc & Hf & Hcat).
  assert (Hps : Forall small (concat pss)).
  { rewrite Hcat. unfold sent_to. apply Forall_fmap.
    apply Forall_forall. intros m Hm. apply list_elem_of_filter in Hm as [_ Hm].
    rewrite Forall_forall in Hsmall. by apply Hsmall. }
  pose proof (length_sent_to i msgs) as Hle.
  destruct (Handler_Consume_loop r name i p pss (length (concat pss) - o) o fuel offsets w st)
    as (offsets' & w' & E & Hfs & _ & Hoff); try done.
  - rewrite Hcat. lia.
  - rewrite Hcat. lia.
  - rewrite Hcat. lia.
  - exists offsets', w'. rewrite E, Hcat, Hid. split; [done|]. split; [done|].
    intros Hlt. rewrite <- Hcat. apply Hoff. rewrite Hcat. lia.
Qed.

Lemma Handler_Consume_stream_witness :
  ∃ offsets' w',
    Handler_Consume 3 demo_run.1.2 "t" 0 (Z.of_nat 0) ∅ demo_run.2 (mkStream [] [] [])
    = (Returned,
       (offsets', w',
        mkStream ([] ++ record_responses (Z.of_nat 0) (drop 0 (sent_to 0 demo_msgs))
                  ++ [mkConsumeResponse 0 []
                        (Some (ErrNotInPartition (Z.of_nat (length (sent_to 0 demo_msgs))) 0))])
                 [] [])) ∧
    fs w' = fs demo_run.2 ∧
    ((0 < length (sent_to 0 demo_msgs))%nat →
       Consumer_GetOffset offsets' "t" 0 = Z.of_nat (length (sent_to 0 demo_msgs))).
Proof.
  apply (Handler_Consume_stream "t" 2 (NewRegistry "data") (empty_world [])
           demo_topic.1 demo_topic.2 demo_msgs demo_run.1.1 demo_run.1.2 demo_run.2
           0 0%nat 3%nat ∅ (mkStream [] [] [])).
  - intros i b e. apply lookup_empty.
  - apply run_eta2. vm_compute. reflexivity.
  - lia.
  - apply (Some_eta3 _ ([], demo_topic.1, demo_topic.2)). vm_compute. reflexivity.
  - repeat constructor.
  - simpl. lia.
  - vm_compute. reflexivity.
  - reflexivity.
  - reflexivity.
  - lia.
  - simpl. lia.
  - simpl. lia.
Defined.
